(** * Core-worker in-memory store and direct task submitter

    A shallow embedding of
    [src/ray/core_worker/transport/direct_task_transport.cc] (dependency
    resolver and direct task submitter) and of the in-memory object store
    ([GetRequest], [CoreWorkerMemoryStore]) that the same source unit carries.

    Conventions.
    - A failing [RAY_CHECK] / [RAY_CHECK_OK] aborts the process: every
      operation that can abort returns an [option], [None] being the abort.
    - Hash maps are [gmap]s, hash sets are [gset]s, vectors and deques are
      lists.
    - A [std::shared_ptr<GetRequest>] is an address into a heap of requests
      kept in the store record, so that the store and the blocked reader see
      the same mutable request.
    - Callbacks are opaque tokens; calling one is recorded as an effect. *)

From Stdlib Require Import ZArith Strings.Byte.
From stdpp Require Import base option list gmap sets strings.

(** ** Identifiers, objects, statuses *)

Inductive TaskTransportType := RAYLET | DIRECT.

Global Instance TaskTransportType_eq_dec : EqDecision TaskTransportType.
Proof. solve_decision. Defined.

(** Modelled from the spec: the class [ObjectID] is declared outside the
    sources at hand.  The spec describes it as an opaque binary identifier in
    which one bit selects the direct-call or the raylet-transport subspace,
    [with_transport] rewriting that bit and keeping all the others. *)
Record ObjectID := mkObjectID {
  oid_transport : TaskTransportType;
  oid_bits : N
}.

Global Instance ObjectID_eq_dec : EqDecision ObjectID.
Proof. solve_decision. Defined.

Definition ObjectID_to_pair (o : ObjectID) : bool * N :=
  (bool_decide (oid_transport o = DIRECT), oid_bits o).

Definition ObjectID_of_pair (p : bool * N) : ObjectID :=
  mkObjectID (if p.1 then DIRECT else RAYLET) p.2.

Global Instance ObjectID_countable : Countable ObjectID.
Proof.
  apply (inj_countable' ObjectID_to_pair ObjectID_of_pair).
  by intros [[] b].
Defined.

Definition IsDirectCallType (id : ObjectID) : bool :=
  bool_decide (oid_transport id = DIRECT).

Definition WithTransportType (id : ObjectID) (t : TaskTransportType) : ObjectID :=
  mkObjectID t (oid_bits id).

Global Instance byte_eq_dec : EqDecision byte := Byte.byte_eq_dec.

(** [rpc::ErrorType] of [gcs.proto], with its wire numbers. *)
Inductive ErrorType :=
  | WORKER_DIED
  | ACTOR_DIED
  | OBJECT_UNRECONSTRUCTABLE
  | TASK_EXECUTION_EXCEPTION
  | OBJECT_IN_PLASMA.

Definition ErrorType_number (e : ErrorType) : Z :=
  match e with
  | WORKER_DIED => 0
  | ACTOR_DIED => 1
  | OBJECT_UNRECONSTRUCTABLE => 2
  | TASK_EXECUTION_EXCEPTION => 3
  | OBJECT_IN_PLASMA => 4
  end.

(** Modelled from the spec: the encoding of an error type as the metadata
    tag of a synthetic object ([encode(WORKER_DIED)] in the spec); the helper
    is declared outside the sources at hand.  The tag is the decimal digit of
    the wire number. *)
Definition ErrorType_metadata (e : ErrorType) : list byte :=
  match e with
  | WORKER_DIED => [x30]
  | ACTOR_DIED => [x31]
  | OBJECT_UNRECONSTRUCTABLE => [x32]
  | TASK_EXECUTION_EXCEPTION => [x33]
  | OBJECT_IN_PLASMA => [x34]
  end%byte.

(** A [RayObject] holds two possibly null buffers. *)
Record RayObject := mkRayObject {
  GetData : option (list byte);
  GetMetadata : option (list byte)
}.

Global Instance RayObject_eq_dec : EqDecision RayObject.
Proof. solve_decision. Defined.

(** Modelled from the spec: [RayObject::IsInPlasmaError] is declared outside
    the sources at hand.  The spec's flag [in_plasma_error] says that the
    real copy is in plasma; [Put] rebuilds the stored object from the data
    and the metadata alone, so the flag is the metadata tag
    [OBJECT_IN_PLASMA]. *)
Definition IsInPlasmaError (o : RayObject) : bool :=
  bool_decide (GetMetadata o = Some (ErrorType_metadata OBJECT_IN_PLASMA)).

Inductive Status := OK | ObjectExists | TimedOut | IOError.

Global Instance Status_eq_dec : EqDecision Status.
Proof. solve_decision. Defined.

Definition ok (s : Status) : bool := bool_decide (s = OK).

(** ** GetRequest *)

Record GetRequest := mkGetRequest {
  object_ids_ : gset ObjectID;
  req_objects_ : gmap ObjectID RayObject;
  num_objects_ : Z;
  remove_after_get_ : bool;
  is_ready_ : bool
}.

(** [size_t] arithmetic is modulo [2^64]. *)
Definition size_t_modulus : Z := 2 ^ 64.
Definition to_size_t (z : Z) : Z := z mod size_t_modulus.

Definition GetRequest_new (object_ids : gset ObjectID) (num_objects : Z)
    (remove_after_get : bool) : option GetRequest :=
  if bool_decide (num_objects ≤ Z.of_nat (size object_ids))%Z
  then Some (mkGetRequest object_ids ∅ num_objects remove_after_get false)
  else None.

Definition ShouldRemoveObjects (g : GetRequest) : bool := remove_after_get_ g.

(** [map.emplace(k, v)] leaves an existing entry alone. *)
Definition emplace {V} (k : ObjectID) (v : V) (m : gmap ObjectID V) : gmap ObjectID V :=
  match m !! k with
  | Some _ => m
  | None => <[k := v]> m
  end.

Definition GetRequest_Set (object_id : ObjectID) (object : RayObject)
    (g : GetRequest) : GetRequest :=
  if is_ready_ g then g
  else
    let objects := emplace object_id object (req_objects_ g) in
    mkGetRequest (object_ids_ g) objects (num_objects_ g) (remove_after_get_ g)
      (bool_decide (Z.of_nat (size objects) = num_objects_ g)).

Definition GetRequest_Get (object_id : ObjectID) (g : GetRequest) : option RayObject :=
  req_objects_ g !! object_id.

(** What [GetRequest::Wait(timeout_ms)] can return once the timeout has
    passed its check: [true] needs the request to be ready, [false] is an
    expired timeout and needs a finite one ([-1] waits for ever). *)
Definition Wait_returns (timeout_ms : Z) (g : GetRequest) (done : bool) : Prop :=
  (0 ≤ timeout_ms ∨ timeout_ms = -1)%Z ∧
  if done then is_ready_ g = true else (timeout_ms ≠ -1)%Z.

(** ** CoreWorkerMemoryStore *)

Record CoreWorkerMemoryStore := mkStore {
  store_in_plasma_ : bool;
  objects_ : gmap ObjectID RayObject;
  object_async_get_requests_ : gmap ObjectID (list nat);
  object_get_requests_ : gmap ObjectID (list nat);
  promoted_to_plasma_ : gset ObjectID;
  get_request_heap : gmap nat GetRequest
}.

(** Calls that leave the store: the plasma callback, [GetRequest::Set] on a
    registered request, an asynchronous callback. *)
Inductive Effect :=
  | CallStoreInPlasma (object : RayObject) (promoted_id : ObjectID)
  | CallSet (request : nat) (object_id : ObjectID) (object : RayObject)
  | CallCallback (callback : nat) (object : RayObject).

Global Instance Effect_eq_dec : EqDecision Effect.
Proof. solve_decision. Defined.

(** ** Operations of the store, each one a critical section under [mu_] *)

Definition set_objects (m : gmap ObjectID RayObject) (s : CoreWorkerMemoryStore) :=
  mkStore (store_in_plasma_ s) m (object_async_get_requests_ s)
    (object_get_requests_ s) (promoted_to_plasma_ s) (get_request_heap s).

Definition set_async (m : gmap ObjectID (list nat)) (s : CoreWorkerMemoryStore) :=
  mkStore (store_in_plasma_ s) (objects_ s) m
    (object_get_requests_ s) (promoted_to_plasma_ s) (get_request_heap s).

Definition set_sync (m : gmap ObjectID (list nat)) (s : CoreWorkerMemoryStore) :=
  mkStore (store_in_plasma_ s) (objects_ s) (object_async_get_requests_ s)
    m (promoted_to_plasma_ s) (get_request_heap s).

Definition set_promoted (p : gset ObjectID) (s : CoreWorkerMemoryStore) :=
  mkStore (store_in_plasma_ s) (objects_ s) (object_async_get_requests_ s)
    (object_get_requests_ s) p (get_request_heap s).

Definition set_heap (h : gmap nat GetRequest) (s : CoreWorkerMemoryStore) :=
  mkStore (store_in_plasma_ s) (objects_ s) (object_async_get_requests_ s)
    (object_get_requests_ s) (promoted_to_plasma_ s) h.

(** [GetAsync]: the callback runs at once (outside the lock) when the object
    is there, and is queued otherwise. *)
Definition GetAsync (object_id : ObjectID) (callback : nat)
    (s : CoreWorkerMemoryStore) : CoreWorkerMemoryStore * list Effect :=
  match objects_ s !! object_id with
  | Some ptr => (s, [CallCallback callback ptr])
  | None =>
      (set_async (<[object_id :=
          default [] (object_async_get_requests_ s !! object_id) ++ [callback]]>
          (object_async_get_requests_ s)) s, [])
  end.

Definition GetOrPromoteToPlasma (object_id : ObjectID)
    (s : CoreWorkerMemoryStore) : option (option RayObject * CoreWorkerMemoryStore) :=
  match objects_ s !! object_id with
  | Some obj =>
      if IsInPlasmaError obj then Some (None, s) else Some (Some obj, s)
  | None =>
      if store_in_plasma_ s
      then Some (None, set_promoted ({[object_id]} ∪ promoted_to_plasma_ s) s)
      else None
  end.

(** The loop of [Put] over the requests registered under the id.
    [ShouldRemoveObjects] reads a const field, which [Set] leaves alone. *)
Fixpoint Put_requests (object_id : ObjectID) (object_entry : RayObject)
    (get_requests : list nat) (heap : gmap nat GetRequest) (should_add_entry : bool)
    : gmap nat GetRequest * bool * list Effect :=
  match get_requests with
  | [] => (heap, should_add_entry, [])
  | get_request :: rest =>
      let heap1 := alter (GetRequest_Set object_id object_entry) get_request heap in
      let remove :=
        match heap !! get_request with
        | Some g => ShouldRemoveObjects g
        | None => false
        end in
      let '(heap2, add, effs) :=
        Put_requests object_id object_entry rest heap1
          (if remove then false else should_add_entry) in
      (heap2, add, CallSet get_request object_id object_entry :: effs)
  end.

Definition Put (object_id : ObjectID) (object : RayObject)
    (s : CoreWorkerMemoryStore) : option (Status * CoreWorkerMemoryStore * list Effect) :=
  if negb (IsDirectCallType object_id) then None
  else
    let object_entry := mkRayObject (GetData object) (GetMetadata object) in
    match objects_ s !! object_id with
    | Some _ => Some (ObjectExists, s, [])
    | None =>
        let async_callbacks := default [] (object_async_get_requests_ s !! object_id) in
        let s1 := set_async (delete object_id (object_async_get_requests_ s)) s in
        s2 ← (if bool_decide (object_id ∈ promoted_to_plasma_ s1)
              then if store_in_plasma_ s1
                   then Some (set_promoted (promoted_to_plasma_ s1 ∖ {[object_id]}) s1,
                              [CallStoreInPlasma object (WithTransportType object_id RAYLET)])
                   else None
              else Some (s1, []));
        let '(s2, plasma_effects) := s2 in
        let '(heap, should_add_entry, set_effects) :=
          Put_requests object_id object_entry
            (default [] (object_get_requests_ s2 !! object_id))
            (get_request_heap s2) true in
        let s3 := set_heap heap s2 in
        let s4 := if should_add_entry
                  then set_objects (emplace object_id object_entry (objects_ s3)) s3
                  else s3 in
        Some (OK, s4,
              plasma_effects ++ set_effects
              ++ map (λ cb, CallCallback cb object_entry) async_callbacks)
    end.

Definition Delete (object_ids : list ObjectID) (s : CoreWorkerMemoryStore)
    : CoreWorkerMemoryStore :=
  set_objects (foldl (λ m id, delete id m) (objects_ s) object_ids) s.

Definition Contains (object_id : ObjectID) (s : CoreWorkerMemoryStore) : bool :=
  match objects_ s !! object_id with
  | Some obj => negb (IsInPlasmaError obj)
  | None => false
  end.

(** ** [Get]: the scan under the lock, the wait, the wake-up under the lock *)

Record ScanState := mkScan {
  results : list (option RayObject);
  count : Z;
  ids_to_remove : gset ObjectID;
  remaining_ids : gset ObjectID
}.

(** The first loop of [Get], from position [i] on: it runs while
    [i < object_ids.size() && count < num_objects]. *)
Fixpoint Get_scan (objects : gmap ObjectID RayObject) (num_objects : Z)
    (remove_after_get : bool) (object_ids : list ObjectID) (i : nat)
    (st : ScanState) : ScanState :=
  match object_ids with
  | [] => st
  | object_id :: rest =>
      if bool_decide (count st < num_objects)%Z then
        Get_scan objects num_objects remove_after_get rest (S i)
          match objects !! object_id with
          | Some ptr =>
              mkScan (<[i := Some ptr]> (results st)) (count st + 1)
                (if remove_after_get then {[object_id]} ∪ ids_to_remove st
                 else ids_to_remove st)
                (remaining_ids st)
          | None =>
              mkScan (results st) (count st) (ids_to_remove st)
                ({[object_id]} ∪ remaining_ids st)
          end
      else st
  end.

Definition scan_init (object_ids : list ObjectID) : ScanState :=
  mkScan (replicate (length object_ids) None) 0 ∅ ∅.

(** [object_get_requests_[object_id].push_back(get_request)] *)
Definition register (get_request : nat) (object_id : ObjectID)
    (m : gmap ObjectID (list nat)) : gmap ObjectID (list nat) :=
  <[object_id := default [] (m !! object_id) ++ [get_request]]> m.

(** How the critical section of [Get] ends: the call returns, or it has
    registered a request and goes on to wait on it. *)
Inductive GetPhase :=
  | GetReturned (status : Status) (results : list (option RayObject))
  | GetBlocked (get_request : nat) (results : list (option RayObject)).

Definition Get_begin (object_ids : list ObjectID) (num_objects : Z)
    (timeout_ms : Z) (remove_after_get : bool) (s : CoreWorkerMemoryStore)
    : option (GetPhase * CoreWorkerMemoryStore) :=
  let st := Get_scan (objects_ s) num_objects remove_after_get object_ids 0
              (scan_init object_ids) in
  if bool_decide (count st ≤ num_objects)%Z then
    let s1 := set_objects
                (foldr delete (objects_ s) (elements (ids_to_remove st))) s in
    if bool_decide (remaining_ids st = ∅) || bool_decide (num_objects ≤ count st)%Z
    then Some (GetReturned OK (results st), s1)
    else
      let required_objects :=
        to_size_t (num_objects
                   - (Z.of_nat (length object_ids)
                      - Z.of_nat (size (remaining_ids st)))) in
      g ← GetRequest_new (remaining_ids st) required_objects remove_after_get;
      let get_request := fresh (dom (get_request_heap s1)) in
      let s2 :=
        set_heap (<[get_request := g]> (get_request_heap s1))
          (set_sync (foldr (register get_request) (object_get_requests_ s1)
                       (elements (remaining_ids st))) s1) in
      if bool_decide (0 ≤ timeout_ms ∨ timeout_ms = -1)%Z
      then Some (GetBlocked get_request (results st), s2)
      else None
  else None.

(** [std::find] followed by [erase]: the first occurrence goes. *)
Fixpoint erase_first (x : nat) (l : list nat) : list nat :=
  match l with
  | [] => []
  | y :: l' => if decide (y = x) then l' else y :: erase_first x l'
  end.

Definition deregister (get_request : nat) (object_id : ObjectID)
    (m : gmap ObjectID (list nat)) : gmap ObjectID (list nat) :=
  match m !! object_id with
  | Some get_requests =>
      if bool_decide (get_request ∈ get_requests) then
        match erase_first get_request get_requests with
        | [] => delete object_id m
        | l => <[object_id := l]> m
        end
      else m
  | None => m
  end.

Definition Get_populate (object_ids : list ObjectID)
    (results : list (option RayObject)) (g : GetRequest) : list (option RayObject) :=
  zip_with (λ object_id r,
              match r with
              | None => GetRequest_Get object_id g
              | Some _ => r
              end) object_ids results.

(** The part of [Get] after [Wait] has returned [done]; [get_request] is the
    address the caller holds, which is in the heap. *)
Definition Get_end (object_ids : list ObjectID) (results : list (option RayObject))
    (get_request : nat) (done : bool) (s : CoreWorkerMemoryStore)
    : option (Status * list (option RayObject) * CoreWorkerMemoryStore) :=
  g ← get_request_heap s !! get_request;
  Some (if done then OK else TimedOut,
        Get_populate object_ids results g,
        set_sync (foldr (deregister get_request) (object_get_requests_ s)
                    (elements (object_ids_ g))) s).

(** ** The store as a transition system

    A blocked reader keeps the arguments and the partial results of its
    [Get] call; it is indexed by the address of its request. *)

Record Reader := mkReader {
  reader_ids : list ObjectID;
  reader_results : list (option RayObject);
  reader_timeout : Z
}.

Record IMS := mkIMS {
  store : CoreWorkerMemoryStore;
  readers : gmap nat Reader
}.

Definition store_init (store_in_plasma : bool) : CoreWorkerMemoryStore :=
  mkStore store_in_plasma ∅ ∅ ∅ ∅ ∅.

Definition IMS_init (store_in_plasma : bool) : IMS :=
  mkIMS (store_init store_in_plasma) ∅.

Inductive IMS_step : IMS → IMS → Prop :=
  | step_Put object_id object σ status s' effs :
      Put object_id object (store σ) = Some (status, s', effs) →
      IMS_step σ (mkIMS s' (readers σ))
  | step_GetAsync object_id callback σ :
      IMS_step σ (mkIMS (GetAsync object_id callback (store σ)).1 (readers σ))
  | step_GetOrPromoteToPlasma object_id σ r s' :
      GetOrPromoteToPlasma object_id (store σ) = Some (r, s') →
      IMS_step σ (mkIMS s' (readers σ))
  | step_Delete object_ids σ :
      IMS_step σ (mkIMS (Delete object_ids (store σ)) (readers σ))
  | step_Get_returns object_ids num_objects timeout_ms remove_after_get σ status res s' :
      Get_begin object_ids num_objects timeout_ms remove_after_get (store σ)
        = Some (GetReturned status res, s') →
      IMS_step σ (mkIMS s' (readers σ))
  | step_Get_blocks object_ids num_objects timeout_ms remove_after_get σ h res s' :
      Get_begin object_ids num_objects timeout_ms remove_after_get (store σ)
        = Some (GetBlocked h res, s') →
      IMS_step σ (mkIMS s' (<[h := mkReader object_ids res timeout_ms]> (readers σ)))
  | step_Get_wakes h done σ r g status res s' :
      readers σ !! h = Some r →
      get_request_heap (store σ) !! h = Some g →
      Wait_returns (reader_timeout r) g done →
      Get_end (reader_ids r) (reader_results r) h done (store σ)
        = Some (status, res, s') →
      IMS_step σ (mkIMS s' (delete h (readers σ))).

Definition IMS_reachable (σ : IMS) : Prop :=
  ∃ store_in_plasma, rtc IMS_step (IMS_init store_in_plasma) σ.

(** ** Dependency resolver *)

(** An argument of a task message: the ids it references, and its inline
    bytes. *)
Record TaskArg := mkTaskArg {
  arg_object_ids : list ObjectID;
  arg_data : list byte;
  arg_metadata : list byte
}.

Record TaskSpecification := mkTask {
  TaskId : N;
  NumReturns : nat;
  task_args : list TaskArg
}.

Global Instance TaskArg_eq_dec : EqDecision TaskArg.
Proof. solve_decision. Defined.

Global Instance TaskSpecification_eq_dec : EqDecision TaskSpecification.
Proof. solve_decision. Defined.

(** What the body of [if (id == obj_id)] does to the slot: [HasData] and
    [HasMetadata] are the tests that the buffer is not null. *)
Definition inline_into (obj_id : ObjectID) (value : RayObject) (arg : TaskArg) : TaskArg :=
  if IsInPlasmaError value then
    mkTaskArg [WithTransportType obj_id RAYLET] (arg_data arg) (arg_metadata arg)
  else
    mkTaskArg []
      (match GetData value with Some data => data | None => arg_data arg end)
      (match GetMetadata value with Some metadata => metadata | None => arg_metadata arg end).

(** The loop of [DoInlineObjectValue] over the argument slots. *)
Fixpoint inline_loop (obj_id : ObjectID) (value : RayObject) (args : list TaskArg)
    (found : bool) : list TaskArg * bool :=
  match args with
  | [] => ([], found)
  | arg :: rest =>
      match arg_object_ids arg with
      | id :: _ =>
          if decide (id = obj_id) then
            let '(rest', found') := inline_loop obj_id value rest true in
            (inline_into obj_id value arg :: rest', found')
          else
            let '(rest', found') := inline_loop obj_id value rest found in
            (arg :: rest', found')
      | [] =>
          let '(rest', found') := inline_loop obj_id value rest found in
          (arg :: rest', found')
      end
  end.

Definition DoInlineObjectValue (obj_id : ObjectID) (value : RayObject)
    (task : TaskSpecification) : option TaskSpecification :=
  let '(args, found) := inline_loop obj_id value (task_args task) false in
  if found then Some (mkTask (TaskId task) (NumReturns task) args) else None.

(** The first loop of [ResolveDependencies]. *)
Fixpoint collect_dependencies (args : list TaskArg) (local_dependencies : gset ObjectID)
    : option (gset ObjectID) :=
  match args with
  | [] => Some local_dependencies
  | arg :: rest =>
      match arg_object_ids arg with
      | id :: more =>
          if bool_decide (length (id :: more) ≤ 1) then
            collect_dependencies rest
              (if IsDirectCallType id then {[id]} ∪ local_dependencies
               else local_dependencies)
          else None
      | [] => collect_dependencies rest local_dependencies
      end
  end.

Record TaskState := mkTaskState {
  state_task : TaskSpecification;
  local_dependencies : gset ObjectID
}.

(** The callback that [ResolveDependencies] hands to [GetAsync] for
    [obj_id], under the resolver's lock: the new state, the new
    [num_pending_], and whether [on_complete] is to be called. *)
Definition ResolveDependencies_callback (obj_id : ObjectID) (obj : RayObject)
    (state : TaskState) (num_pending : Z) : option (TaskState * Z * bool) :=
  let deps := local_dependencies state ∖ {[obj_id]} in
  task ← DoInlineObjectValue obj_id obj (state_task state);
  if bool_decide (deps = ∅)
  then Some (mkTaskState task deps, (num_pending - 1)%Z, true)
  else Some (mkTaskState task deps, num_pending, false).

(** ** Direct task submitter *)

Abbreviation WorkerAddress := (string * Z)%type.

(** The stub that [client_factory_] builds for an address. *)
Record CoreWorkerClient := mkClient { client_addr : WorkerAddress }.

(** What the completion closure of [PushNormalTask] captures. *)
Record Completion := mkCompletion {
  completion_task_id : N;
  completion_num_returns : nat;
  completion_addr : WorkerAddress
}.

(** Calls that leave the submitter, in the order they are made. *)
Inductive Call :=
  | RequestWorkerLease (resource_spec : TaskSpecification)
  | ReturnWorker (worker_port : Z)
  | ClientFactory (addr : WorkerAddress)
  | ClientPushNormalTask (client : CoreWorkerClient) (request : TaskSpecification)
      (completion : Completion)
  | StorePut (object_id : ObjectID) (object : RayObject) (status : Status)
  | StoreEffect (e : Effect).

Record Submitter := mkSubmitter {
  queued_tasks_ : list TaskSpecification;
  client_cache_ : gmap WorkerAddress CoreWorkerClient;
  worker_request_pending_ : bool
}.

Record World := mkWorld {
  submitter : Submitter;
  in_memory_store_ : CoreWorkerMemoryStore;
  calls : list Call
}.

(** The statuses that the collaborators return to the calls of one critical
    section: the lease client to [RequestWorkerLease] and to [ReturnWorker],
    the stub to [PushNormalTask]. *)
Record Env := mkEnv {
  lease_status : Status;
  return_status : Status;
  push_status : Status
}.

Definition log (c : Call) (w : World) : World :=
  mkWorld (submitter w) (in_memory_store_ w) (calls w ++ [c]).

Definition set_submitter (d : Submitter) (w : World) : World :=
  mkWorld d (in_memory_store_ w) (calls w).

(** [in_memory_store_->Put(...)], with its status and the calls that the
    store makes, recorded in the order in which it makes them.  A callback of
    [GetAsync] that [Put] runs is recorded by its token; what the callback
    goes on to do belongs to whoever queued it and is not part of this
    function.  The callback of the resolver, when it completes a task, ends
    in the critical section of [SubmitTask_on_complete], which the
    transition system below has as a step of its own.  The two statements
    on what a failed push writes are made for a store in which no callback
    is queued on the return ids of the task, where [Put] runs none. *)
Definition World_Put (object_id : ObjectID) (object : RayObject) (w : World)
    : option World :=
  '(status, s', effs) ← Put object_id object (in_memory_store_ w);
  Some (mkWorld (submitter w) s'
          (calls w ++ StorePut object_id object status :: map StoreEffect effs)).

Fixpoint put_each (puts : list (ObjectID * RayObject)) (w : World) : option World :=
  match puts with
  | [] => Some w
  | (object_id, object) :: rest => w' ← World_Put object_id object w; put_each rest w'
  end.

Definition failure_object (error_type : ErrorType) : RayObject :=
  mkRayObject None (Some (ErrorType_metadata error_type)).

Section Submitter.

(** [ObjectID::ForTaskReturn(task_id, index, DIRECT)], declared outside the
    sources at hand: the id of the [index]-th return value of a task. *)
Variable ForTaskReturn : N → nat → ObjectID.

(** Modelled from the spec: [TreatTaskAsFailed] is defined outside the sources
    at hand.  The spec: for each of the [num_returns] result ids,
    [Put(id, RayObject(error_metadata = error_type))]. *)
Definition TreatTaskAsFailed (task_id : N) (num_returns : nat)
    (error_type : ErrorType) (w : World) : option World :=
  put_each (map (λ i, (ForTaskReturn task_id (S i), failure_object error_type))
              (seq 0 num_returns)) w.

(** Modelled from the spec: [WriteObjectsToMemoryStore] is defined outside the
    sources at hand.  The spec: write each returned object from the reply
    into the store. *)
Definition WriteObjectsToMemoryStore (reply : list (ObjectID * RayObject))
    (w : World) : option World :=
  put_each reply w.

Definition RequestNewWorkerIfNeeded (resource_spec : TaskSpecification)
    (env : Env) (w : World) : option World :=
  if worker_request_pending_ (submitter w) then Some w
  else
    let w1 := log (RequestWorkerLease resource_spec) w in
    if ok (lease_status env) then
      Some (set_submitter
              (mkSubmitter (queued_tasks_ (submitter w1))
                 (client_cache_ (submitter w1)) true) w1)
    else None.

Definition PushNormalTask (addr : WorkerAddress) (client : CoreWorkerClient)
    (task_spec : TaskSpecification) (env : Env) (w : World) : option World :=
  let task_id := TaskId task_spec in
  let num_returns := NumReturns task_spec in
  let w1 := log (ClientPushNormalTask client task_spec
                   (mkCompletion task_id num_returns addr)) w in
  if negb (ok (push_status env))
  then TreatTaskAsFailed task_id num_returns WORKER_DIED w1
  else Some w1.

Definition pop_front (w : World) : World :=
  set_submitter
    (mkSubmitter (tail (queued_tasks_ (submitter w)))
       (client_cache_ (submitter w)) (worker_request_pending_ (submitter w))) w.

(** [*client_cache_[addr]] on an address that was never cached dereferences a
    null pointer; the model aborts there. *)
Definition OnWorkerIdle (addr : WorkerAddress) (was_error : bool)
    (env : Env) (w : World) : option World :=
  w1 ← (if bool_decide (queued_tasks_ (submitter w) = []) || was_error then
          if ok (return_status env) then Some (log (ReturnWorker addr.2) w) else None
        else
          client ← client_cache_ (submitter w) !! addr;
          front ← head (queued_tasks_ (submitter w));
          w' ← PushNormalTask addr client front env w;
          Some (pop_front w'));
  match queued_tasks_ (submitter w1) with
  | front :: _ => RequestNewWorkerIfNeeded front env w1
  | [] => Some w1
  end.

(** The critical section of [HandleWorkerLeaseGranted]. *)
Definition HandleWorkerLeaseGranted_setup (addr : WorkerAddress) (w : World) : World :=
  let d := submitter w in
  match client_cache_ d !! addr with
  | Some _ => set_submitter (mkSubmitter (queued_tasks_ d) (client_cache_ d) false) w
  | None =>
      log (ClientFactory addr)
        (set_submitter
           (mkSubmitter (queued_tasks_ d) (<[addr := mkClient addr]> (client_cache_ d))
              false) w)
  end.

Definition HandleWorkerLeaseGranted (addr : WorkerAddress) (env : Env) (w : World)
    : option World :=
  OnWorkerIdle addr false env (HandleWorkerLeaseGranted_setup addr w).

(** The callback that [SubmitTask] hands to the resolver. *)
Definition SubmitTask_on_complete (task_spec : TaskSpecification) (env : Env)
    (w : World) : option World :=
  w1 ← RequestNewWorkerIfNeeded task_spec env w;
  Some (set_submitter
          (mkSubmitter (queued_tasks_ (submitter w1) ++ [task_spec])
             (client_cache_ (submitter w1)) (worker_request_pending_ (submitter w1)))
          w1).

(** The completion closure that [PushNormalTask] hands to the stub. *)
Definition PushNormalTask_completion (c : Completion) (status : Status)
    (reply : list (ObjectID * RayObject)) (env : Env) (w : World) : option World :=
  w1 ← OnWorkerIdle (completion_addr c) (negb (ok status)) env w;
  if negb (ok status) then
    TreatTaskAsFailed (completion_task_id c) (completion_num_returns c) WORKER_DIED w1
  else WriteObjectsToMemoryStore reply w1.

(** *** The submitter as a transition system

    One step is one critical section under [mu_] (or one of the store writes
    that a completion makes after it).  The lease service answers a request
    with one grant: [leases_granted] counts the grants delivered so far, and
    a grant needs a request that is still unanswered.  The store is shared
    with other threads, which may change it at any time. *)

Definition is_lease_request (c : Call) : bool :=
  match c with
  | RequestWorkerLease _ => true
  | _ => false
  end.

Definition lease_requests (w : World) : nat :=
  length (List.filter is_lease_request (calls w)).

Record DTS := mkDTS {
  world : World;
  leases_granted : nat
}.

Definition outstanding_lease_requests (σ : DTS) : Z :=
  (Z.of_nat (lease_requests (world σ)) - Z.of_nat (leases_granted σ))%Z.

Definition DTS_init (s : CoreWorkerMemoryStore) : DTS :=
  mkDTS (mkWorld (mkSubmitter [] ∅ false) s []) 0.

Inductive DTS_step : DTS → DTS → Prop :=
  | step_task_resolved task_spec env σ w' :
      SubmitTask_on_complete task_spec env (world σ) = Some w' →
      DTS_step σ (mkDTS w' (leases_granted σ))
  | step_lease_granted addr σ :
      leases_granted σ < lease_requests (world σ) →
      DTS_step σ (mkDTS (HandleWorkerLeaseGranted_setup addr (world σ))
                    (S (leases_granted σ)))
  | step_worker_idle addr was_error env σ w' :
      OnWorkerIdle addr was_error env (world σ) = Some w' →
      DTS_step σ (mkDTS w' (leases_granted σ))
  | step_task_failed task_id num_returns σ w' :
      TreatTaskAsFailed task_id num_returns WORKER_DIED (world σ) = Some w' →
      DTS_step σ (mkDTS w' (leases_granted σ))
  | step_objects_written reply σ w' :
      WriteObjectsToMemoryStore reply (world σ) = Some w' →
      DTS_step σ (mkDTS w' (leases_granted σ))
  | step_store_changed s' σ :
      DTS_step σ (mkDTS (mkWorld (submitter (world σ)) s' (calls (world σ)))
                    (leases_granted σ)).

Definition DTS_reachable (σ : DTS) : Prop :=
  ∃ s, rtc DTS_step (DTS_init s) σ.

End Submitter.

(** ** Specification-side definitions used by the statements below *)

(** The number of positions of [object_ids] whose id is in [objects]. *)
Fixpoint found_in (objects : gmap ObjectID RayObject) (object_ids : list ObjectID) : Z :=
  match object_ids with
  | [] => 0
  | object_id :: rest =>
      ((if bool_decide (is_Some (objects !! object_id)) then 1 else 0)
       + found_in objects rest)%Z
  end.

(** The scan of [Get] as a function of the list of ids alone: what it leaves
    at each position, and the count and the two sets it ends with. *)
Fixpoint scan_spec (objects : gmap ObjectID RayObject) (num_objects : Z)
    (remove_after_get : bool) (object_ids : list ObjectID)
    (found : Z) (to_remove remaining : gset ObjectID) : ScanState :=
  match object_ids with
  | [] => mkScan [] found to_remove remaining
  | object_id :: rest =>
      if bool_decide (found < num_objects)%Z then
        match objects !! object_id with
        | Some ptr =>
            let st := scan_spec objects num_objects remove_after_get rest (found + 1)
                        (if remove_after_get then {[object_id]} ∪ to_remove else to_remove)
                        remaining in
            mkScan (Some ptr :: results st) (count st)
              (ids_to_remove st) (remaining_ids st)
        | None =>
            let st := scan_spec objects num_objects remove_after_get rest found
                        to_remove ({[object_id]} ∪ remaining) in
            mkScan (None :: results st) (count st)
              (ids_to_remove st) (remaining_ids st)
        end
      else mkScan (replicate (length object_ids) None) found to_remove remaining
  end.

Definition phase_results (p : GetPhase) : list (option RayObject) :=
  match p with
  | GetReturned _ res => res
  | GetBlocked _ res => res
  end.

(** What holds of a request for as long as it lives: a ready request holds
    exactly the number of objects it needs; one that is not ready holds fewer
    (or was built needing none, and can never become ready). *)
Definition request_inv (g : GetRequest) : Prop :=
  if is_ready_ g then Z.of_nat (size (req_objects_ g)) = num_objects_ g
  else (num_objects_ g = 0 ∨ Z.of_nat (size (req_objects_ g)) < num_objects_ g)%Z.

Record store_inv (s : CoreWorkerMemoryStore) : Prop := mkStoreInv {
  inv_direct : ∀ id, is_Some (objects_ s !! id) → IsDirectCallType id = true;
  inv_requests : ∀ h g, get_request_heap s !! h = Some g → request_inv g;
  inv_registered : ∀ id l h,
    object_get_requests_ s !! id = Some l → h ∈ l → is_Some (get_request_heap s !! h)
}.

(** ** Concrete inputs used by the examples below *)

Definition ex_A : ObjectID := mkObjectID DIRECT 1.
Definition ex_B : ObjectID := mkObjectID DIRECT 2.
Definition ex_v : RayObject := mkRayObject (Some [x01; x02]%byte) None.
Definition ex_w : RayObject := mkRayObject (Some [xff]%byte) None.

(** The store after [Put(A, v)] on the empty store. *)
Definition ex_store_A : CoreWorkerMemoryStore :=
  mkStore false {[ex_A := ex_v]} ∅ ∅ ∅ ∅.

(** The store after [Put(A, v)] and [Put(B, w)] on the empty store. *)
Definition ex_store_AB : CoreWorkerMemoryStore :=
  mkStore false (<[ex_B := ex_w]> {[ex_A := ex_v]}) ∅ ∅ ∅ ∅.

(** The store once a reader has called [Get([A], 1, -1, remove_after_get)]
    on the empty store and is blocked on its request, at address [0]. *)
Definition ex_store_blocked (remove_after_get : bool) : CoreWorkerMemoryStore :=
  mkStore false ∅ ∅ {[ex_A := [0]]} ∅
    {[0 := mkGetRequest {[ex_A]} ∅ 1 remove_after_get false]}.

Definition ex_readers : gmap nat Reader := {[0 := mkReader [ex_A] [None] (-1)%Z]}.

(** The store after [Put(A, v)] on [ex_store_blocked false]: the request has
    its object and is ready, and is still registered under [A]. *)
Definition ex_store_delivered : CoreWorkerMemoryStore :=
  mkStore false {[ex_A := ex_v]} ∅ {[ex_A := [0]]} ∅
    {[0 := mkGetRequest {[ex_A]} {[ex_A := ex_v]} 1 false true]}.

(** The store after [Put(A, v)] on [ex_store_blocked true]: the object went
    to the request only. *)
Definition ex_store_consumed : CoreWorkerMemoryStore :=
  mkStore false ∅ ∅ {[ex_A := [0]]} ∅
    {[0 := mkGetRequest {[ex_A]} {[ex_A := ex_v]} 1 true true]}.

(** A store with the plasma callback configured. *)
Definition ex_store_plasma : CoreWorkerMemoryStore := store_init true.

Definition ex_in_plasma : RayObject :=
  mkRayObject None (Some (ErrorType_metadata OBJECT_IN_PLASMA)).

(** The argument slots of a task whose first referenced id is [obj_id]. *)
Definition refers_to (obj_id : ObjectID) (arg : TaskArg) : bool :=
  match arg_object_ids arg with
  | id :: _ => bool_decide (id = obj_id)
  | [] => false
  end.

Definition matching_slots (obj_id : ObjectID) (task : TaskSpecification) : nat :=
  length (List.filter (refers_to obj_id) (task_args task)).

(** The calls that go to the in-memory store, and the [Put]s among them. *)
Definition is_store_call (c : Call) : bool :=
  match c with
  | StorePut _ _ _ | StoreEffect _ => true
  | _ => false
  end.

Fixpoint store_puts (cs : list Call) : list (ObjectID * RayObject) :=
  match cs with
  | [] => []
  | StorePut object_id object _ :: cs' => (object_id, object) :: store_puts cs'
  | _ :: cs' => store_puts cs'
  end.

(** An id is promoted only in a store that has its plasma callback
    ([GetOrPromoteToPlasma] checks it), so that [Put] passes its check. *)
Definition promoted_ok (s : CoreWorkerMemoryStore) : Prop :=
  promoted_to_plasma_ s ≠ ∅ → store_in_plasma_ s = true.

(** The return ids of the failed task, in the order they are written. *)
Definition return_ids (ForTaskReturn : N → nat → ObjectID) (task_id : N)
    (num_returns : nat) : list ObjectID :=
  map (λ i, ForTaskReturn task_id (S i)) (seq 0 num_returns).

(** Further concrete inputs. *)
Definition ex_ForTaskReturn (task_id : N) (index : nat) : ObjectID :=
  mkObjectID DIRECT (task_id * 2 ^ 32 + N.of_nat index).

Definition ex_arg_A : TaskArg := mkTaskArg [ex_A] [] [].

(** A task with one return value and two arguments that refer to [A]. *)
Definition ex_task : TaskSpecification := mkTask 7 1 [ex_arg_A; ex_arg_A].

Definition ex_addr : WorkerAddress := ("h"%string, 1%Z).

Definition ex_env_ok : Env := mkEnv OK OK OK.
Definition ex_env_push_fails : Env := mkEnv OK OK IOError.

Definition ex_world_init : World := mkWorld (mkSubmitter [] ∅ false) (store_init false) [].

(** The world after [ex_task] was resolved and queued. *)
Definition ex_world_queued : World :=
  mkWorld (mkSubmitter [ex_task] ∅ true) (store_init false) [RequestWorkerLease ex_task].

(** The world once the lease for [ex_addr] has been set up. *)
Definition ex_world_granted : World :=
  mkWorld (mkSubmitter [ex_task] {[ex_addr := mkClient ex_addr]} false)
    (store_init false) [RequestWorkerLease ex_task; ClientFactory ex_addr].

(** A world with an empty queue and a push of task [7] in flight on
    [ex_addr]. *)
Definition ex_world_busy : World :=
  mkWorld (mkSubmitter [] {[ex_addr := mkClient ex_addr]} false) (store_init false) [].

Definition ex_completion : Completion := mkCompletion 7 1 ex_addr.

(** Lease requests made, less the one that the pending flag accounts for. *)
Definition lease_balance (w : World) : Z :=
  (Z.of_nat (lease_requests w)
   - (if worker_request_pending_ (submitter w) then 1 else 0))%Z.

(** ** Further invariants of the store *)

(** What the waiter tables and the promotion set keep: no asynchronous
    waiter on an id that is in the store; a promoted id is not in the store
    and was promoted with the plasma callback present; a vector of
    [object_get_requests_] is never empty and holds a request at most once;
    a request registered under an id is live and awaits that id. *)
Record waiters_inv (s : CoreWorkerMemoryStore) : Prop := mkWaitersInv {
  winv_async : ∀ id,
    is_Some (objects_ s !! id) → object_async_get_requests_ s !! id = None;
  winv_promoted : ∀ id,
    id ∈ promoted_to_plasma_ s → store_in_plasma_ s = true ∧ objects_ s !! id = None;
  winv_lists : ∀ id l,
    object_get_requests_ s !! id = Some l → l ≠ [] ∧ NoDup l;
  winv_owner : ∀ id l h,
    object_get_requests_ s !! id = Some l → h ∈ l →
    ∃ g, get_request_heap s !! h = Some g ∧ id ∈ object_ids_ g
}.

(** What one key of [object_get_requests_] becomes when the request [h] is
    taken out of it. *)
Definition deregistered (h : nat) (o : option (list nat)) : option (list nat) :=
  match o with
  | Some l =>
      if bool_decide (h ∈ l) then
        match erase_first h l with
        | [] => None
        | l' => Some l'
        end
      else Some l
  | None => None
  end.

(** The asynchronous callbacks among the calls of an operation, in order. *)
Fixpoint callbacks_of (effs : list Effect) : list (nat * RayObject) :=
  match effs with
  | [] => []
  | CallCallback callback object :: effs' => (callback, object) :: callbacks_of effs'
  | _ :: effs' => callbacks_of effs'
  end.

(** The calls to the plasma callback among the calls of an operation. *)
Fixpoint plasma_calls_of (effs : list Effect) : list (RayObject * ObjectID) :=
  match effs with
  | [] => []
  | CallStoreInPlasma object promoted_id :: effs' =>
      (object, promoted_id) :: plasma_calls_of effs'
  | _ :: effs' => plasma_calls_of effs'
  end.

(** A run of [GetAsync] calls for one id, with the callbacks of the list. *)
Definition GetAsync_all (object_id : ObjectID) (callbacks : list nat)
    (s : CoreWorkerMemoryStore) : CoreWorkerMemoryStore :=
  foldl (λ s callback, (GetAsync object_id callback s).1) s callbacks.

(** The ids of the vector that have no object in the store. *)
Definition missing_ids (objects : gmap ObjectID RayObject) (object_ids : list ObjectID)
    : list ObjectID :=
  filter (λ id, objects !! id = None) object_ids.

(** ** The resolver as a whole *)

(** What [ResolveDependencies] does before any callback runs: with no
    direct-call dependency [on_complete] is called at once; otherwise a
    [TaskState] is built, [num_pending_] goes up by one and a callback is
    handed to [GetAsync] for each dependency. *)
Inductive Resolution :=
  | ResolvedNow
  | Resolving (state : TaskState) (num_pending : Z).

Definition ResolveDependencies_begin (task : TaskSpecification) (num_pending : Z)
    : option Resolution :=
  deps ← collect_dependencies (task_args task) ∅;
  if bool_decide (deps = ∅) then Some ResolvedNow
  else Some (Resolving (mkTaskState task deps) (num_pending + 1)%Z).

(** The callbacks of one resolution, run in the order in which the store
    delivers the objects; the last component counts the calls of
    [on_complete]. *)
Fixpoint run_callbacks (deliveries : list (ObjectID * RayObject)) (state : TaskState)
    (num_pending : Z) (completions : nat) : option (TaskState * Z * nat) :=
  match deliveries with
  | [] => Some (state, num_pending, completions)
  | (obj_id, obj) :: rest =>
      '(state', num_pending', complete) ←
        ResolveDependencies_callback obj_id obj state num_pending;
      run_callbacks rest state' num_pending'
        (if complete : bool then S completions else completions)
  end.

(** What [DoInlineObjectValue] does to one slot. *)
Definition inline_slot (obj_id : ObjectID) (value : RayObject) (arg : TaskArg) : TaskArg :=
  if refers_to obj_id arg then inline_into obj_id value arg else arg.

(** A task with the two arguments [A] and [B]. *)
Definition ex_arg_B : TaskArg := mkTaskArg [ex_B] [] [].
Definition ex_task_AB : TaskSpecification := mkTask 8 1 [ex_arg_A; ex_arg_B; ex_arg_A].

(** ** Definitions for the further properties of the submitter *)

(** The task messages handed to the stubs, in the order of the calls. *)
Fixpoint pushed_tasks (cs : list Call) : list TaskSpecification :=
  match cs with
  | [] => []
  | ClientPushNormalTask _ request _ :: cs' => request :: pushed_tasks cs'
  | _ :: cs' => pushed_tasks cs'
  end.

(** The number of calls of [client_factory_] for an address. *)
Fixpoint factory_calls (addr : WorkerAddress) (cs : list Call) : nat :=
  match cs with
  | [] => 0
  | ClientFactory addr' :: cs' =>
      (if bool_decide (addr' = addr) then 1 else 0) + factory_calls addr cs'
  | _ :: cs' => factory_calls addr cs'
  end.

(** The callbacks of [SubmitTask] for a run of tasks, in the order in which
    their resolutions complete. *)
Fixpoint SubmitTask_all (tasks : list TaskSpecification) (env : Env) (w : World)
    : option World :=
  match tasks with
  | [] => Some w
  | task_spec :: rest =>
      w' ← SubmitTask_on_complete task_spec env w; SubmitTask_all rest env w'
  end.

(** A task without arguments, and the world with [ex_task] and it queued and
    a request pending. *)
Definition ex_task2 : TaskSpecification := mkTask 9 2 [].

Definition ex_world_queued2 : World :=
  mkWorld (mkSubmitter [ex_task; ex_task2] ∅ true) (store_init false)
    [RequestWorkerLease ex_task].

(** The store once a reader blocked in [Get([A, B], 1, -1, true)] has been
    handed [A] by [Put(A, v)] and has not yet woken up. *)
Definition ex_store_ready_remover : CoreWorkerMemoryStore :=
  mkStore false ∅ ∅ (<[ex_B := [0]]> {[ex_A := [0]]}) ∅
    {[0 := mkGetRequest {[ex_A; ex_B]} {[ex_A := ex_v]} 1 true true]}.

(** ** Definitions for the statements about a failed push *)







(* ================================================================== *)
(** * Properties *)

(** ** Auxiliary facts about the store operations *)

Lemma foldr_delete_lookup {V} (m : gmap ObjectID V) (l : list ObjectID) k :
  foldr delete m l !! k = if bool_decide (k ∈ l) then None else m !! k.
Proof.
  induction l as [|x l IH]; cbn [foldr].
  - rewrite bool_decide_eq_false_2; [done|]. by intros ?%elem_of_nil.
  - destruct (decide (x = k)) as [->|Hne].
    + rewrite lookup_delete_eq, bool_decide_eq_true_2; [done|]. left.
    + rewrite lookup_delete_ne, IH by done.
      destruct (decide (k ∈ l)) as [Hin|Hin].
      * rewrite !bool_decide_eq_true_2; [done| |done]. by right.
      * rewrite !bool_decide_eq_false_2; [done| |done].
        intros [?|?]%elem_of_cons; congruence.
Qed.

Lemma Put_requests_effects id e l heap add :
  (Put_requests id e l heap add).2 = map (λ h, CallSet h id e) l.
Proof.
  revert heap add. induction l as [|h l IH]; intros heap add; simpl; [done|].
  specialize (IH (alter (GetRequest_Set id e) h heap)
     (if match heap !! h with Some g => ShouldRemoveObjects g | None => false end then false else add)).
  destruct (Put_requests _ _ l _ _) as [[heap2 add2] effs]. simpl in *. by rewrite IH.
Qed.

Lemma GetRequest_Set_remove id e g :
  remove_after_get_ (GetRequest_Set id e g) = remove_after_get_ g.
Proof. unfold GetRequest_Set. by destruct (is_ready_ g). Qed.

Lemma Put_requests_heap id e l heap add h :
  ∃ n, (Put_requests id e l heap add).1.1 !! h
       = Nat.iter n (GetRequest_Set id e) <$> heap !! h.
Proof.
  revert heap add. induction l as [|x l IH]; intros heap add; simpl.
  - exists 0. simpl. by destruct (heap !! h).
  - specialize (IH (alter (GetRequest_Set id e) x heap)
     (if match heap !! x with Some g => ShouldRemoveObjects g | None => false end then false else add)).
    destruct (Put_requests _ _ l _ _) as [[heap2 add2] effs]. simpl in *.
    destruct IH as [n IH]. rewrite IH.
    destruct (decide (x = h)) as [->|Hne].
    + exists (S n). rewrite lookup_alter_eq. destruct (heap !! h); simpl; [|done].
      by rewrite <- Nat.iter_succ_r.
    + exists n. by rewrite lookup_alter_ne.
Qed.

Lemma forallb_pointwise {A} (f g : A → bool) l :
  (∀ x, f x = g x) → forallb f l = forallb g l.
Proof. intros H. induction l; simpl; [done|]. by rewrite H, IHl. Qed.

Lemma Put_requests_add id e l heap add :
  (Put_requests id e l heap add).1.2
  = add && forallb (λ h, negb (from_option ShouldRemoveObjects false (heap !! h))) l.
Proof.
  revert heap add. induction l as [|x l IH]; intros heap add; simpl.
  - by rewrite andb_true_r.
  - specialize (IH (alter (GetRequest_Set id e) x heap)
     (if match heap !! x with Some g => ShouldRemoveObjects g | None => false end then false else add)).
    destruct (Put_requests _ _ l _ _) as [[heap2 add2] effs]. simpl in *.
    rewrite IH. clear IH.
    replace (forallb (λ h, negb (from_option ShouldRemoveObjects false
               (alter (GetRequest_Set id e) x heap !! h))) l)
      with (forallb (λ h, negb (from_option ShouldRemoveObjects false (heap !! h))) l).
    + destruct (heap !! x) as [g|]; simpl; [destruct (ShouldRemoveObjects g)|];
        simpl; by rewrite ?andb_false_r.
    + apply forallb_pointwise. intros h. f_equal.
      destruct (decide (x = h)) as [->|Hne].
      * rewrite lookup_alter_eq. destruct (heap !! h); simpl; [|done].
        symmetry. apply GetRequest_Set_remove.
      * by rewrite lookup_alter_ne.
Qed.

(** What a [Put] that stores does to each component of the store. *)
Lemma Put_inv id obj s status s' effs :
  Put id obj s = Some (status, s', effs) →
  IsDirectCallType id = true ∧
  match objects_ s !! id with
  | Some _ => status = ObjectExists ∧ s' = s ∧ effs = []
  | None =>
      let r := Put_requests id obj (default [] (object_get_requests_ s !! id))
                 (get_request_heap s) true in
      status = OK ∧
      store_in_plasma_ s' = store_in_plasma_ s ∧
      objects_ s' = (if r.1.2 then <[id := obj]> (objects_ s) else objects_ s) ∧
      object_async_get_requests_ s' = delete id (object_async_get_requests_ s) ∧
      object_get_requests_ s' = object_get_requests_ s ∧
      promoted_to_plasma_ s' = promoted_to_plasma_ s ∖ {[id]} ∧
      get_request_heap s' = r.1.1 ∧
      (id ∈ promoted_to_plasma_ s → store_in_plasma_ s = true) ∧
      effs = (if bool_decide (id ∈ promoted_to_plasma_ s)
              then [CallStoreInPlasma obj (WithTransportType id RAYLET)] else [])
             ++ map (λ h, CallSet h id obj) (default [] (object_get_requests_ s !! id))
             ++ map (λ cb, CallCallback cb obj)
                  (default [] (object_async_get_requests_ s !! id))
  end.
Proof.
  unfold Put. destruct (IsDirectCallType id); simpl; [|done].
  replace (mkRayObject (GetData obj) (GetMetadata obj)) with obj by by destruct obj.
  intros H. split; [done|].
  destruct (objects_ s !! id) as [o|] eqn:Hobj.
  { by simplify_eq. }
  simpl in H.
  pose proof (Put_requests_effects id obj (default [] (object_get_requests_ s !! id))
                (get_request_heap s) true) as Heffs.
  case_bool_decide as Hprom.
  - destruct (store_in_plasma_ s) eqn:Hsip; simpl in H; [|done].
    destruct (Put_requests _ _ _ _ _) as [[heap add] seffs] eqn:Hreq. simpl in *.
    destruct add; simplify_eq; simpl; unfold emplace; simpl;
      rewrite ?Hobj; repeat split; done.
  - simpl in H.
    destruct (Put_requests _ _ _ _ _) as [[heap add] seffs] eqn:Hreq. simpl in *.
    assert (promoted_to_plasma_ s = promoted_to_plasma_ s ∖ {[id]}) as Hdiff.
    { symmetry. apply difference_disjoint_L. by apply disjoint_singleton_r. }
    destruct add; simplify_eq; simpl; unfold emplace; simpl;
      rewrite ?Hobj; repeat split; done.
Qed.

(** ** The scan of [Get] *)

Lemma Get_scan_scan_spec objects num rm ids :
  ∀ i st pre,
    results st = pre ++ replicate (length ids) None →
    length pre = i →
    Get_scan objects num rm ids i st
    = let sp := scan_spec objects num rm ids (count st) (ids_to_remove st)
                  (remaining_ids st) in
      mkScan (pre ++ results sp) (count sp) (ids_to_remove sp) (remaining_ids sp).
Proof.
  induction ids as [|id ids IH]; intros i st pre Hres Hlen; simpl.
  - destruct st; simpl in *. by rewrite Hres.
  - case_bool_decide as Hc.
    + destruct (objects !! id) as [ptr|] eqn:Hid.
      * rewrite (IH (S i) _ (pre ++ [Some ptr])); simpl.
        -- by rewrite <- app_assoc.
        -- rewrite Hres. simpl. subst i.
           rewrite insert_app_r_alt, Nat.sub_diag by lia. simpl.
           by rewrite <- app_assoc.
        -- rewrite length_app. simpl. lia.
      * rewrite (IH (S i) _ (pre ++ [None])); simpl.
        -- by rewrite <- app_assoc.
        -- rewrite Hres. simpl. by rewrite <- app_assoc.
        -- rewrite length_app. simpl. lia.
    + destruct st; simpl in *. by rewrite Hres.
Qed.

Lemma Get_scan_init objects num rm ids :
  Get_scan objects num rm ids 0 (scan_init ids) = scan_spec objects num rm ids 0 ∅ ∅.
Proof.
  rewrite (Get_scan_scan_spec _ _ _ _ 0 _ []); [|done..].
  simpl. by destruct (scan_spec _ _ _ _ _ _ _).
Qed.

Lemma found_in_cons_Some objects id ids ptr :
  objects !! id = Some ptr →
  found_in objects (id :: ids) = (1 + found_in objects ids)%Z.
Proof. intros H. simpl. by rewrite H, bool_decide_eq_true_2 by eauto. Qed.

Lemma found_in_cons_None objects id ids :
  objects !! id = None →
  found_in objects (id :: ids) = found_in objects ids.
Proof.
  intros H. simpl. rewrite H, bool_decide_eq_false_2; [done|]. by intros [? ?].
Qed.

Lemma found_in_nonneg objects ids : (0 ≤ found_in objects ids)%Z.
Proof. induction ids; simpl; [done|]. case_bool_decide; lia. Qed.

Lemma found_in_app objects l1 l2 :
  found_in objects (l1 ++ l2) = (found_in objects l1 + found_in objects l2)%Z.
Proof. induction l1; simpl; [done|]. rewrite IHl1. lia. Qed.

Lemma scan_spec_length objects num rm ids c tr rem :
  length (results (scan_spec objects num rm ids c tr rem)) = length ids.
Proof.
  revert c tr rem. induction ids as [|id ids IH]; intros c tr rem; simpl; [done|].
  case_bool_decide.
  - destruct (objects !! id); simpl; by rewrite IH.
  - simpl. by rewrite length_replicate.
Qed.

Lemma scan_spec_count objects num rm ids c tr rem :
  (c ≤ num)%Z →
  count (scan_spec objects num rm ids c tr rem) = Z.min num (c + found_in objects ids).
Proof.
  revert c tr rem. induction ids as [|id ids IH]; intros c tr rem Hc.
  - simpl. lia.
  - pose proof (found_in_nonneg objects ids).
    cbn [scan_spec]. case_bool_decide as Hlt.
    + destruct (objects !! id) as [ptr|] eqn:Hid; cbn [count]; rewrite IH by lia.
      * rewrite (found_in_cons_Some _ _ _ _ Hid). lia.
      * rewrite (found_in_cons_None _ _ _ Hid). lia.
    + cbn [count]. pose proof (found_in_nonneg objects (id :: ids)). lia.
Qed.

(** What the scan leaves at position [j]: the object of the id there when
    fewer than [num] objects were found before [j], nothing otherwise. *)
Lemma scan_spec_lookup objects num rm ids :
  ∀ c tr rem j id,
    ids !! j = Some id →
    results (scan_spec objects num rm ids c tr rem) !! j
    = Some (if bool_decide (c + found_in objects (take j ids) < num)%Z
            then objects !! id else None).
Proof.
  induction ids as [|x ids IH]; intros c tr rem j id Hj; [done|].
  pose proof (found_in_nonneg objects (take j (x :: ids))) as Hnn.
  cbn [scan_spec]. case_bool_decide as Hc.
  - destruct j as [|j]; cbn [take] in *.
    + simpl in Hj. simplify_eq. simpl. rewrite bool_decide_eq_true_2 by lia.
      by destruct (objects !! id).
    + simpl in Hj.
      destruct (objects !! x) as [ptr|] eqn:Hx; cbn [results lookup list_lookup];
        rewrite (IH _ _ _ _ id) by done.
      * rewrite (found_in_cons_Some _ _ _ _ Hx).
        by replace (c + (1 + found_in objects (take j ids)))%Z
          with (c + 1 + found_in objects (take j ids))%Z by lia.
      * rewrite (found_in_cons_None _ _ _ Hx). done.
  - cbn [results]. rewrite lookup_replicate_2 by (by apply lookup_lt_Some in Hj).
    by rewrite bool_decide_eq_false_2 by lia.
Qed.

(** Once the count has reached [num], the rest of the vector is not looked
    at: the scan of [pre ++ suf] is the scan of [pre], padded. *)
Lemma scan_spec_stops objects num rm pre suf :
  ∀ c tr rem,
    (num ≤ c + found_in objects pre)%Z →
    scan_spec objects num rm (pre ++ suf) c tr rem
    = let sp := scan_spec objects num rm pre c tr rem in
      mkScan (results sp ++ replicate (length suf) None) (count sp)
        (ids_to_remove sp) (remaining_ids sp).
Proof.
  induction pre as [|x pre IH]; intros c tr rem Hc.
  - simpl in *. destruct suf as [|y suf]; simpl; [done|].
    by rewrite bool_decide_eq_false_2 by lia.
  - cbn [app scan_spec]. case_bool_decide as Hlt.
    + destruct (objects !! x) as [ptr|] eqn:Hx.
      * rewrite (found_in_cons_Some _ _ _ _ Hx) in Hc. by rewrite IH by lia.
      * rewrite (found_in_cons_None _ _ _ Hx) in Hc. by rewrite IH by lia.
    + cbn [results count ids_to_remove remaining_ids length].
      rewrite length_app. change (S (length pre + length suf)) with
        (S (length pre) + length suf). by rewrite replicate_add.
Qed.

(** What the critical section of [Get] does to each component of the store,
    in terms of the scan. *)
Lemma Get_begin_inv ids num t rm s ph s' :
  Get_begin ids num t rm s = Some (ph, s') →
  let sp := scan_spec (objects_ s) num rm ids 0 ∅ ∅ in
  (count sp ≤ num)%Z ∧
  phase_results ph = results sp ∧
  store_in_plasma_ s' = store_in_plasma_ s ∧
  objects_ s' = foldr delete (objects_ s) (elements (ids_to_remove sp)) ∧
  object_async_get_requests_ s' = object_async_get_requests_ s ∧
  promoted_to_plasma_ s' = promoted_to_plasma_ s ∧
  match ph with
  | GetReturned status _ =>
      status = OK ∧
      (remaining_ids sp = ∅ ∨ num ≤ count sp)%Z ∧
      object_get_requests_ s' = object_get_requests_ s ∧
      get_request_heap s' = get_request_heap s
  | GetBlocked h _ =>
      remaining_ids sp ≠ ∅ ∧ (count sp < num)%Z ∧
      (0 ≤ t ∨ t = -1)%Z ∧
      h = fresh (dom (get_request_heap s)) ∧
      ∃ g, GetRequest_new (remaining_ids sp)
             (to_size_t (num - (Z.of_nat (length ids)
                                - Z.of_nat (size (remaining_ids sp))))) rm = Some g ∧
           get_request_heap s' = <[h := g]> (get_request_heap s) ∧
           object_get_requests_ s'
           = foldr (register h) (object_get_requests_ s) (elements (remaining_ids sp))
  end.
Proof.
  unfold Get_begin. rewrite Get_scan_init.
  set (sp := scan_spec (objects_ s) num rm ids 0 ∅ ∅). intros H. simpl.
  case_bool_decide as Hcount; [|done].
  destruct (bool_decide (remaining_ids sp = ∅) || bool_decide (num ≤ count sp)%Z)
    eqn:Hret.
  - simplify_eq. simpl. repeat split; try done.
    apply orb_true_iff in Hret as [Hr|Hr]; apply bool_decide_eq_true in Hr; auto.
  - apply orb_false_iff in Hret as [Hr1 Hr2].
    apply bool_decide_eq_false in Hr1, Hr2.
    destruct (GetRequest_new _ _ _) as [g|] eqn:Hg; simpl in H; [|done].
    case_bool_decide as Ht; [|done].
    simplify_eq. simpl. repeat split; try done; [lia|].
    by exists g.
Qed.

(** ** C9: the scan stops at [num_objects] *)

(** The ids that the scan marks for removal or collects as missing are ids
    of positions it has looked at. *)
Lemma scan_spec_sets objects num rm ids :
  ∀ c tr rem,
    let sp := scan_spec objects num rm ids c tr rem in
    (∀ id, id ∈ ids_to_remove sp →
           id ∈ tr ∨ (rm = true ∧ id ∈ ids ∧ is_Some (objects !! id))) ∧
    (∀ id, id ∈ remaining_ids sp → id ∈ rem ∨ (id ∈ ids ∧ objects !! id = None)).
Proof.
  induction ids as [|x ids IH]; intros c tr rem; cbn [scan_spec].
  - simpl. auto.
  - case_bool_decide as Hlt; [|simpl; auto].
    destruct (objects !! x) as [ptr|] eqn:Hx; cbn [ids_to_remove remaining_ids].
    + destruct (IH (c + 1)%Z (if rm then {[x]} ∪ tr else tr) rem) as [Hrm Hrem].
      split.
      * intros id [Hin|(Hr & Hin & Hsome)]%Hrm.
        -- destruct rm; [|by left].
           apply elem_of_union in Hin as [->%elem_of_singleton|Hin]; [|by left].
           right. split; [done|]. split; [left|by rewrite Hx].
        -- right. split; [done|]. split; [by right|done].
      * intros id [Hin|[Hin Hnone]]%Hrem; [by left|].
        right. split; [by right|done].
    + destruct (IH c tr ({[x]} ∪ rem)) as [Hrm Hrem].
      split.
      * intros id [Hin|(Hr & Hin & Hsome)]%Hrm; [by left|].
        right. split; [done|]. split; [by right|done].
      * intros id [Hin|[Hin Hnone]]%Hrem.
        -- apply elem_of_union in Hin as [->%elem_of_singleton|Hin]; [|by left].
           right. split; [left|done].
        -- right. split; [by right|done].
Qed.

(** C9, as the code has it.  When [num_objects] of the ids of a prefix [pre]
    of the vector are in the store, [Get] on [pre ++ suf] looks at no
    position of [suf]: the scan of the whole vector ends in the state of the
    scan of [pre] alone, with an absent entry for every position of [suf],
    whether or not the id there is in the store; so the positions of [suf]
    are not counted, and the ids marked for removal and the ids collected as
    missing are ids of [pre].  [Get] returns OK at once; no request is built
    or registered, so that the ids of [suf] are not waited for.  An id of
    [suf] is removed under [remove_after_get] only when it is also an id of
    [pre] that the scan found there; an id that does not occur in [pre]
    stays in the store. *)
Theorem C9_scan_stops_at_num_objects
    (s : CoreWorkerMemoryStore) (pre suf : list ObjectID)
    (num_objects timeout_ms : Z) (remove_after_get : bool) :
  (0 ≤ num_objects)%Z →
  (num_objects ≤ found_in (objects_ s) pre)%Z →
  let st := Get_scan (objects_ s) num_objects remove_after_get pre 0 (scan_init pre) in
  count st = num_objects ∧
  Get_scan (objects_ s) num_objects remove_after_get (pre ++ suf) 0
    (scan_init (pre ++ suf))
  = mkScan (results st ++ replicate (length suf) None) (count st)
      (ids_to_remove st) (remaining_ids st) ∧
  (∀ id, id ∈ ids_to_remove st →
         remove_after_get = true ∧ id ∈ pre ∧ is_Some (objects_ s !! id)) ∧
  (∀ id, id ∈ remaining_ids st → id ∈ pre ∧ objects_ s !! id = None) ∧
  Get_begin (pre ++ suf) num_objects timeout_ms remove_after_get s
  = Some (GetReturned OK (results st ++ replicate (length suf) None),
          mkStore (store_in_plasma_ s)
            (foldr delete (objects_ s) (elements (ids_to_remove st)))
            (object_async_get_requests_ s) (object_get_requests_ s)
            (promoted_to_plasma_ s) (get_request_heap s)) ∧
  (∀ id, id ∉ pre →
         foldr delete (objects_ s) (elements (ids_to_remove st)) !! id
         = objects_ s !! id).
Proof.
  intros Hnum Hfound. rewrite Get_scan_init.
  set (sp := scan_spec (objects_ s) num_objects remove_after_get pre 0 ∅ ∅).
  assert (count sp = num_objects) as Hcount.
  { unfold sp. rewrite scan_spec_count by done. lia. }
  destruct (scan_spec_sets (objects_ s) num_objects remove_after_get pre 0 ∅ ∅)
    as [Hrm Hrem]. fold sp in Hrm, Hrem.
  assert (∀ id, id ∈ ids_to_remove sp →
                remove_after_get = true ∧ id ∈ pre ∧ is_Some (objects_ s !! id)) as Hrm'.
  { intros id [Hin|H]%Hrm; [|done]. by apply not_elem_of_empty in Hin. }
  simpl. split; [done|].
  split; [rewrite Get_scan_init, scan_spec_stops by lia; done|].
  split; [exact Hrm'|]. split.
  { intros id [Hin|H]%Hrem; [|done]. by apply not_elem_of_empty in Hin. }
  split.
  - unfold Get_begin. rewrite Get_scan_init, scan_spec_stops by lia. simpl.
    fold sp. rewrite Hcount.
    rewrite bool_decide_eq_true_2 by lia.
    by rewrite orb_true_r.
  - intros id Hid. rewrite foldr_delete_lookup.
    rewrite bool_decide_eq_false_2; [done|].
    intros Hin%elem_of_elements. by apply Hrm' in Hin as (_ & Hin & _).
Qed.

(** ** Invariants of the store *)

Lemma emplace_size {V} k (v : V) (m : gmap ObjectID V) :
  size (emplace k v m) = match m !! k with Some _ => size m | None => S (size m) end.
Proof.
  unfold emplace. destruct (m !! k) eqn:Hk; [done|].
  by apply map_size_insert_None.
Qed.

Lemma GetRequest_Set_inv id e g : request_inv g → request_inv (GetRequest_Set id e g).
Proof.
  unfold request_inv, GetRequest_Set.
  destruct (is_ready_ g) eqn:Hready; [by rewrite Hready|].
  simpl. rewrite emplace_size. intros Hinv.
  case_bool_decide as Hsize; [done|].
  destruct (req_objects_ g !! id); lia.
Qed.

Lemma GetRequest_Set_iter_inv id e n g :
  request_inv g → request_inv (Nat.iter n (GetRequest_Set id e) g).
Proof. intros H. induction n; simpl; [done|]. by apply GetRequest_Set_inv. Qed.

Lemma foldl_delete_lookup_Some {V} (l : list ObjectID) (m : gmap ObjectID V) k v :
  foldl (λ m id, delete id m) m l !! k = Some v → m !! k = Some v.
Proof.
  revert m. induction l as [|x l IH]; intros m; simpl; [done|].
  intros H%IH. apply lookup_delete_Some in H. tauto.
Qed.

Lemma register_elem h l m id l' x :
  foldr (register h) m l !! id = Some l' → x ∈ l' →
  x = h ∨ ∃ l0, m !! id = Some l0 ∧ x ∈ l0.
Proof.
  revert l'. induction l as [|y l IH]; intros l'; simpl.
  - intros ??. right. eauto.
  - unfold register at 1. destruct (decide (y = id)) as [->|Hne].
    + rewrite lookup_insert_eq. intros [= <-] [Hx|Hx]%elem_of_app.
      * destruct (foldr (register h) m l !! id) as [l1|] eqn:Hl1; simpl in Hx.
        -- by apply (IH l1).
        -- by apply elem_of_nil in Hx.
      * apply list_elem_of_singleton in Hx. by left.
    + rewrite lookup_insert_ne by done. apply IH.
Qed.

Lemma erase_first_elem h l x : x ∈ erase_first h l → x ∈ l.
Proof.
  induction l as [|y l IH]; simpl; [done|].
  destruct (decide (y = h)).
  - intros ?. by right.
  - intros [->|?]%elem_of_cons; [left|right; auto].
Qed.

Lemma deregister_elem h l m id l' x :
  foldr (deregister h) m l !! id = Some l' → x ∈ l' →
  ∃ l0, m !! id = Some l0 ∧ x ∈ l0.
Proof.
  revert l'. induction l as [|y l IH]; intros l'; simpl.
  - eauto.
  - unfold deregister at 1.
    destruct (foldr (deregister h) m l !! y) as [rs|] eqn:Hrs; [|apply IH].
    case_bool_decide; [|apply IH].
    destruct (erase_first h rs) as [|r rs'] eqn:Herase.
    + intros Hdel%lookup_delete_Some. destruct Hdel as [_ Hdel]. by apply IH.
    + destruct (decide (y = id)) as [->|Hne].
      * rewrite lookup_insert_eq. intros [= <-] Hx.
        apply (IH rs); [done|]. apply (erase_first_elem h). by rewrite Herase.
      * rewrite lookup_insert_ne by done. apply IH.
Qed.

Lemma Put_store_inv id obj s status s' effs :
  Put id obj s = Some (status, s', effs) → store_inv s → store_inv s'.
Proof.
  intros H [Hd Hr Hreg]. apply Put_inv in H as [Hdirect H].
  destruct (objects_ s !! id) as [o|] eqn:Hobj.
  { destruct H as (_ & -> & _). by split. }
  simpl in H. destruct H as (_ & _ & Hobjs & _ & Hsync & _ & Hheap & _).
  split.
  - intros k. rewrite Hobjs. destruct (Put_requests _ _ _ _ _).1.2; [|apply Hd].
    destruct (decide (id = k)) as [<-|Hne]; [done|].
    rewrite lookup_insert_ne by done. apply Hd.
  - intros h g. rewrite Hheap.
    destruct (Put_requests_heap id obj (default [] (object_get_requests_ s !! id))
                (get_request_heap s) true h) as [n ->].
    destruct (get_request_heap s !! h) as [g0|] eqn:Hg0; simpl; [|done].
    intros [= <-]. apply GetRequest_Set_iter_inv. eauto.
  - intros k l h. rewrite Hsync, Hheap. intros Hl Hin.
    destruct (Put_requests_heap id obj (default [] (object_get_requests_ s !! id))
                (get_request_heap s) true h) as [n ->].
    apply fmap_is_Some. eauto.
Qed.

Lemma GetRequest_new_inv ids num rm g :
  GetRequest_new ids (to_size_t num) rm = Some g → request_inv g.
Proof.
  unfold GetRequest_new. case_bool_decide; [|done]. intros [= <-].
  unfold request_inv. simpl. rewrite map_size_empty.
  unfold to_size_t, size_t_modulus.
  pose proof (Z.mod_pos_bound num (2 ^ 64)). lia.
Qed.

Lemma Get_begin_store_inv ids num t rm s ph s' :
  Get_begin ids num t rm s = Some (ph, s') → store_inv s → store_inv s'.
Proof.
  intros H [Hd Hr Hreg]. apply Get_begin_inv in H. simpl in H.
  destruct H as (_ & _ & _ & Hobjs & _ & _ & H).
  assert (∀ k, is_Some (objects_ s' !! k) → IsDirectCallType k = true) as Hd'.
  { intros k. rewrite Hobjs, foldr_delete_lookup.
    case_bool_decide; [by intros [? ?]|apply Hd]. }
  destruct ph as [status res|h res].
  - destruct H as (_ & _ & Hsync & Hheap). split; [done|..].
    + intros h g. rewrite Hheap. apply Hr.
    + intros k l h. rewrite Hsync, Hheap. apply Hreg.
  - destruct H as (_ & _ & _ & Hh & g & Hg & Hheap & Hsync). split; [done|..].
    + intros h' g'. rewrite Hheap. destruct (decide (h = h')) as [<-|Hne].
      * rewrite lookup_insert_eq. intros [= <-]. by eapply GetRequest_new_inv.
      * rewrite lookup_insert_ne by done. apply Hr.
    + intros k l h'. rewrite Hsync, Hheap. intros Hl Hin.
      destruct (register_elem _ _ _ _ _ _ Hl Hin) as [->|(l0 & Hl0 & Hin0)].
      * rewrite lookup_insert_eq. eauto.
      * apply lookup_insert_is_Some'. right. eauto.
Qed.

Lemma Get_end_store_inv ids res h done s status res' s' :
  Get_end ids res h done s = Some (status, res', s') → store_inv s → store_inv s'.
Proof.
  unfold Get_end. intros H [Hd Hr Hreg].
  destruct (get_request_heap s !! h) as [g|]; simpl in H; [|done].
  simplify_eq. split; simpl; [done..|].
  intros k l x Hl Hin.
  destruct (deregister_elem _ _ _ _ _ _ Hl Hin) as (l0 & Hl0 & Hin0). eauto.
Qed.

Lemma IMS_step_store_inv σ σ' :
  IMS_step σ σ' → store_inv (store σ) → store_inv (store σ').
Proof.
  intros Hstep Hinv. destruct Hstep; simpl.
  - by eapply Put_store_inv.
  - destruct Hinv as [Hd Hr Hreg]. unfold GetAsync.
    destruct (objects_ (store σ) !! object_id); simpl; by split.
  - destruct Hinv as [Hd Hr Hreg]. unfold GetOrPromoteToPlasma in *.
    destruct (objects_ (store σ) !! object_id) as [o|].
    + destruct (IsInPlasmaError o); simplify_eq; by split.
    + destruct (store_in_plasma_ (store σ)); simplify_eq. by split.
  - destruct Hinv as [Hd Hr Hreg]. split; simpl; [|done..].
    intros k [v Hv]. apply foldl_delete_lookup_Some in Hv. eauto.
  - by eapply Get_begin_store_inv.
  - by eapply Get_begin_store_inv.
  - by eapply Get_end_store_inv.
Qed.

Lemma store_init_inv b : store_inv (store_init b).
Proof.
  split; simpl.
  - intros id [? H]. by rewrite lookup_empty in H.
  - intros h g H. by rewrite lookup_empty in H.
  - intros id l h H. by rewrite lookup_empty in H.
Qed.

Lemma IMS_reachable_store_inv σ : IMS_reachable σ → store_inv (store σ).
Proof.
  intros [b Hrtc]. revert σ Hrtc.
  apply (rtc_ind_r (λ σ, store_inv (store σ))).
  - apply store_init_inv.
  - intros σ1 σ2 _ Hstep IH. by eapply IMS_step_store_inv.
Qed.

(** ** Runs of the store on the concrete inputs *)

Example ex_put_A : Put ex_A ex_v (store_init false) = Some (OK, ex_store_A, []).
Proof. reflexivity. Qed.

Example ex_get_blocks rm :
  Get_begin [ex_A] 1 (-1) rm (store_init false)
  = Some (GetBlocked 0 [None], ex_store_blocked rm).
Proof. by destruct rm. Qed.

Example ex_put_delivers :
  Put ex_A ex_v (ex_store_blocked false)
  = Some (OK, ex_store_delivered, [CallSet 0 ex_A ex_v]).
Proof. reflexivity. Qed.

Example ex_put_consumed :
  Put ex_A ex_v (ex_store_blocked true)
  = Some (OK, ex_store_consumed, [CallSet 0 ex_A ex_v]).
Proof. reflexivity. Qed.

Lemma ex_store_A_reachable : IMS_reachable (mkIMS ex_store_A ∅).
Proof.
  exists false. eapply rtc_l; [|apply rtc_refl].
  apply (step_Put ex_A ex_v (IMS_init false) OK ex_store_A []). reflexivity.
Qed.

Lemma ex_store_blocked_reachable rm : IMS_reachable (mkIMS (ex_store_blocked rm) ex_readers).
Proof.
  exists false. eapply rtc_l; [|apply rtc_refl].
  apply (step_Get_blocks [ex_A] 1 (-1) rm (IMS_init false) 0 [None] (ex_store_blocked rm)).
  apply ex_get_blocks.
Qed.

Lemma ex_store_delivered_reachable : IMS_reachable (mkIMS ex_store_delivered ex_readers).
Proof.
  destruct (ex_store_blocked_reachable false) as [b Hrtc]. exists b.
  eapply rtc_r; [exact Hrtc|].
  apply (step_Put ex_A ex_v (mkIMS (ex_store_blocked false) ex_readers) OK
           ex_store_delivered [CallSet 0 ex_A ex_v]).
  reflexivity.
Qed.

Lemma ex_store_consumed_reachable : IMS_reachable (mkIMS ex_store_consumed ex_readers).
Proof.
  destruct (ex_store_blocked_reachable true) as [b Hrtc]. exists b.
  eapply rtc_r; [exact Hrtc|].
  apply (step_Put ex_A ex_v (mkIMS (ex_store_blocked true) ex_readers) OK
           ex_store_consumed [CallSet 0 ex_A ex_v]).
  reflexivity.
Qed.

(** A vector that repeats a missing id makes [required_objects] too small:
    [Get([A, A], 1, -1, false)] on the empty store registers a request that
    needs [1 - (2 - 1) = 0] objects, which no [Set] can make ready. *)
Example ex_get_duplicate_missing :
  Get_begin [ex_A; ex_A] 1 (-1) false (store_init false)
  = Some (GetBlocked 0 [None; None],
          mkStore false ∅ ∅ {[ex_A := [0]]} ∅
            {[0 := mkGetRequest {[ex_A]} ∅ 0 false false]}).
Proof. reflexivity. Qed.

Lemma ErrorType_metadata_digit e :
  map (λ b, Z.of_N (Byte.to_N b)) (ErrorType_metadata e) = [(48 + ErrorType_number e)%Z].
Proof. by destruct e. Qed.

(** ** C4: a duplicate [Put] *)

(** C4.  In every reachable state of the store, [Put(id, object)] on an id
    that is already in [objects_] returns [ObjectExists], leaves the whole
    store as it was (objects, asynchronous and synchronous waiters, promoted
    set, and the registered requests themselves), and makes no call: no
    asynchronous callback, no [GetRequest::Set], no [store_in_plasma]. *)
Theorem C4_duplicate_put_changes_nothing (σ : IMS) (id : ObjectID) (object : RayObject) :
  IMS_reachable σ →
  is_Some (objects_ (store σ) !! id) →
  Put id object (store σ) = Some (ObjectExists, store σ, []).
Proof.
  intros Hreach [o Ho].
  pose proof (inv_direct _ (IMS_reachable_store_inv σ Hreach) id (mk_is_Some _ _ Ho)) as Hd.
  unfold Put. by rewrite Hd, Ho.
Qed.

Lemma C4_witness :
  IMS_reachable (mkIMS ex_store_A ∅) ∧
  is_Some (objects_ ex_store_A !! ex_A) ∧
  Put ex_A ex_w ex_store_A = Some (ObjectExists, ex_store_A, []).
Proof.
  assert (is_Some (objects_ ex_store_A !! ex_A)) as Hin by (by exists ex_v).
  split; [apply ex_store_A_reachable|]. split; [exact Hin|].
  exact (C4_duplicate_put_changes_nothing (mkIMS ex_store_A ∅) ex_A ex_w
           ex_store_A_reachable Hin).
Defined.

(** ** C7: [GetOrPromoteToPlasma] *)

(** C7.  [GetOrPromoteToPlasma(id)] by cases: an object that is present and
    is not an in-plasma error is returned and the store is unchanged; for an
    object that is present and is an in-plasma error nothing is returned and
    the store is unchanged; for an absent id, the id is added to
    [promoted_to_plasma_], nothing else changes and nothing is returned, and
    the call aborts when no plasma callback was configured. *)
Theorem C7_GetOrPromoteToPlasma_cases (s : CoreWorkerMemoryStore) (id : ObjectID) :
  (∀ obj, objects_ s !! id = Some obj → IsInPlasmaError obj = false →
     GetOrPromoteToPlasma id s = Some (Some obj, s)) ∧
  (∀ obj, objects_ s !! id = Some obj → IsInPlasmaError obj = true →
     GetOrPromoteToPlasma id s = Some (None, s)) ∧
  (objects_ s !! id = None → store_in_plasma_ s = true →
     GetOrPromoteToPlasma id s
     = Some (None,
             mkStore (store_in_plasma_ s) (objects_ s) (object_async_get_requests_ s)
               (object_get_requests_ s) ({[id]} ∪ promoted_to_plasma_ s)
               (get_request_heap s))) ∧
  (objects_ s !! id = None → store_in_plasma_ s = false →
     GetOrPromoteToPlasma id s = None).
Proof.
  unfold GetOrPromoteToPlasma. split; [|split; [|split]].
  - by intros obj -> ->.
  - by intros obj -> ->.
  - intros Ho Hs. unfold set_promoted. by rewrite Ho, Hs.
  - by intros -> ->.
Qed.

Lemma C7_witness :
  GetOrPromoteToPlasma ex_A ex_store_A = Some (Some ex_v, ex_store_A) ∧
  GetOrPromoteToPlasma ex_A (mkStore true {[ex_A := ex_in_plasma]} ∅ ∅ ∅ ∅)
  = Some (None, mkStore true {[ex_A := ex_in_plasma]} ∅ ∅ ∅ ∅) ∧
  GetOrPromoteToPlasma ex_B ex_store_plasma
  = Some (None, mkStore true ∅ ∅ ∅ {[ex_B]} ∅) ∧
  GetOrPromoteToPlasma ex_B ex_store_A = None.
Proof.
  split; [|split; [|split]].
  - exact (proj1 (C7_GetOrPromoteToPlasma_cases ex_store_A ex_A) ex_v eq_refl eq_refl).
  - exact (proj1 (proj2 (C7_GetOrPromoteToPlasma_cases
             (mkStore true {[ex_A := ex_in_plasma]} ∅ ∅ ∅ ∅) ex_A))
             ex_in_plasma eq_refl eq_refl).
  - exact (proj1 (proj2 (proj2 (C7_GetOrPromoteToPlasma_cases ex_store_plasma ex_B)))
             eq_refl eq_refl).
  - exact (proj2 (proj2 (proj2 (C7_GetOrPromoteToPlasma_cases ex_store_A ex_B)))
             eq_refl eq_refl).
Defined.

(** ** C3: duplicates in the ids of a removing [Get] *)

(** C3, as the code has it.  In a [Get] with [remove_after_get = true] whose
    vector holds the same id at positions [i < j], the id being in the store
    when the call starts, the removal is deferred to the end of the scan:
    position [j] of the results holds the stored object whenever fewer than
    [num_objects] positions before [j] were found, and is absent only when
    the scan had already stopped before [j]. *)
Theorem C3_duplicate_id_is_filled_again
    (s s' : CoreWorkerMemoryStore) (ids : list ObjectID) (num_objects timeout_ms : Z)
    (i j : nat) (id : ObjectID) (v : RayObject) (ph : GetPhase) :
  i < j →
  ids !! i = Some id →
  ids !! j = Some id →
  objects_ s !! id = Some v →
  Get_begin ids num_objects timeout_ms true s = Some (ph, s') →
  phase_results ph !! j
  = Some (if bool_decide (found_in (objects_ s) (take j ids) < num_objects)%Z
          then Some v else None).
Proof.
  intros _ _ Hj Hv H. apply Get_begin_inv in H as (_ & -> & _).
  rewrite (scan_spec_lookup _ _ _ _ _ _ _ _ id Hj), Hv. done.
Qed.

Lemma C3_witness :
  0 < 1 ∧ [ex_A; ex_A] !! 0 = Some ex_A ∧ [ex_A; ex_A] !! 1 = Some ex_A ∧
  objects_ ex_store_A !! ex_A = Some ex_v ∧
  Get_begin [ex_A; ex_A] 2 (-1) true ex_store_A
  = Some (GetReturned OK [Some ex_v; Some ex_v], store_init false) ∧
  [Some ex_v; Some ex_v] !! 1 = Some (Some ex_v).
Proof.
  repeat (split; [reflexivity || lia|]).
  exact (C3_duplicate_id_is_filled_again ex_store_A (store_init false) [ex_A; ex_A]
           2 (-1) 0 1 ex_A ex_v (GetReturned OK [Some ex_v; Some ex_v])
           (le_n 1) eq_refl eq_refl eq_refl eq_refl).
Defined.

(** The claim C3 as stated fails: [Get([A, A], 2, -1, true)] with [A] in the
    store returns the object at both positions. *)
Lemma C3_counterexample :
  objects_ ex_store_A !! ex_A = Some ex_v ∧
  Get_begin [ex_A; ex_A] 2 (-1) true ex_store_A
  = Some (GetReturned OK [Some ex_v; Some ex_v], store_init false) ∧
  ¬ (∀ ph s', Get_begin [ex_A; ex_A] 2 (-1) true ex_store_A = Some (ph, s') →
              phase_results ph !! 1 = Some None).
Proof.
  split; [reflexivity|]. split; [reflexivity|].
  intros H. specialize (H _ _ eq_refl). discriminate H.
Qed.

(** ** C1: [Put] then [Get] *)

Lemma set_objects_id s : set_objects (objects_ s) s = s.
Proof. by destruct s. Qed.

(** C1, as the code has it.  When no request with [remove_after_get] is
    registered under [id], a [Put(id, v)] that returns OK, followed by
    [Get([id], 1, -1, false)], makes the [Get] return OK at once with a
    results vector of length one that holds [v]; the [Get] leaves the store
    as the [Put] left it. *)
Theorem C1_put_then_get_returns_object
    (s s' : CoreWorkerMemoryStore) (id : ObjectID) (v : RayObject) (effs : list Effect) :
  Put id v s = Some (OK, s', effs) →
  (∀ h g, h ∈ default [] (object_get_requests_ s !! id) →
          get_request_heap s !! h = Some g → remove_after_get_ g = false) →
  Get_begin [id] 1 (-1) false s' = Some (GetReturned OK [Some v], s').
Proof.
  intros HPut Hno. apply Put_inv in HPut as [_ HPut].
  destruct (objects_ s !! id) as [o|] eqn:Hobj; [by destruct HPut|].
  simpl in HPut. destruct HPut as (_ & _ & Hobjs & _).
  rewrite Put_requests_add in Hobjs. simpl in Hobjs.
  assert (forallb (λ h, negb (from_option ShouldRemoveObjects false
                                 (get_request_heap s !! h)))
            (default [] (object_get_requests_ s !! id)) = true) as Hall.
  { apply forallb_forall. intros h Hin%list_elem_of_In.
    destruct (get_request_heap s !! h) as [g|] eqn:Hg; simpl; [|done].
    unfold ShouldRemoveObjects. by rewrite (Hno h g Hin Hg). }
  rewrite Hall in Hobjs.
  unfold Get_begin. simpl. rewrite Hobjs, lookup_insert_eq. simpl.
  rewrite elements_empty. simpl. rewrite <- Hobjs. by rewrite set_objects_id.
Qed.

Lemma C1_witness :
  Put ex_A ex_v (store_init false) = Some (OK, ex_store_A, []) ∧
  Get_begin [ex_A] 1 (-1) false ex_store_A = Some (GetReturned OK [Some ex_v], ex_store_A).
Proof.
  split; [reflexivity|].
  apply (C1_put_then_get_returns_object (store_init false) ex_store_A ex_A ex_v []);
    [reflexivity|].
  intros h g Hin. simpl in Hin. inversion Hin.
Defined.

(** The claim C1 as stated fails.  A reader blocked in
    [Get([A], 1, -1, true)] is registered under [A], which is not in the
    store.  [Put(A, v)] returns OK and hands [v] to that request only, so
    that a following [Get([A], 1, -1, false)] does not find [A]: it registers
    a request of its own and waits, instead of returning [[v]]. *)
Lemma C1_counterexample :
  IMS_reachable (mkIMS (ex_store_blocked true) ex_readers) ∧
  IsDirectCallType ex_A = true ∧
  objects_ (ex_store_blocked true) !! ex_A = None ∧
  Put ex_A ex_v (ex_store_blocked true)
  = Some (OK, ex_store_consumed, [CallSet 0 ex_A ex_v]) ∧
  (∃ s'', Get_begin [ex_A] 1 (-1) false ex_store_consumed
          = Some (GetBlocked 1 [None], s'')) ∧
  ¬ (∃ s'', Get_begin [ex_A] 1 (-1) false ex_store_consumed
            = Some (GetReturned OK [Some ex_v], s'')).
Proof.
  split; [apply ex_store_blocked_reachable|].
  repeat (split; [reflexivity|]).
  split; [eexists; reflexivity|].
  intros [s'' H]. discriminate H.
Qed.

(** ** C2: the requests registered in [object_get_requests_] *)

Lemma Put_requests_heap_elem id e l heap add h :
  h ∈ l →
  ∃ n, (Put_requests id e l heap add).1.1 !! h
       = Nat.iter (S n) (GetRequest_Set id e) <$> heap !! h.
Proof.
  revert heap add. induction l as [|x l IH]; intros heap add Hin.
  { by apply elem_of_nil in Hin. }
  simpl.
  pose proof (Put_requests_heap id e l (alter (GetRequest_Set id e) x heap)
     (if match heap !! x with Some g => ShouldRemoveObjects g | None => false end
      then false else add) h) as [n Hn].
  specialize (IH (alter (GetRequest_Set id e) x heap)
     (if match heap !! x with Some g => ShouldRemoveObjects g | None => false end
      then false else add)).
  destruct (Put_requests _ _ l _ _) as [[heap2 add2] effs]. simpl in *.
  destruct (decide (x = h)) as [->|Hne].
  - exists n. rewrite Hn, lookup_alter_eq. destruct (heap !! h); simpl; [|done].
    by rewrite <- Nat.iter_succ_r.
  - apply elem_of_cons in Hin as [->|Hin]; [done|].
    destruct (IH Hin) as [m Hm]. exists m. by rewrite Hm, lookup_alter_ne.
Qed.

Lemma GetRequest_Set_ready id e g :
  is_ready_ g = true → GetRequest_Set id e g = g.
Proof. unfold GetRequest_Set. by intros ->. Qed.

Lemma GetRequest_Set_iter_ready id e n g :
  is_ready_ g = true → Nat.iter n (GetRequest_Set id e) g = g.
Proof.
  intros H. induction n; simpl; [done|]. rewrite IHn. by apply GetRequest_Set_ready.
Qed.

(** C2, as the code has it.  In every reachable state of the store, a
    request registered in [object_get_requests_] that is not ready and was
    built needing at least one object holds fewer objects than it needs; a
    registered request that is ready holds exactly as many as it needs.  The
    second case is the state right after the [Put] whose [Set] delivers the
    last object: the request is then ready, holds [num_objects_] objects and
    is still registered under the id, until its reader deregisters it. *)
Theorem C2_registered_request_size
    (σ : IMS) (id : ObjectID) (l : list nat) (h : nat) (g : GetRequest) :
  IMS_reachable σ →
  object_get_requests_ (store σ) !! id = Some l →
  h ∈ l →
  get_request_heap (store σ) !! h = Some g →
  (if is_ready_ g
   then Z.of_nat (size (req_objects_ g)) = num_objects_ g
   else (0 < num_objects_ g → Z.of_nat (size (req_objects_ g)) < num_objects_ g)%Z) ∧
  (∀ object s' effs,
     Put id object (store σ) = Some (OK, s', effs) →
     is_ready_ g = false →
     req_objects_ g !! id = None →
     (Z.of_nat (size (req_objects_ g)) + 1 = num_objects_ g)%Z →
     object_get_requests_ s' !! id = Some l ∧
     ∃ g', get_request_heap s' !! h = Some g' ∧
           is_ready_ g' = true ∧
           Z.of_nat (size (req_objects_ g')) = num_objects_ g').
Proof.
  intros Hreach Hl Hin Hg. split.
  - pose proof (inv_requests _ (IMS_reachable_store_inv σ Hreach) h g Hg) as Hinv.
    unfold request_inv in Hinv. destruct (is_ready_ g); [done|]. lia.
  - intros object s' effs HPut Hready Hnew Hsize.
    apply Put_inv in HPut as [_ HPut].
    destruct (objects_ (store σ) !! id) as [o|] eqn:Hobj; [by destruct HPut|].
    simpl in HPut. destruct HPut as (_ & _ & _ & _ & Hsync & _ & Hheap & _).
    rewrite Hsync, Hheap, Hl. split; [done|]. simpl.
    destruct (Put_requests_heap_elem id object l (get_request_heap (store σ)) true h Hin)
      as [n ->].
    rewrite Hg.
    assert (is_ready_ (GetRequest_Set id object g) = true
            ∧ Z.of_nat (size (req_objects_ (GetRequest_Set id object g)))
              = num_objects_ (GetRequest_Set id object g)) as [Hr Hs].
    { unfold GetRequest_Set. rewrite Hready. simpl.
      rewrite emplace_size, Hnew.
      split; [apply bool_decide_eq_true|]; lia. }
    exists (GetRequest_Set id object g). split; [|done].
    change (Some (Nat.iter (S n) (GetRequest_Set id object) g)
            = Some (GetRequest_Set id object g)).
    by rewrite Nat.iter_succ_r, GetRequest_Set_iter_ready.
Qed.

Lemma C2_witness :
  IMS_reachable (mkIMS (ex_store_blocked false) ex_readers) ∧
  object_get_requests_ (ex_store_blocked false) !! ex_A = Some [0] ∧
  0 ∈ [0] ∧
  get_request_heap (ex_store_blocked false) !! 0
  = Some (mkGetRequest {[ex_A]} ∅ 1 false false) ∧
  (0 < 1 → Z.of_nat (size (∅ : gmap ObjectID RayObject)) < 1)%Z ∧
  object_get_requests_ ex_store_delivered !! ex_A = Some [0] ∧
  ∃ g', get_request_heap ex_store_delivered !! 0 = Some g' ∧
        is_ready_ g' = true ∧
        Z.of_nat (size (req_objects_ g')) = num_objects_ g'.
Proof.
  assert (0 ∈ [0]) as Hin by left.
  destruct (C2_registered_request_size
              (mkIMS (ex_store_blocked false) ex_readers) ex_A [0] 0
              (mkGetRequest {[ex_A]} ∅ 1 false false)
              (ex_store_blocked_reachable false) eq_refl Hin eq_refl) as [H1 H2].
  split; [apply ex_store_blocked_reachable|].
  split; [reflexivity|]. split; [exact Hin|]. split; [reflexivity|].
  split; [exact H1|].
  exact (H2 ex_v ex_store_delivered [CallSet 0 ex_A ex_v] eq_refl eq_refl eq_refl eq_refl).
Defined.

(** The claim C2 as stated fails: after [Put(A, v)] has delivered to the
    blocked reader of [Get([A], 1, -1, false)] the one object it needs, the
    request is still registered under [A] and holds [1] object out of
    [num_objects_ = 1]. *)
Lemma C2_counterexample :
  IMS_reachable (mkIMS ex_store_delivered ex_readers) ∧
  object_get_requests_ ex_store_delivered !! ex_A = Some [0] ∧
  get_request_heap ex_store_delivered !! 0
  = Some (mkGetRequest {[ex_A]} {[ex_A := ex_v]} 1 false true) ∧
  ¬ (Z.of_nat (size ({[ex_A := ex_v]} : gmap ObjectID RayObject)) < 1)%Z.
Proof.
  split; [apply ex_store_delivered_reachable|].
  split; [reflexivity|]. split; [reflexivity|].
  rewrite map_size_singleton. lia.
Qed.

Lemma C9_witness :
  (0 ≤ 1)%Z ∧ (1 ≤ found_in (objects_ ex_store_AB) [ex_A])%Z ∧
  Get_scan (objects_ ex_store_AB) 1 true [ex_A; ex_B] 0 (scan_init [ex_A; ex_B])
  = mkScan [Some ex_v; None] 1 {[ex_A]} ∅ ∧
  Get_begin [ex_A; ex_B] 1 (-1) true ex_store_AB
  = Some (GetReturned OK [Some ex_v; None], mkStore false {[ex_B := ex_w]} ∅ ∅ ∅ ∅) ∧
  ({[ex_B := ex_w]} : gmap ObjectID RayObject) !! ex_B = objects_ ex_store_AB !! ex_B.
Proof.
  assert (0 ≤ 1)%Z as H0 by lia.
  assert (1 ≤ found_in (objects_ ex_store_AB) [ex_A])%Z as H1 by (vm_compute; discriminate).
  assert (ex_B ∉ [ex_A]) as HB by (by intros [=]%list_elem_of_singleton).
  destruct (C9_scan_stops_at_num_objects ex_store_AB [ex_A] [ex_B] 1 (-1) true H0 H1)
    as (_ & Hscan & _ & _ & Hget & Hstay).
  split; [exact H0|]. split; [exact H1|].
  split; [exact Hscan|]. split; [exact Hget|]. exact (Hstay ex_B HB).
Defined.

(** The claim C9 as stated fails for the removal.  In
    [Get([A, A], 1, -1, true)] with [A] in the store the scan stops after
    position [0]; position [1] is left absent although its id is in the
    store, but that id is removed, being the id found at position [0]. *)
Lemma C9_counterexample :
  objects_ ex_store_A !! ex_A = Some ex_v ∧
  (1 ≤ found_in (objects_ ex_store_A) [ex_A])%Z ∧
  Get_begin ([ex_A] ++ [ex_A]) 1 (-1) true ex_store_A
  = Some (GetReturned OK [Some ex_v; None], store_init false) ∧
  objects_ (store_init false) !! ex_A = None ∧
  ¬ (∀ (s s' : CoreWorkerMemoryStore) (pre suf : list ObjectID)
       (num_objects timeout_ms : Z) (remove_after_get : bool) (ph : GetPhase),
       (0 ≤ num_objects)%Z →
       (num_objects ≤ found_in (objects_ s) pre)%Z →
       Get_begin (pre ++ suf) num_objects timeout_ms remove_after_get s = Some (ph, s') →
       ∀ id, id ∈ suf → objects_ s' !! id = objects_ s !! id).
Proof.
  split; [reflexivity|]. split; [vm_compute; discriminate|].
  split; [reflexivity|]. split; [reflexivity|].
  intros H.
  assert (ex_A ∈ [ex_A]) as Hin by left.
  assert (1 ≤ found_in (objects_ ex_store_A) [ex_A])%Z as H1 by (vm_compute; discriminate).
  specialize (H ex_store_A (store_init false) [ex_A] [ex_A] 1%Z (-1)%Z true
                (GetReturned OK [Some ex_v; None]) ltac:(lia) H1 eq_refl ex_A Hin).
  discriminate H.
Qed.

(** ** C8: the check of [DoInlineObjectValue] *)

Lemma inline_loop_spec obj_id value args found :
  inline_loop obj_id value args found
  = (map (λ arg, if refers_to obj_id arg then inline_into obj_id value arg else arg) args,
     found || bool_decide (0 < length (List.filter (refers_to obj_id) args))).
Proof.
  revert found. induction args as [|arg args IH]; intros found.
  - simpl. by rewrite orb_false_r.
  - destruct arg as [[|id more] data metadata];
      cbn [inline_loop map List.filter refers_to arg_object_ids].
    + by rewrite IH.
    + destruct (decide (id = obj_id)) as [->|Hne].
      * rewrite bool_decide_eq_true_2 by done. rewrite IH. simpl.
        by rewrite orb_true_r.
      * rewrite bool_decide_eq_false_2 by done. by rewrite IH.
Qed.

(** C8, as the code has it.  The check of [DoInlineObjectValue] fails exactly
    when no argument slot has [obj_id] as its first referenced id.  When one
    slot or several have it, there is no panic: every such slot is inlined
    and the other slots are left as they are. *)
Theorem C8_inline_panics_iff_no_slot
    (obj_id : ObjectID) (value : RayObject) (task : TaskSpecification) :
  DoInlineObjectValue obj_id value task
  = if bool_decide (0 < matching_slots obj_id task)
    then Some (mkTask (TaskId task) (NumReturns task)
                 (map (λ arg, if refers_to obj_id arg
                              then inline_into obj_id value arg else arg)
                    (task_args task)))
    else None.
Proof.
  unfold DoInlineObjectValue, matching_slots. rewrite inline_loop_spec. done.
Qed.

(** The claim C8 as stated fails: with the id in two slots, both are inlined
    and the check passes. *)
Lemma C8_counterexample :
  matching_slots ex_A ex_task = 2 ∧
  DoInlineObjectValue ex_A ex_v ex_task
  = Some (mkTask 7 1 [mkTaskArg [] [x01; x02]%byte []; mkTaskArg [] [x01; x02]%byte []]) ∧
  ¬ (matching_slots ex_A ex_task ≠ 1 → DoInlineObjectValue ex_A ex_v ex_task = None).
Proof.
  split; [reflexivity|]. split; [reflexivity|].
  intros H. assert (matching_slots ex_A ex_task ≠ 1) as Hne by (vm_compute; lia).
  specialize (H Hne). discriminate H.
Qed.

(** ** Auxiliary facts about the submitter *)

Lemma store_puts_app cs1 cs2 : store_puts (cs1 ++ cs2) = store_puts cs1 ++ store_puts cs2.
Proof.
  induction cs1 as [|c cs1 IH]; simpl; [done|]. destruct c; simpl; by rewrite ?IH.
Qed.

Lemma store_puts_effects effs : store_puts (map StoreEffect effs) = [].
Proof. induction effs; simpl; done. Qed.

Lemma is_store_call_effects effs : forallb is_store_call (map StoreEffect effs) = true.
Proof. induction effs; simpl; done. Qed.

Lemma filter_lease_store_calls cs :
  forallb is_store_call cs = true → List.filter is_lease_request cs = [].
Proof.
  induction cs as [|c cs IH]; simpl; [done|].
  intros [Hc Hcs]%andb_true_iff. destruct c; simpl in *; try done; by apply IH.
Qed.

Lemma Put_total id o s :
  IsDirectCallType id = true → promoted_ok s →
  ∃ status s' effs, Put id o s = Some (status, s', effs) ∧ promoted_ok s'.
Proof.
  intros Hd Hp.
  assert (∃ r, Put id o s = Some r) as [[[status s'] effs] HPut].
  { unfold Put. rewrite Hd. simpl.
    destruct (objects_ s !! id); [eauto|]. simpl.
    case_bool_decide as Hin.
    - rewrite Hp; [|intros Hempty; rewrite Hempty in Hin; by apply not_elem_of_empty in Hin].
      simpl.
      destruct (Put_requests _ _ _ _ _) as [[heap add] seffs]. eauto.
    - simpl. destruct (Put_requests _ _ _ _ _) as [[heap add] seffs]. eauto. }
  exists status, s', effs. split; [done|].
  apply Put_inv in HPut as [_ HPut].
  destruct (objects_ s !! id).
  - by destruct HPut as (_ & -> & _).
  - simpl in HPut. destruct HPut as (_ & Hsip & _ & _ & _ & Hprom & _).
    unfold promoted_ok. rewrite Hsip, Hprom. intros Hne. apply Hp.
    intros Hempty. apply Hne. rewrite Hempty. apply empty_difference_L.
Qed.

Lemma World_Put_inv id o w w' :
  World_Put id o w = Some w' →
  submitter w' = submitter w ∧
  ∃ status effs,
    Put id o (in_memory_store_ w) = Some (status, in_memory_store_ w', effs) ∧
    calls w' = calls w ++ StorePut id o status :: map StoreEffect effs.
Proof.
  unfold World_Put.
  destruct (Put id o (in_memory_store_ w)) as [[[status s'] effs]|]; simpl; [|done].
  intros [= <-]. simpl. eauto.
Qed.

(** What a run of [Put]s does: the submitter is left alone, and the calls it
    adds all go to the store, the [Put]s among them being the given ones. *)
Lemma put_each_inv puts w w' :
  put_each puts w = Some w' →
  submitter w' = submitter w ∧
  ∃ cs, calls w' = calls w ++ cs ∧
        forallb is_store_call cs = true ∧
        store_puts cs = puts.
Proof.
  revert w. induction puts as [|[id o] puts IH]; intros w; simpl.
  - intros [= <-]. split; [done|]. exists []. by rewrite app_nil_r.
  - destruct (World_Put id o w) as [w1|] eqn:H1; simpl; [|done].
    intros H2. apply World_Put_inv in H1 as (Hs1 & status & effs & _ & Hc1).
    apply IH in H2 as (Hs2 & cs & Hc2 & Hall & Hputs).
    split; [congruence|].
    exists (StorePut id o status :: map StoreEffect effs ++ cs).
    rewrite Hc2, Hc1, <- app_assoc. simpl. split; [done|].
    rewrite forallb_app, is_store_call_effects, Hall.
    by rewrite store_puts_app, store_puts_effects, Hputs.
Qed.



(** [TreatTaskAsFailed] calls [Put] once per return id, in order, with the
    failure object of the error type, and calls nothing but the store. *)
Lemma TreatTaskAsFailed_inv F task_id num_returns e w w' :
  TreatTaskAsFailed F task_id num_returns e w = Some w' →
  submitter w' = submitter w ∧
  ∃ cs, calls w' = calls w ++ cs ∧
        forallb is_store_call cs = true ∧
        store_puts cs = map (λ id, (id, failure_object e)) (return_ids F task_id num_returns).
Proof.
  intros H. apply put_each_inv in H as (Hs & cs & Hc & Hall & Hputs).
  split; [done|]. exists cs. repeat split; try done.
  rewrite Hputs. unfold return_ids. by rewrite map_map.
Qed.

Lemma RequestNewWorkerIfNeeded_inv spec env w w' :
  RequestNewWorkerIfNeeded spec env w = Some w' →
  worker_request_pending_ (submitter w') = true ∧
  queued_tasks_ (submitter w') = queued_tasks_ (submitter w) ∧
  client_cache_ (submitter w') = client_cache_ (submitter w) ∧
  in_memory_store_ w' = in_memory_store_ w ∧
  calls w' = calls w ++ (if worker_request_pending_ (submitter w) then []
                         else [RequestWorkerLease spec]) ∧
  (worker_request_pending_ (submitter w) = false → ok (lease_status env) = true).
Proof.
  unfold RequestNewWorkerIfNeeded.
  destruct (worker_request_pending_ (submitter w)) eqn:Hp.
  - intros [= <-]. rewrite app_nil_r. done.
  - destruct (ok (lease_status env)); [|done]. intros [= <-]. done.
Qed.

Lemma lease_balance_calls w w' cs :
  worker_request_pending_ (submitter w') = worker_request_pending_ (submitter w) →
  calls w' = calls w ++ cs →
  List.filter is_lease_request cs = [] →
  lease_balance w' = lease_balance w.
Proof.
  intros Hp Hc Hcs. unfold lease_balance, lease_requests.
  by rewrite Hp, Hc, List.filter_app, Hcs, app_nil_r.
Qed.

Lemma RequestNewWorkerIfNeeded_balance spec env w w' :
  RequestNewWorkerIfNeeded spec env w = Some w' →
  worker_request_pending_ (submitter w') = true ∧ lease_balance w' = lease_balance w.
Proof.
  intros H. apply RequestNewWorkerIfNeeded_inv in H as (Hp & _ & _ & _ & Hc & _).
  split; [done|]. unfold lease_balance, lease_requests. rewrite Hp, Hc, List.filter_app.
  destruct (worker_request_pending_ (submitter w)); simpl.
  - by rewrite app_nil_r.
  - rewrite length_app. simpl. lia.
Qed.

Lemma PushNormalTask_inv F addr client task env w w' :
  PushNormalTask F addr client task env w = Some w' →
  submitter w' = submitter w ∧
  ∃ cs, calls w' = calls w
                   ++ ClientPushNormalTask client task
                        (mkCompletion (TaskId task) (NumReturns task) addr) :: cs ∧
        forallb is_store_call cs = true ∧
        store_puts cs
        = if ok (push_status env) then []
          else map (λ id, (id, failure_object WORKER_DIED))
                 (return_ids F (TaskId task) (NumReturns task)).
Proof.
  unfold PushNormalTask. destruct (ok (push_status env)); simpl.
  - intros [= <-]. simpl. split; [done|]. by exists [].
  - intros H. apply TreatTaskAsFailed_inv in H as (Hs & cs & Hc & Hall & Hputs).
    split; [done|]. exists cs. simpl in Hc. by rewrite Hc, <- app_assoc.
Qed.

(** The part of [OnWorkerIdle] before the lease request. *)
Lemma OnWorkerIdle_inv F addr was_error env w w' :
  OnWorkerIdle F addr was_error env w = Some w' →
  (worker_request_pending_ (submitter w) = true →
   worker_request_pending_ (submitter w') = true) ∧
  lease_balance w' = lease_balance w ∧
  ∃ c cs, calls w' = calls w ++ c :: cs ∧
          (c = ReturnWorker addr.2 ∨
           ∃ client task completion, c = ClientPushNormalTask client task completion).
Proof.
  unfold OnWorkerIdle.
  destruct (bool_decide (queued_tasks_ (submitter w) = []) || was_error) eqn:Hret.
  - destruct (ok (return_status env)); simpl; [|done].
    destruct (queued_tasks_ (submitter w)) as [|front rest] eqn:Hq.
    + intros [= <-]. simpl. split; [done|]. split; [|eauto].
      by apply (lease_balance_calls _ _ [ReturnWorker addr.2]).
    + intros H. pose proof (RequestNewWorkerIfNeeded_balance _ _ _ _ H) as [Hp Hb].
      apply RequestNewWorkerIfNeeded_inv in H as (_ & _ & _ & _ & Hc & _).
      split; [done|]. split.
      * rewrite Hb. by apply (lease_balance_calls _ _ [ReturnWorker addr.2]).
      * simpl in Hc. rewrite <- app_assoc in Hc. simpl in Hc. eauto.
  - destruct (client_cache_ (submitter w) !! addr) as [client|]; simpl; [|done].
    destruct (head (queued_tasks_ (submitter w))) as [front|]; simpl; [|done].
    destruct (PushNormalTask F addr client front env w) as [w1|] eqn:HPush; simpl; [|done].
    apply PushNormalTask_inv in HPush as (Hs & cs & Hc & Hall & _).
    assert (lease_balance (pop_front w1) = lease_balance w) as Hb1.
    { eapply (lease_balance_calls _ _ (_ :: cs)); simpl; [by rewrite Hs|exact Hc|].
      by apply filter_lease_store_calls. }
    destruct (tail (queued_tasks_ (submitter w1))) as [|front' rest].
    + intros [= <-]. simpl. rewrite Hs. split; [done|]. split; [done|].
      rewrite Hc. eauto 10.
    + intros H. pose proof (RequestNewWorkerIfNeeded_balance _ _ _ _ H) as [Hp Hb].
      apply RequestNewWorkerIfNeeded_inv in H as (_ & _ & _ & _ & Hc' & _).
      split; [done|]. split; [congruence|].
      simpl in Hc'. rewrite Hc, <- app_assoc in Hc'. simpl in Hc'. eauto 10.
Qed.

Lemma put_each_balance puts w w' :
  put_each puts w = Some w' →
  submitter w' = submitter w ∧ lease_balance w' = lease_balance w.
Proof.
  intros H. apply put_each_inv in H as (Hs & cs & Hc & Hall & _).
  split; [done|]. eapply lease_balance_calls; [by rewrite Hs|exact Hc|].
  by apply filter_lease_store_calls.
Qed.

Lemma SubmitTask_on_complete_balance task env w w' :
  SubmitTask_on_complete task env w = Some w' →
  worker_request_pending_ (submitter w') = true ∧ lease_balance w' = lease_balance w.
Proof.
  unfold SubmitTask_on_complete.
  destruct (RequestNewWorkerIfNeeded task env w) as [w1|] eqn:H; simpl; [|done].
  intros [= <-]. by apply RequestNewWorkerIfNeeded_balance in H as [Hp Hb].
Qed.

Lemma HandleWorkerLeaseGranted_setup_requests addr w :
  lease_requests (HandleWorkerLeaseGranted_setup addr w) = lease_requests w ∧
  worker_request_pending_ (submitter (HandleWorkerLeaseGranted_setup addr w)) = false.
Proof.
  unfold HandleWorkerLeaseGranted_setup, lease_requests.
  destruct (client_cache_ (submitter w) !! addr); simpl; [done|].
  by rewrite List.filter_app, app_nil_r.
Qed.

(** In every reachable state the lease requests made are the grants
    received, plus one when the flag is set. *)
Lemma DTS_reachable_balance F σ :
  DTS_reachable F σ → lease_balance (world σ) = Z.of_nat (leases_granted σ).
Proof.
  intros [s Hrtc]. revert σ Hrtc.
  apply (rtc_ind_r (λ σ, lease_balance (world σ) = Z.of_nat (leases_granted σ))).
  - done.
  - intros σ1 σ2 _ Hstep IH. destruct Hstep; simpl.
    + apply SubmitTask_on_complete_balance in H as [_ ->]. done.
    + destruct (HandleWorkerLeaseGranted_setup_requests addr (world σ)) as [Hr Hp].
      unfold lease_balance in *. rewrite Hr, Hp.
      destruct (worker_request_pending_ (submitter (world σ))); lia.
    + apply OnWorkerIdle_inv in H as (_ & -> & _). done.
    + apply put_each_balance in H as [_ ->]. done.
    + apply put_each_balance in H as [_ ->]. done.
    + done.
Qed.

(** ** C6: at most one outstanding lease request *)

(** C6.  In every reachable state of the submitter the number of lease
    requests issued and not yet granted is [1] when
    [worker_request_pending_] is set and [0] otherwise, so at most one;
    [RequestNewWorkerIfNeeded] calls [RequestWorkerLease] exactly when the
    flag is clear, and leaves the flag set; a step that clears the flag is
    the critical section of [HandleWorkerLeaseGranted]. *)
Theorem C6_at_most_one_outstanding_lease_request
    (ForTaskReturn : N → nat → ObjectID) (σ : DTS) :
  DTS_reachable ForTaskReturn σ →
  (0 ≤ outstanding_lease_requests σ ≤ 1)%Z ∧
  outstanding_lease_requests σ
  = (if worker_request_pending_ (submitter (world σ)) then 1 else 0)%Z ∧
  (∀ resource_spec env w',
     RequestNewWorkerIfNeeded resource_spec env (world σ) = Some w' →
     worker_request_pending_ (submitter w') = true ∧
     calls w' = calls (world σ)
                ++ (if worker_request_pending_ (submitter (world σ)) then []
                    else [RequestWorkerLease resource_spec])) ∧
  (∀ σ', DTS_step ForTaskReturn σ σ' →
         worker_request_pending_ (submitter (world σ)) = true →
         worker_request_pending_ (submitter (world σ')) = false →
         ∃ addr, σ' = mkDTS (HandleWorkerLeaseGranted_setup addr (world σ))
                        (S (leases_granted σ))).
Proof.
  intros Hreach. pose proof (DTS_reachable_balance _ _ Hreach) as Hb.
  assert (outstanding_lease_requests σ
          = (if worker_request_pending_ (submitter (world σ)) then 1 else 0)%Z) as Hout.
  { unfold outstanding_lease_requests. unfold lease_balance in Hb. lia. }
  split; [|split; [done|split]].
  - rewrite Hout. destruct (worker_request_pending_ (submitter (world σ))); lia.
  - intros spec env w' H.
    by apply RequestNewWorkerIfNeeded_inv in H as (Hp & _ & _ & _ & Hc & _).
  - intros σ' Hstep Hset Hclear. destruct Hstep; simpl in *.
    + apply SubmitTask_on_complete_balance in H as [Hp _]. congruence.
    + eauto.
    + apply OnWorkerIdle_inv in H as (Hmono & _). rewrite Hmono in Hclear; done.
    + apply put_each_balance in H as [Hs _]. congruence.
    + apply put_each_balance in H as [Hs _]. congruence.
    + congruence.
Qed.

Lemma ex_world_queued_reachable :
  DTS_reachable ex_ForTaskReturn (mkDTS ex_world_queued 0).
Proof.
  exists (store_init false). eapply rtc_l; [|apply rtc_refl].
  apply (step_task_resolved ex_ForTaskReturn ex_task ex_env_ok
           (DTS_init (store_init false)) ex_world_queued).
  reflexivity.
Qed.

Lemma C6_witness :
  DTS_reachable ex_ForTaskReturn (mkDTS ex_world_queued 0) ∧
  outstanding_lease_requests (mkDTS ex_world_queued 0) = 1%Z ∧
  RequestNewWorkerIfNeeded ex_task ex_env_ok ex_world_queued = Some ex_world_queued.
Proof.
  destruct (C6_at_most_one_outstanding_lease_request ex_ForTaskReturn
              (mkDTS ex_world_queued 0) ex_world_queued_reachable) as (_ & H & _).
  split; [apply ex_world_queued_reachable|]. split; [exact H|reflexivity].
Defined.

(** ** A run of [Put]s of one object *)














(** ** C5: a push that completes with an error *)




(** ** C10: a push whose submission fails *)


(** The two failure paths on the concrete inputs: the completion returns the
    worker and writes the failure object; the failed submission writes the
    failure object and the worker is neither returned nor given a task. *)
Example ex_completion_fails :
  PushNormalTask_completion ex_ForTaskReturn ex_completion IOError [] ex_env_ok ex_world_busy
  = Some (mkWorld (mkSubmitter [] {[ex_addr := mkClient ex_addr]} false)
            (mkStore false {[ex_ForTaskReturn 7 1 := failure_object WORKER_DIED]} ∅ ∅ ∅ ∅)
            [ReturnWorker 1;
             StorePut (ex_ForTaskReturn 7 1) (failure_object WORKER_DIED) OK]).
Proof. reflexivity. Qed.

Example ex_submission_fails :
  OnWorkerIdle ex_ForTaskReturn ex_addr false ex_env_push_fails ex_world_granted
  = Some (mkWorld (mkSubmitter [] {[ex_addr := mkClient ex_addr]} false)
            (mkStore false {[ex_ForTaskReturn 7 1 := failure_object WORKER_DIED]} ∅ ∅ ∅ ∅)
            [RequestWorkerLease ex_task; ClientFactory ex_addr;
             ClientPushNormalTask (mkClient ex_addr) ex_task ex_completion;
             StorePut (ex_ForTaskReturn 7 1) (failure_object WORKER_DIED) OK]).
Proof. reflexivity. Qed.





(* ================================================================== *)
(** * Further properties of the store *)

(** ** The waiter tables *)

Lemma register_lookup h l (m : gmap ObjectID (list nat)) k :
  NoDup l →
  foldr (register h) m l !! k
  = if bool_decide (k ∈ l) then Some (default [] (m !! k) ++ [h]) else m !! k.
Proof.
  induction l as [|y l IH]; intros Hnd; cbn [foldr].
  - rewrite bool_decide_eq_false_2; [done|]. by intros ?%elem_of_nil.
  - apply NoDup_cons in Hnd as [Hy Hnd]. specialize (IH Hnd). unfold register at 1.
    destruct (decide (y = k)) as [->|Hne].
    + rewrite lookup_insert_eq, bool_decide_eq_true_2 by left.
      rewrite IH, bool_decide_eq_false_2 by done. done.
    + rewrite lookup_insert_ne, IH by done.
      destruct (decide (k ∈ l)) as [Hin|Hin].
      * rewrite !bool_decide_eq_true_2; [done| |done]. by right.
      * rewrite !bool_decide_eq_false_2; [done| |done].
        intros [?|?]%elem_of_cons; congruence.
Qed.

Lemma deregister_one h y (m : gmap ObjectID (list nat)) k :
  deregister h y m !! k = if decide (y = k) then deregistered h (m !! k) else m !! k.
Proof.
  unfold deregister, deregistered. destruct (decide (y = k)) as [->|Hne].
  - destruct (m !! k) as [l|] eqn:Hl; [|done].
    case_bool_decide; [|done].
    destruct (erase_first h l); [by rewrite lookup_delete_eq|by rewrite lookup_insert_eq].
  - destruct (m !! y) as [l|]; [|done].
    case_bool_decide; [|done].
    destruct (erase_first h l);
      [by rewrite lookup_delete_ne|by rewrite lookup_insert_ne].
Qed.

Lemma deregister_lookup h l (m : gmap ObjectID (list nat)) k :
  NoDup l →
  foldr (deregister h) m l !! k
  = if bool_decide (k ∈ l) then deregistered h (m !! k) else m !! k.
Proof.
  induction l as [|y l IH]; intros Hnd; cbn [foldr].
  - rewrite bool_decide_eq_false_2; [done|]. by intros ?%elem_of_nil.
  - apply NoDup_cons in Hnd as [Hy Hnd]. specialize (IH Hnd).
    rewrite deregister_one. destruct (decide (y = k)) as [->|Hne].
    + rewrite bool_decide_eq_true_2 by left.
      rewrite IH, bool_decide_eq_false_2 by done. done.
    + rewrite IH.
      destruct (decide (k ∈ l)) as [Hin|Hin].
      * rewrite !bool_decide_eq_true_2; [done| |done]. by right.
      * rewrite !bool_decide_eq_false_2; [done| |done].
        intros [?|?]%elem_of_cons; congruence.
Qed.

Lemma erase_first_NoDup h l : NoDup l → NoDup (erase_first h l) ∧ h ∉ erase_first h l.
Proof.
  induction l as [|y l IH]; simpl; intros Hnd.
  - split; [constructor|]. by intros ?%elem_of_nil.
  - apply NoDup_cons in Hnd as [Hy Hnd]. destruct (decide (y = h)) as [->|Hne].
    + done.
    + destruct (IH Hnd) as [IH1 IH2]. split.
      * apply NoDup_cons. split; [|done]. intros Hin. by apply erase_first_elem in Hin.
      * intros [?|?]%elem_of_cons; [congruence|done].
Qed.

Lemma erase_first_not_elem h l : h ∉ l → erase_first h l = l.
Proof.
  induction l as [|y l IH]; simpl; [done|]. intros Hnin.
  destruct (decide (y = h)) as [->|Hne].
  - destruct Hnin. left.
  - rewrite IH; [done|]. intros Hin. apply Hnin. by right.
Qed.

Lemma erase_first_snoc h l : h ∉ l → erase_first h (l ++ [h]) = l.
Proof.
  induction l as [|y l IH]; simpl; intros Hnin.
  - by rewrite decide_True.
  - destruct (decide (y = h)) as [->|Hne].
    + destruct Hnin. left.
    + rewrite IH; [done|]. intros Hin. apply Hnin. by right.
Qed.

Lemma deregistered_spec h o l' :
  (∀ l, o = Some l → l ≠ [] ∧ NoDup l) →
  deregistered h o = Some l' →
  l' ≠ [] ∧ NoDup l' ∧ (h ∉ l') ∧ ∃ l, o = Some l ∧ ∀ x, x ∈ l' → x ∈ l.
Proof.
  intros Hwf. unfold deregistered. destruct o as [l|]; [|done].
  destruct (Hwf l eq_refl) as [Hne Hnd].
  case_bool_decide as Hin.
  - destruct (erase_first_NoDup h l Hnd) as [Hnd' Hnin].
    destruct (erase_first h l) as [|x l1] eqn:He; [done|].
    intros [= <-]. repeat split; [done..|].
    exists l. split; [done|]. intros y Hy. apply (erase_first_elem h). by rewrite He.
  - intros [= <-]. repeat split; [done..|]. eauto.
Qed.

Lemma GetRequest_Set_object_ids id e g :
  object_ids_ (GetRequest_Set id e g) = object_ids_ g.
Proof. unfold GetRequest_Set. by destruct (is_ready_ g). Qed.

Lemma GetRequest_Set_iter_object_ids id e n g :
  object_ids_ (Nat.iter n (GetRequest_Set id e) g) = object_ids_ g.
Proof.
  induction n; simpl; [done|]. by rewrite GetRequest_Set_object_ids.
Qed.

Lemma store_init_waiters_inv b : waiters_inv (store_init b).
Proof.
  split; simpl.
  - intros id [? H]. by rewrite lookup_empty in H.
  - intros id H. by apply not_elem_of_empty in H.
  - intros id l H. by rewrite lookup_empty in H.
  - intros id l h H. by rewrite lookup_empty in H.
Qed.

Lemma Put_waiters_inv id obj s status s' effs :
  Put id obj s = Some (status, s', effs) → waiters_inv s → waiters_inv s'.
Proof.
  intros H [Ha Hp Hl Ho]. apply Put_inv in H as [Hdirect H].
  destruct (objects_ s !! id) as [o|] eqn:Hobj.
  { destruct H as (_ & -> & _). by split. }
  simpl in H. destruct H as (_ & Hsip & Hobjs & Hasync & Hsync & Hprom & Hheap & _).
  assert (∀ k, is_Some (objects_ s' !! k) → k = id ∨ is_Some (objects_ s !! k)) as Hkeys.
  { intros k. rewrite Hobjs. destruct (Put_requests _ _ _ _ _).1.2; [|auto].
    destruct (decide (id = k)) as [<-|Hne]; [auto|].
    rewrite lookup_insert_ne by done. auto. }
  split.
  - intros k Hk. rewrite Hasync. destruct (decide (id = k)) as [<-|Hne].
    + apply lookup_delete_eq.
    + rewrite lookup_delete_ne by done. apply Ha.
      destruct (Hkeys k Hk) as [->|?]; done.
  - intros k. rewrite Hprom, Hsip. intros [Hk Hne]%elem_of_difference.
    destruct (Hp k Hk) as [Hs Hnone]. split; [done|].
    destruct (objects_ s' !! k) eqn:Hk'; [|done].
    destruct (Hkeys k (mk_is_Some _ _ Hk')) as [->|[? ?]]; [|congruence].
    destruct Hne. by apply elem_of_singleton.
  - intros k l. rewrite Hsync. apply Hl.
  - intros k l h. rewrite Hsync, Hheap. intros Hk Hin.
    destruct (Ho k l h Hk Hin) as (g & Hg & Hids).
    destruct (Put_requests_heap id obj (default [] (object_get_requests_ s !! id))
                (get_request_heap s) true h) as [n ->].
    rewrite Hg. simpl. eexists. split; [done|].
    by rewrite GetRequest_Set_iter_object_ids.
Qed.

Lemma Get_begin_waiters_inv ids num t rm s ph s' :
  Get_begin ids num t rm s = Some (ph, s') → waiters_inv s → waiters_inv s'.
Proof.
  intros H [Ha Hp Hl Ho]. apply Get_begin_inv in H. simpl in H.
  destruct H as (_ & _ & Hsip & Hobjs & Hasync & Hprom & H).
  assert (∀ k, is_Some (objects_ s' !! k) → is_Some (objects_ s !! k)) as Hkeys.
  { intros k. rewrite Hobjs, foldr_delete_lookup.
    case_bool_decide; [by intros [? ?]|done]. }
  assert (∀ k, objects_ s !! k = None → objects_ s' !! k = None) as Hnone.
  { intros k Hk. destruct (objects_ s' !! k) eqn:Hk'; [|done].
    destruct (Hkeys k (mk_is_Some _ _ Hk')). congruence. }
  destruct ph as [status res|h res].
  - destruct H as (_ & _ & Hsync & Hheap). split.
    + intros k Hk. rewrite Hasync. auto.
    + intros k. rewrite Hprom, Hsip. intros Hk. destruct (Hp k Hk). auto.
    + intros k l. rewrite Hsync. apply Hl.
    + intros k l h. rewrite Hsync, Hheap. apply Ho.
  - destruct H as (_ & _ & _ & Hh & g & Hg & Hheap & Hsync).
    assert (object_ids_ g = remaining_ids (scan_spec (objects_ s) num rm ids 0 ∅ ∅))
      as Hgids.
    { unfold GetRequest_new in Hg. case_bool_decide; [|done]. by simplify_eq. }
    assert (get_request_heap s !! h = None) as Hfresh.
    { apply not_elem_of_dom. rewrite Hh. apply is_fresh. }
    assert (∀ k l, object_get_requests_ s !! k = Some l → h ∉ l) as Hnotin.
    { intros k l Hk Hin. destruct (Ho k l h Hk Hin) as (? & ? & _). congruence. }
    split.
    + intros k Hk. rewrite Hasync. auto.
    + intros k. rewrite Hprom, Hsip. intros Hk. destruct (Hp k Hk). auto.
    + intros k l. rewrite Hsync, register_lookup by apply NoDup_elements.
      case_bool_decide as Hin; [|apply Hl].
      intros [= <-]. split; [by destruct (default [] _)|].
      apply NoDup_app. destruct (object_get_requests_ s !! k) as [l0|] eqn:Hk; simpl.
      * split; [by apply (Hl k)|]. split; [|apply NoDup_singleton].
        intros x Hx ->%list_elem_of_singleton. by apply (Hnotin k l0).
      * split; [constructor|]. split; [|apply NoDup_singleton].
        by intros x ?%elem_of_nil.
    + intros k l x. rewrite Hsync, Hheap, register_lookup by apply NoDup_elements.
      case_bool_decide as Hin.
      * intros [= <-] [Hx|Hx]%elem_of_app.
        -- destruct (object_get_requests_ s !! k) as [l0|] eqn:Hk; simpl in Hx;
             [|by apply elem_of_nil in Hx].
           destruct (Ho k l0 x Hk Hx) as (g0 & Hg0 & Hids).
           exists g0. split; [|done]. rewrite lookup_insert_ne; [done|].
           intros <-. congruence.
        -- apply list_elem_of_singleton in Hx as ->. exists g.
           rewrite lookup_insert_eq. split; [done|].
           rewrite Hgids. by apply elem_of_elements.
      * intros Hk Hx. destruct (Ho k l x Hk Hx) as (g0 & Hg0 & Hids).
        exists g0. split; [|done]. rewrite lookup_insert_ne; [done|].
        intros <-. congruence.
Qed.

Lemma Get_end_waiters_inv ids res h done s status res' s' :
  Get_end ids res h done s = Some (status, res', s') → waiters_inv s → waiters_inv s'.
Proof.
  unfold Get_end. intros H [Ha Hp Hl Ho].
  destruct (get_request_heap s !! h) as [g|]; simpl in H; [|done].
  simplify_eq. split; simpl; [done..| |].
  - intros k l. rewrite deregister_lookup by apply NoDup_elements.
    case_bool_decide; [|apply Hl].
    intros Hd. apply deregistered_spec in Hd as (? & ? & _); [done|]. apply Hl.
  - intros k l x. rewrite deregister_lookup by apply NoDup_elements.
    case_bool_decide; [|apply Ho].
    intros Hd Hx. apply deregistered_spec in Hd as (_ & _ & _ & l0 & Hl0 & Hsub);
      [|apply Hl].
    apply (Ho k l0 x Hl0). auto.
Qed.

Lemma IMS_step_waiters_inv σ σ' :
  IMS_step σ σ' → waiters_inv (store σ) → waiters_inv (store σ').
Proof.
  intros Hstep Hinv. destruct Hstep; simpl.
  - by eapply Put_waiters_inv.
  - destruct Hinv as [Ha Hp Hl Ho]. unfold GetAsync.
    destruct (objects_ (store σ) !! object_id) eqn:Hobj; simpl; [by split|].
    split; simpl; [|done..].
    intros k Hk. destruct (decide (object_id = k)) as [<-|Hne].
    + destruct Hk. congruence.
    + rewrite lookup_insert_ne by done. by apply Ha.
  - destruct Hinv as [Ha Hp Hl Ho]. unfold GetOrPromoteToPlasma in *.
    destruct (objects_ (store σ) !! object_id) as [o|] eqn:Hobj.
    + destruct (IsInPlasmaError o); simplify_eq; by split.
    + destruct (store_in_plasma_ (store σ)) eqn:Hsip; simplify_eq.
      split; simpl; [done| |done..].
      intros k [->%elem_of_singleton|Hk]%elem_of_union; [done|].
      destruct (Hp k Hk). by rewrite <- Hsip.
  - destruct Hinv as [Ha Hp Hl Ho]. split; simpl; [| |done..].
    + intros k [v Hv]. apply foldl_delete_lookup_Some in Hv. eauto.
    + intros k Hk. destruct (Hp k Hk) as [? Hnone]. split; [done|].
      destruct (foldl _ _ _ !! k) eqn:Hk'; [|done].
      apply foldl_delete_lookup_Some in Hk'. congruence.
  - by eapply Get_begin_waiters_inv.
  - by eapply Get_begin_waiters_inv.
  - by eapply Get_end_waiters_inv.
Qed.

Lemma IMS_reachable_waiters_inv σ : IMS_reachable σ → waiters_inv (store σ).
Proof.
  intros [b Hrtc]. revert σ Hrtc.
  apply (rtc_ind_r (λ σ, waiters_inv (store σ))).
  - apply store_init_waiters_inv.
  - intros σ1 σ2 _ Hstep IH. by eapply IMS_step_waiters_inv.
Qed.

(** ** Invariants read off the store operations *)

(** X1.  In every reachable state of the store, every id that has an object
    in [objects_] is a direct-call id: [Put] is the only operation that
    inserts, and it checks the id first. *)
Theorem X1_objects_are_direct_call (σ : IMS) (id : ObjectID) :
  IMS_reachable σ →
  is_Some (objects_ (store σ) !! id) →
  IsDirectCallType id = true.
Proof. intros Hreach. apply (inv_direct _ (IMS_reachable_store_inv σ Hreach)). Qed.

Lemma X1_witness :
  IMS_reachable (mkIMS ex_store_A ∅) ∧ is_Some (objects_ ex_store_A !! ex_A) ∧
  IsDirectCallType ex_A = true.
Proof.
  assert (is_Some (objects_ ex_store_A !! ex_A)) as Hin by (by exists ex_v).
  split; [apply ex_store_A_reachable|]. split; [exact Hin|].
  exact (X1_objects_are_direct_call (mkIMS ex_store_A ∅) ex_A ex_store_A_reachable Hin).
Defined.

(** X2.  In every reachable state of the store, no asynchronous callback is
    waiting on an id that has an object in [objects_]: [GetAsync] queues a
    callback only when the id is missing, and [Put] takes the whole queue of
    the id before it inserts. *)
Theorem X2_no_async_waiter_on_stored_object (σ : IMS) (id : ObjectID) :
  IMS_reachable σ →
  is_Some (objects_ (store σ) !! id) →
  object_async_get_requests_ (store σ) !! id = None.
Proof. intros Hreach. apply (winv_async _ (IMS_reachable_waiters_inv σ Hreach)). Qed.

Lemma ex_async_then_put_reachable :
  IMS_reachable (mkIMS ex_store_A ∅).
Proof.
  exists false. eapply rtc_l; [apply (step_GetAsync ex_A 5 (IMS_init false))|].
  eapply rtc_l; [|apply rtc_refl].
  apply (step_Put ex_A ex_v (mkIMS (GetAsync ex_A 5 (store_init false)).1 ∅) OK
           ex_store_A [CallCallback 5 ex_v]).
  reflexivity.
Qed.

Lemma X2_witness :
  IMS_reachable (mkIMS ex_store_A ∅) ∧ is_Some (objects_ ex_store_A !! ex_A) ∧
  object_async_get_requests_ ex_store_A !! ex_A = None.
Proof.
  assert (is_Some (objects_ ex_store_A !! ex_A)) as Hin by (by exists ex_v).
  split; [apply ex_async_then_put_reachable|]. split; [exact Hin|].
  exact (X2_no_async_waiter_on_stored_object (mkIMS ex_store_A ∅) ex_A
           ex_async_then_put_reachable Hin).
Defined.

Lemma waiters_inv_promoted_ok s : waiters_inv s → promoted_ok s.
Proof.
  intros Hinv Hne. apply set_choose_L in Hne as [id Hid].
  by destruct (winv_promoted _ Hinv id Hid).
Qed.

(** X3.  In every reachable state of the store, [Put] on a direct-call id
    does not abort: it returns [ObjectExists] when the id has an object and
    OK when it has none.  The check on the plasma callback cannot fail,
    because an id is promoted only by [GetOrPromoteToPlasma], which has made
    the same check. *)
Theorem X3_put_never_aborts_on_direct_id (σ : IMS) (id : ObjectID) (object : RayObject) :
  IMS_reachable σ →
  IsDirectCallType id = true →
  ∃ status s' effs,
    Put id object (store σ) = Some (status, s', effs) ∧
    status = (if objects_ (store σ) !! id is Some _ then ObjectExists else OK).
Proof.
  intros Hreach Hd.
  pose proof (waiters_inv_promoted_ok _ (IMS_reachable_waiters_inv σ Hreach)) as Hp.
  destruct (Put_total id object (store σ) Hd Hp) as (status & s' & effs & HPut & _).
  exists status, s', effs. split; [done|].
  apply Put_inv in HPut as [_ HPut].
  destruct (objects_ (store σ) !! id); [by destruct HPut|].
  simpl in HPut. by destruct HPut.
Qed.

Lemma X3_witness :
  IMS_reachable (mkIMS (ex_store_blocked true) ex_readers) ∧
  IsDirectCallType ex_A = true ∧
  ∃ status s' effs,
    Put ex_A ex_v (ex_store_blocked true) = Some (status, s', effs) ∧ status = OK.
Proof.
  split; [apply ex_store_blocked_reachable|]. split; [reflexivity|].
  exact (X3_put_never_aborts_on_direct_id (mkIMS (ex_store_blocked true) ex_readers)
           ex_A ex_v (ex_store_blocked_reachable true) eq_refl).
Defined.

(** X4.  In every reachable state of the store, a vector of
    [object_get_requests_] is not empty and holds no request twice, and each
    request in the vector of an id is live and has that id among the ids it
    awaits. *)
Theorem X4_registered_requests_well_formed
    (σ : IMS) (id : ObjectID) (l : list nat) :
  IMS_reachable σ →
  object_get_requests_ (store σ) !! id = Some l →
  l ≠ [] ∧ NoDup l ∧
  ∀ h, h ∈ l → ∃ g, get_request_heap (store σ) !! h = Some g ∧ id ∈ object_ids_ g.
Proof.
  intros Hreach Hl. pose proof (IMS_reachable_waiters_inv σ Hreach) as Hinv.
  destruct (winv_lists _ Hinv id l Hl) as [Hne Hnd]. repeat split; [done..|].
  intros h Hin. by apply (winv_owner _ Hinv id l).
Qed.

Lemma X4_witness :
  IMS_reachable (mkIMS ex_store_delivered ex_readers) ∧
  object_get_requests_ ex_store_delivered !! ex_A = Some [0] ∧
  [0] ≠ [] ∧ NoDup [0] ∧
  ∀ h, h ∈ [0] →
       ∃ g, get_request_heap ex_store_delivered !! h = Some g ∧ ex_A ∈ object_ids_ g.
Proof.
  split; [apply ex_store_delivered_reachable|]. split; [reflexivity|].
  exact (X4_registered_requests_well_formed (mkIMS ex_store_delivered ex_readers)
           ex_A [0] ex_store_delivered_reachable eq_refl).
Defined.

(** X5.  In every reachable state of the store, once the part of [Get] that
    follows the wait has run for a request, whether the wait was satisfied
    or timed out, that request is registered under no id any more, and no
    vector is left empty; nothing but [object_get_requests_] is changed. *)
Theorem X5_get_deregisters_its_request
    (σ : IMS) (ids : list ObjectID) (res res' : list (option RayObject))
    (h : nat) (done : bool) (status : Status) (s' : CoreWorkerMemoryStore) :
  IMS_reachable σ →
  Get_end ids res h done (store σ) = Some (status, res', s') →
  status = (if done then OK else TimedOut) ∧
  (∀ id l, object_get_requests_ s' !! id = Some l → (h ∉ l) ∧ l ≠ []) ∧
  objects_ s' = objects_ (store σ) ∧
  object_async_get_requests_ s' = object_async_get_requests_ (store σ) ∧
  promoted_to_plasma_ s' = promoted_to_plasma_ (store σ) ∧
  get_request_heap s' = get_request_heap (store σ).
Proof.
  intros Hreach H. pose proof (IMS_reachable_waiters_inv σ Hreach) as [Ha Hp Hl Ho].
  unfold Get_end in H.
  destruct (get_request_heap (store σ) !! h) as [g|] eqn:Hg; simpl in H; [|done].
  simplify_eq. simpl. repeat split; try done.
  - revert H. rewrite deregister_lookup by apply NoDup_elements.
    case_bool_decide as Hin.
    + intros Hd. apply deregistered_spec in Hd as (_ & _ & Hnin & _); [done|]. apply Hl.
    + intros Hk Hh. destruct (Ho id l h Hk Hh) as (g' & Hg' & Hid).
      apply Hin. apply elem_of_elements. congruence.
  - revert H. rewrite deregister_lookup by apply NoDup_elements.
    case_bool_decide as Hin.
    + intros Hd. apply deregistered_spec in Hd as (? & _); [done|]. apply Hl.
    + intros Hk. by destruct (Hl id l Hk).
Qed.

Lemma X5_witness :
  IMS_reachable (mkIMS ex_store_delivered ex_readers) ∧
  Get_end [ex_A] [None] 0 true ex_store_delivered
  = Some (OK, [Some ex_v],
          mkStore false {[ex_A := ex_v]} ∅ ∅ ∅
            {[0 := mkGetRequest {[ex_A]} {[ex_A := ex_v]} 1 false true]}) ∧
  ∀ id l, (∅ : gmap ObjectID (list nat)) !! id = Some l → (0 ∉ l) ∧ l ≠ [].
Proof.
  split; [apply ex_store_delivered_reachable|]. split; [reflexivity|].
  exact (proj1 (proj2 (X5_get_deregisters_its_request
           (mkIMS ex_store_delivered ex_readers) [ex_A] [None] [Some ex_v] 0 true OK
           (mkStore false {[ex_A := ex_v]} ∅ ∅ ∅
              {[0 := mkGetRequest {[ex_A]} {[ex_A := ex_v]} 1 false true]})
           ex_store_delivered_reachable eq_refl))).
Defined.

(** ** How the operations of the store compose *)

Lemma Get_populate_empty ids res g :
  req_objects_ g = ∅ → length res ≤ length ids → Get_populate ids res g = res.
Proof.
  intros Hg. unfold Get_populate, GetRequest_Get. rewrite Hg. clear Hg.
  revert ids. induction res as [|r res IH]; intros [|id ids] Hlen; simpl in *; try done.
  - lia.
  - rewrite IH by lia. by destruct r.
Qed.

(** X6.  Registration and deregistration are inverse: in every reachable
    state of the store, a [Get] that blocks and whose wait then times out
    before any other operation returns [TimedOut] with the results of its
    scan, and leaves [object_get_requests_] exactly as it was before the
    call. *)
Theorem X6_timed_out_get_restores_waiters
    (σ : IMS) (ids : list ObjectID) (num_objects timeout_ms : Z)
    (remove_after_get : bool) (h : nat) (res : list (option RayObject))
    (s1 : CoreWorkerMemoryStore) :
  IMS_reachable σ →
  Get_begin ids num_objects timeout_ms remove_after_get (store σ)
  = Some (GetBlocked h res, s1) →
  ∃ s2,
    Get_end ids res h false s1 = Some (TimedOut, res, s2) ∧
    object_get_requests_ s2 = object_get_requests_ (store σ) ∧
    objects_ s2 = objects_ s1.
Proof.
  intros Hreach H. pose proof (IMS_reachable_waiters_inv σ Hreach) as [Ha Hp Hl Ho].
  apply Get_begin_inv in H. simpl in H.
  destruct H as (_ & Hres & _ & _ & _ & _ & _ & _ & _ & Hh & g & Hg & Hheap & Hsync).
  simpl in Hres. unfold GetRequest_new in Hg. case_bool_decide; [|done].
  injection Hg as <-.
  unfold Get_end. rewrite Hheap, lookup_insert_eq. simpl.
  rewrite Get_populate_empty; [|done|by rewrite Hres, scan_spec_length].
  eexists. split; [reflexivity|]. simpl. split; [|done].
  assert (get_request_heap (store σ) !! h = None) as Hfresh.
  { apply not_elem_of_dom. rewrite Hh. apply is_fresh. }
  apply map_eq. intros k.
  rewrite deregister_lookup, Hsync, register_lookup by apply NoDup_elements.
  case_bool_decide as Hin; [|done].
  unfold deregistered. rewrite bool_decide_eq_true_2.
  2:{ apply elem_of_app. right. left. }
  assert (h ∉ default [] (object_get_requests_ (store σ) !! k)) as Hnin.
  { destruct (object_get_requests_ (store σ) !! k) as [l|] eqn:Hk; simpl.
    - intros Hh'. destruct (Ho k l h Hk Hh') as (? & ? & _). congruence.
    - by intros ?%elem_of_nil. }
  rewrite erase_first_snoc by done.
  destruct (object_get_requests_ (store σ) !! k) as [[|x l]|] eqn:Hk; simpl; [|done..].
  by destruct (Hl k [] Hk).
Qed.

Lemma X6_witness :
  IMS_reachable (mkIMS ex_store_A ∅) ∧
  Get_begin [ex_A; ex_B] 2 50 true ex_store_A
  = Some (GetBlocked 0 [Some ex_v; None],
          mkStore false ∅ ∅ {[ex_B := [0]]} ∅
            {[0 := mkGetRequest {[ex_B]} ∅ 1 true false]}) ∧
  ∃ s2,
    Get_end [ex_A; ex_B] [Some ex_v; None] 0 false
      (mkStore false ∅ ∅ {[ex_B := [0]]} ∅ {[0 := mkGetRequest {[ex_B]} ∅ 1 true false]})
    = Some (TimedOut, [Some ex_v; None], s2) ∧
    object_get_requests_ s2 = object_get_requests_ ex_store_A ∧
    objects_ s2 = ∅.
Proof.
  split; [apply ex_store_A_reachable|]. split; [reflexivity|].
  exact (X6_timed_out_get_restores_waiters (mkIMS ex_store_A ∅) [ex_A; ex_B] 2 50 true 0
           [Some ex_v; None]
           (mkStore false ∅ ∅ {[ex_B := [0]]} ∅ {[0 := mkGetRequest {[ex_B]} ∅ 1 true false]})
           ex_store_A_reachable eq_refl).
Defined.

(** X7.  A [Get] that started first is satisfied by the [Put]: in every
    reachable state of the store, when a reader calls
    [Get([id], 1, timeout_ms, remove_after_get)] for a direct-call id that
    has no object, it blocks on a new request; a following [Put(id, v)]
    returns OK and makes that request ready; and the reader, once woken,
    returns OK with [[v]].  With [remove_after_get] the object is not left
    in [objects_]. *)
Theorem X7_blocked_get_is_satisfied_by_put
    (σ : IMS) (id : ObjectID) (v : RayObject) (timeout_ms : Z) (remove_after_get : bool) :
  IMS_reachable σ →
  IsDirectCallType id = true →
  objects_ (store σ) !! id = None →
  (0 ≤ timeout_ms ∨ timeout_ms = -1)%Z →
  ∃ h s1 s2 effs g s3,
    Get_begin [id] 1 timeout_ms remove_after_get (store σ)
    = Some (GetBlocked h [None], s1) ∧
    Put id v s1 = Some (OK, s2, effs) ∧
    get_request_heap s2 !! h = Some g ∧
    Wait_returns timeout_ms g true ∧
    Get_end [id] [None] h true s2 = Some (OK, [Some v], s3) ∧
    (remove_after_get = true → objects_ s2 !! id = None).
Proof.
  intros Hreach Hd Hobj Ht.
  pose proof (IMS_reachable_waiters_inv σ Hreach) as Hinv.
  set (h := fresh (dom (get_request_heap (store σ)))).
  set (g0 := mkGetRequest {[id]} ∅ 1 remove_after_get false).
  set (s1 := set_heap (<[h := g0]> (get_request_heap (store σ)))
               (set_sync (register h id (object_get_requests_ (store σ)))
                  (set_objects (objects_ (store σ)) (store σ)))).
  assert (Get_begin [id] 1 timeout_ms remove_after_get (store σ)
          = Some (GetBlocked h [None], s1)) as Hbegin.
  { unfold Get_begin. rewrite Get_scan_init. cbn [scan_spec].
    rewrite (bool_decide_eq_true_2 (0 < 1)%Z) by lia. rewrite Hobj.
    cbn [count ids_to_remove remaining_ids results].
    rewrite (bool_decide_eq_true_2 (0 ≤ 1)%Z) by lia.
    rewrite union_empty_r_L, elements_empty, elements_singleton, size_singleton.
    rewrite (bool_decide_eq_false_2 ({[id]} = ∅)) by apply non_empty_singleton_L.
    rewrite (bool_decide_eq_false_2 (1 ≤ 0)%Z) by lia.
    cbn [orb foldr length]. unfold GetRequest_new. rewrite size_singleton.
    change (to_size_t (1 - (Z.of_nat 1 - Z.of_nat 1))) with 1%Z.
    rewrite (bool_decide_eq_true_2 (1 ≤ Z.of_nat 1)%Z) by lia.
    cbn [mbind option_bind]. by rewrite bool_decide_eq_true_2 by done. }
  assert (waiters_inv s1) as Hinv1 by (by eapply Get_begin_waiters_inv).
  assert (objects_ s1 !! id = None) as Hobj1 by done.
  destruct (Put_total id v s1 Hd (waiters_inv_promoted_ok _ Hinv1))
    as (status & s2 & effs & HPut & _).
  pose proof (Put_inv _ _ _ _ _ _ HPut) as [_ Hinvp]. rewrite Hobj1 in Hinvp.
  lazy beta iota zeta in Hinvp.
  destruct Hinvp as (-> & _ & Hobjs & _ & _ & _ & Hheap & _).
  assert (object_get_requests_ s1 !! id
          = Some (default [] (object_get_requests_ (store σ) !! id) ++ [h])) as Hreg.
  { simpl. unfold register. by rewrite lookup_insert_eq. }
  assert (h ∈ default [] (object_get_requests_ s1 !! id)) as Hin.
  { rewrite Hreg. simpl. apply elem_of_app. right. left. }
  set (g := mkGetRequest {[id]} {[id := v]} 1 remove_after_get true).
  assert (GetRequest_Set id v g0 = g) as Hset.
  { unfold GetRequest_Set, g0, g.
    cbn [is_ready_ req_objects_ object_ids_ num_objects_ remove_after_get_].
    unfold emplace. rewrite lookup_empty, insert_empty, map_size_singleton.
    by rewrite bool_decide_eq_true_2 by done. }
  assert (get_request_heap s2 !! h = Some g) as Hg.
  { rewrite Hheap.
    destruct (Put_requests_heap_elem id v _ (get_request_heap s1) true h Hin) as [n Hn].
    etransitivity; [exact Hn|].
    replace (get_request_heap s1 !! h) with (Some g0)
      by (symmetry; apply lookup_insert_eq).
    change (Some (Nat.iter (S n) (GetRequest_Set id v) g0) = Some g).
    by rewrite Nat.iter_succ_r, Hset, GetRequest_Set_iter_ready. }
  exists h, s1, s2, effs, g. eexists.
  split; [done|]. split; [done|]. split; [done|]. split; [done|]. split.
  - unfold Get_end. rewrite Hg. simpl. unfold GetRequest_Get. simpl.
    by rewrite lookup_singleton_eq.
  - intros Hrm.
    assert (forallb (λ h0, negb (from_option ShouldRemoveObjects false
                                   (get_request_heap s1 !! h0)))
              (default [] (object_get_requests_ s1 !! id)) = false) as Hall.
    { apply not_true_is_false. intros Hall.
      rewrite forallb_forall in Hall. specialize (Hall h).
      rewrite <- list_elem_of_In in Hall. specialize (Hall Hin).
      replace (get_request_heap s1 !! h) with (Some g0) in Hall
        by (symmetry; apply lookup_insert_eq).
      unfold g0 in Hall. by rewrite Hrm in Hall. }
    by rewrite Hobjs, Put_requests_add, Hall.
Qed.

Lemma X7_witness :
  IMS_reachable (IMS_init false) ∧ IsDirectCallType ex_A = true ∧
  objects_ (store_init false) !! ex_A = None ∧ (0 ≤ 50 ∨ 50 = -1)%Z ∧
  ∃ h s1 s2 effs g s3,
    Get_begin [ex_A] 1 50 true (store_init false) = Some (GetBlocked h [None], s1) ∧
    Put ex_A ex_v s1 = Some (OK, s2, effs) ∧
    get_request_heap s2 !! h = Some g ∧
    Wait_returns 50 g true ∧
    Get_end [ex_A] [None] h true s2 = Some (OK, [Some ex_v], s3) ∧
    (true = true → objects_ s2 !! ex_A = None).
Proof.
  assert (IMS_reachable (IMS_init false)) as Hreach by (exists false; apply rtc_refl).
  assert (0 ≤ 50 ∨ 50 = -1)%Z as Ht by (left; lia).
  split; [exact Hreach|]. split; [reflexivity|]. split; [reflexivity|]. split; [exact Ht|].
  exact (X7_blocked_get_is_satisfied_by_put (IMS_init false) ex_A ex_v 50 true
           Hreach eq_refl eq_refl Ht).
Defined.

Lemma callbacks_of_app e1 e2 : callbacks_of (e1 ++ e2) = callbacks_of e1 ++ callbacks_of e2.
Proof. induction e1 as [|[] e1 IH]; simpl; by rewrite ?IH. Qed.

Lemma callbacks_of_sets id o l : callbacks_of (map (λ h, CallSet h id o) l) = [].
Proof. induction l; simpl; done. Qed.

Lemma callbacks_of_callbacks o l :
  callbacks_of (map (λ cb, CallCallback cb o) l) = map (λ cb, (cb, o)) l.
Proof. induction l; simpl; by rewrite ?IHl. Qed.

Lemma plasma_calls_of_app e1 e2 :
  plasma_calls_of (e1 ++ e2) = plasma_calls_of e1 ++ plasma_calls_of e2.
Proof. induction e1 as [|[] e1 IH]; simpl; by rewrite ?IH. Qed.

Lemma plasma_calls_of_sets id o l : plasma_calls_of (map (λ h, CallSet h id o) l) = [].
Proof. induction l; simpl; done. Qed.

Lemma plasma_calls_of_callbacks o l :
  plasma_calls_of (map (λ cb, CallCallback cb o) l) = [].
Proof. induction l; simpl; done. Qed.

Lemma GetAsync_all_missing id cbs s :
  objects_ s !! id = None →
  objects_ (GetAsync_all id cbs s) = objects_ s ∧
  object_get_requests_ (GetAsync_all id cbs s) = object_get_requests_ s ∧
  promoted_to_plasma_ (GetAsync_all id cbs s) = promoted_to_plasma_ s ∧
  default [] (object_async_get_requests_ (GetAsync_all id cbs s) !! id)
  = default [] (object_async_get_requests_ s !! id) ++ cbs.
Proof.
  revert s. induction cbs as [|cb cbs IH]; intros s Hobj; simpl.
  - by rewrite app_nil_r.
  - assert ((GetAsync id cb s).1
            = set_async (<[id := default [] (object_async_get_requests_ s !! id) ++ [cb]]>
                           (object_async_get_requests_ s)) s) as Hstep.
    { unfold GetAsync. by rewrite Hobj. }
    unfold GetAsync_all in *. rewrite Hstep.
    destruct (IH (set_async (<[id := default [] (object_async_get_requests_ s !! id) ++ [cb]]>
                               (object_async_get_requests_ s)) s) Hobj)
      as (-> & -> & -> & ->).
    simpl. rewrite lookup_insert_eq. simpl. by rewrite <- app_assoc.
Qed.

(** X8.  The callbacks that [GetAsync] queued on a missing id are called by
    the [Put] of that id once each, in the order they were registered (after
    those that were waiting before), all with the object that was put; the
    queue of the id is gone afterwards. *)
Theorem X8_put_fires_async_callbacks_in_order
    (s s' : CoreWorkerMemoryStore) (id : ObjectID) (v : RayObject)
    (callbacks : list nat) (effs : list Effect) :
  objects_ s !! id = None →
  Put id v (GetAsync_all id callbacks s) = Some (OK, s', effs) →
  callbacks_of effs
  = map (λ cb, (cb, v)) (default [] (object_async_get_requests_ s !! id) ++ callbacks) ∧
  object_async_get_requests_ s' !! id = None.
Proof.
  intros Hobj HPut.
  destruct (GetAsync_all_missing id callbacks s Hobj) as (Hobjs & _ & _ & Hasync).
  apply Put_inv in HPut as [_ HPut]. rewrite Hobjs, Hobj in HPut. simpl in HPut.
  destruct HPut as (_ & _ & _ & Ha & _ & _ & _ & _ & ->). split.
  - rewrite !callbacks_of_app, callbacks_of_sets, callbacks_of_callbacks, Hasync.
    by case_bool_decide.
  - rewrite Ha. apply lookup_delete_eq.
Qed.

Lemma X8_witness :
  objects_ (store_init false) !! ex_A = None ∧
  Put ex_A ex_v (GetAsync_all ex_A [5; 3; 5] (store_init false))
  = Some (OK, ex_store_A,
          [CallCallback 5 ex_v; CallCallback 3 ex_v; CallCallback 5 ex_v]) ∧
  callbacks_of [CallCallback 5 ex_v; CallCallback 3 ex_v; CallCallback 5 ex_v]
  = [(5, ex_v); (3, ex_v); (5, ex_v)] ∧
  object_async_get_requests_ ex_store_A !! ex_A = None.
Proof.
  split; [reflexivity|]. split; [reflexivity|].
  exact (X8_put_fires_async_callbacks_in_order (store_init false) ex_store_A ex_A ex_v
           [5; 3; 5] [CallCallback 5 ex_v; CallCallback 3 ex_v; CallCallback 5 ex_v]
           eq_refl eq_refl).
Defined.

(** X9.  Promotion is forwarded once: when [GetOrPromoteToPlasma] finds a
    direct-call id missing (the plasma callback being configured), it returns
    nothing and marks the id; the next [Put] of the id returns OK, calls the
    plasma callback exactly once, with the object and the id rewritten to the
    raylet transport, and unmarks the id. *)
Theorem X9_promoted_id_is_stored_in_plasma_once
    (s : CoreWorkerMemoryStore) (id : ObjectID) (v : RayObject) :
  store_in_plasma_ s = true →
  IsDirectCallType id = true →
  objects_ s !! id = None →
  ∃ s1 s2 effs,
    GetOrPromoteToPlasma id s = Some (None, s1) ∧
    id ∈ promoted_to_plasma_ s1 ∧
    Put id v s1 = Some (OK, s2, effs) ∧
    plasma_calls_of effs = [(v, WithTransportType id RAYLET)] ∧
    promoted_to_plasma_ s2 = promoted_to_plasma_ s ∖ {[id]}.
Proof.
  intros Hsip Hd Hobj.
  set (s1 := set_promoted ({[id]} ∪ promoted_to_plasma_ s) s).
  assert (GetOrPromoteToPlasma id s = Some (None, s1)) as Hget.
  { unfold GetOrPromoteToPlasma. by rewrite Hobj, Hsip. }
  assert (id ∈ promoted_to_plasma_ s1) as Hin.
  { simpl. apply elem_of_union. left. by apply elem_of_singleton. }
  assert (promoted_ok s1) as Hok by (by intros _).
  destruct (Put_total id v s1 Hd Hok) as (status & s2 & effs & HPut & _).
  pose proof (Put_inv _ _ _ _ _ _ HPut) as [_ Hinv].
  assert (objects_ s1 !! id = None) as Hobj1 by done.
  rewrite Hobj1 in Hinv. lazy beta iota zeta in Hinv.
  destruct Hinv as (-> & _ & _ & _ & _ & Hprom & _ & _ & Heffs).
  exists s1, s2, effs. repeat (split; [done|]). split.
  - rewrite Heffs, bool_decide_eq_true_2 by done.
    rewrite !plasma_calls_of_app, plasma_calls_of_sets, plasma_calls_of_callbacks. done.
  - rewrite Hprom. simpl. apply set_eq. intros k.
    rewrite !elem_of_difference, elem_of_union, elem_of_singleton. tauto.
Qed.

Lemma X9_witness :
  store_in_plasma_ ex_store_plasma = true ∧ IsDirectCallType ex_A = true ∧
  objects_ ex_store_plasma !! ex_A = None ∧
  ∃ s1 s2 effs,
    GetOrPromoteToPlasma ex_A ex_store_plasma = Some (None, s1) ∧
    ex_A ∈ promoted_to_plasma_ s1 ∧
    Put ex_A ex_v s1 = Some (OK, s2, effs) ∧
    plasma_calls_of effs = [(ex_v, mkObjectID RAYLET 1)] ∧
    promoted_to_plasma_ s2 = ∅ ∖ {[ex_A]}.
Proof.
  split; [reflexivity|]. split; [reflexivity|]. split; [reflexivity|].
  exact (X9_promoted_id_is_stored_in_plasma_once ex_store_plasma ex_A ex_v
           eq_refl eq_refl eq_refl).
Defined.

Lemma foldl_delete_lookup {V} (l : list ObjectID) (m : gmap ObjectID V) k :
  foldl (λ m id, delete id m) m l !! k = if bool_decide (k ∈ l) then None else m !! k.
Proof.
  revert m. induction l as [|x l IH]; intros m; cbn [foldl].
  - rewrite bool_decide_eq_false_2; [done|]. by intros ?%elem_of_nil.
  - rewrite IH. destruct (decide (k ∈ l)) as [Hin|Hin].
    + rewrite !bool_decide_eq_true_2; [done| |done]. by right.
    + rewrite (bool_decide_eq_false_2 (k ∈ l)) by done.
      destruct (decide (x = k)) as [->|Hne].
      * rewrite lookup_delete_eq, bool_decide_eq_true_2; [done|]. left.
      * rewrite lookup_delete_ne by done. rewrite bool_decide_eq_false_2; [done|].
        intros [?|?]%elem_of_cons; congruence.
Qed.

(** X10.  [Delete] takes out of [objects_] exactly the ids of its vector and
    touches nothing else: the other entries of [objects_], the plasma
    callback, the asynchronous and the synchronous waiters, the promoted set
    and the registered requests are as before; an id that is not in the
    store is no error.  So the result depends only on which ids occur in the
    vector, not on their order or on repetitions, and deleting again changes
    nothing. *)
Theorem X10_delete_removes_exactly_the_ids
    (s : CoreWorkerMemoryStore) (ids ids' : list ObjectID) :
  (∀ k, k ∈ ids ↔ k ∈ ids') →
  (∀ k, objects_ (Delete ids s) !! k
        = if bool_decide (k ∈ ids) then None else objects_ s !! k) ∧
  store_in_plasma_ (Delete ids s) = store_in_plasma_ s ∧
  object_async_get_requests_ (Delete ids s) = object_async_get_requests_ s ∧
  object_get_requests_ (Delete ids s) = object_get_requests_ s ∧
  promoted_to_plasma_ (Delete ids s) = promoted_to_plasma_ s ∧
  get_request_heap (Delete ids s) = get_request_heap s ∧
  Delete ids s = Delete ids' s ∧
  Delete ids (Delete ids' s) = Delete ids s.
Proof.
  intros Hsame.
  assert (∀ l k, objects_ (Delete l s) !! k
                 = if bool_decide (k ∈ l) then None else objects_ s !! k) as Hlook.
  { intros l k. apply foldl_delete_lookup. }
  split; [apply Hlook|]. do 5 (split; [reflexivity|]). split.
  - unfold Delete, set_objects. f_equal. apply map_eq. intros k.
    rewrite !foldl_delete_lookup.
    destruct (decide (k ∈ ids)) as [Hin|Hin].
    + rewrite !bool_decide_eq_true_2; [done| |done]. by apply Hsame.
    + rewrite !bool_decide_eq_false_2; [done| |done]. by rewrite <- Hsame.
  - unfold Delete, set_objects. simpl. f_equal. apply map_eq. intros k.
    rewrite !foldl_delete_lookup.
    destruct (decide (k ∈ ids)) as [Hin|Hin].
    + by rewrite !bool_decide_eq_true_2.
    + rewrite !(bool_decide_eq_false_2 (k ∈ ids)) by done.
      rewrite bool_decide_eq_false_2; [done|]. by rewrite <- Hsame.
Qed.

Lemma X10_witness :
  (∀ k, k ∈ [ex_A; ex_B; ex_A] ↔ k ∈ [ex_B; ex_A]) ∧
  objects_ (Delete [ex_A; ex_B; ex_A] ex_store_delivered) !! ex_A = None ∧
  object_get_requests_ (Delete [ex_A; ex_B; ex_A] ex_store_delivered) = {[ex_A := [0]]} ∧
  get_request_heap (Delete [ex_A; ex_B; ex_A] ex_store_delivered)
  = {[0 := mkGetRequest {[ex_A]} {[ex_A := ex_v]} 1 false true]} ∧
  Delete [ex_A; ex_B; ex_A] ex_store_delivered = Delete [ex_B; ex_A] ex_store_delivered.
Proof.
  assert (∀ k, k ∈ [ex_A; ex_B; ex_A] ↔ k ∈ [ex_B; ex_A]) as Hsame.
  { intros k. rewrite !elem_of_cons, elem_of_nil. tauto. }
  destruct (X10_delete_removes_exactly_the_ids ex_store_delivered
              [ex_A; ex_B; ex_A] [ex_B; ex_A] Hsame)
    as (Hobj & _ & _ & Hsync & _ & Hheap & Heq & _).
  split; [exact Hsame|]. split; [exact (Hobj ex_A)|].
  split; [exact Hsync|]. split; [exact Hheap|]. exact Heq.
Defined.

(** X11.  [Contains] and [GetOrPromoteToPlasma] agree: [Contains(id)] is
    true exactly when [GetOrPromoteToPlasma(id)] returns an object, and then
    the store is unchanged.  In particular an object that is an in-plasma
    error is in neither sense contained. *)
Theorem X11_contains_iff_get_or_promote_returns
    (s : CoreWorkerMemoryStore) (id : ObjectID) :
  Contains id s = true ↔ ∃ obj, GetOrPromoteToPlasma id s = Some (Some obj, s).
Proof.
  unfold Contains, GetOrPromoteToPlasma.
  destruct (objects_ s !! id) as [o|].
  - destruct (IsInPlasmaError o); simpl; split; try done.
    + by intros [obj H].
    + eauto.
  - split; [done|]. intros [obj H]. by destruct (store_in_plasma_ s).
Qed.

(** ** [Get] when every id is there, and when the ids are distinct *)

Lemma scan_spec_all_present objects num rm ids :
  ∀ c tr rem,
    (∀ id, id ∈ ids → is_Some (objects !! id)) →
    (c + Z.of_nat (length ids) ≤ num)%Z →
    scan_spec objects num rm ids c tr rem
    = mkScan (map (λ id, objects !! id) ids) (c + Z.of_nat (length ids))
        (if rm then list_to_set ids ∪ tr else tr) rem.
Proof.
  induction ids as [|id ids IH]; intros c tr rem Hall Hc.
  - simpl. rewrite Z.add_0_r. f_equal. destruct rm; [|done].
    by rewrite union_empty_l_L.
  - cbn [scan_spec]. cbn [length] in Hc.
    rewrite bool_decide_eq_true_2 by lia.
    destruct (Hall id) as [ptr Hptr]; [left|]. rewrite Hptr.
    rewrite IH; [|intros k Hk; apply Hall; by right|lia].
    cbn [results count ids_to_remove remaining_ids map]. rewrite Hptr. f_equal.
    + cbn [length]. lia.
    + destruct rm; [|done]. cbn [list_to_set]. apply set_eq. intros k.
      rewrite !elem_of_union. tauto.
Qed.

(** X12.  A [Get] that asks for as many objects as the vector has positions,
    every id of the vector being in the store, returns OK at once with the
    object of each position, repeated ids included; with [remove_after_get]
    it takes exactly those ids out of the store, and without it the store is
    unchanged.  No request is built. *)
Theorem X12_get_of_present_ids_returns_all
    (s : CoreWorkerMemoryStore) (ids : list ObjectID) (timeout_ms : Z)
    (remove_after_get : bool) :
  (∀ id, id ∈ ids → is_Some (objects_ s !! id)) →
  ∃ s',
    Get_begin ids (Z.of_nat (length ids)) timeout_ms remove_after_get s
    = Some (GetReturned OK (map (λ id, objects_ s !! id) ids), s') ∧
    (∀ k, objects_ s' !! k
          = if remove_after_get && bool_decide (k ∈ ids) then None else objects_ s !! k) ∧
    object_get_requests_ s' = object_get_requests_ s ∧
    get_request_heap s' = get_request_heap s.
Proof.
  intros Hall. unfold Get_begin. rewrite Get_scan_init.
  rewrite scan_spec_all_present by (done || lia).
  cbn [count results ids_to_remove remaining_ids]. rewrite Z.add_0_l.
  rewrite !bool_decide_eq_true_2 by lia. rewrite orb_true_r.
  eexists. split; [reflexivity|]. simpl. split; [|done].
  intros k. rewrite foldr_delete_lookup. destruct remove_after_get; simpl.
  - destruct (decide (k ∈ ids)) as [Hin|Hin].
    + rewrite !bool_decide_eq_true_2; [done|done|].
      apply elem_of_elements, elem_of_union. left. by apply elem_of_list_to_set.
    + rewrite !bool_decide_eq_false_2; [done|done|].
      rewrite elem_of_elements, elem_of_union, elem_of_list_to_set.
      intros [?|?%elem_of_empty]; done.
  - rewrite bool_decide_eq_false_2; [done|].
    rewrite elem_of_elements. apply not_elem_of_empty.
Qed.

Lemma X12_witness :
  (∀ id, id ∈ [ex_B; ex_A; ex_B] → is_Some (objects_ ex_store_AB !! id)) ∧
  ∃ s',
    Get_begin [ex_B; ex_A; ex_B] 3 0 true ex_store_AB
    = Some (GetReturned OK [Some ex_w; Some ex_v; Some ex_w], s') ∧
    (∀ k, objects_ s' !! k
          = if true && bool_decide (k ∈ [ex_B; ex_A; ex_B]) then None
            else objects_ ex_store_AB !! k) ∧
    object_get_requests_ s' = ∅ ∧ get_request_heap s' = ∅.
Proof.
  assert (∀ id, id ∈ [ex_B; ex_A; ex_B] → is_Some (objects_ ex_store_AB !! id)) as Hall.
  { intros id. rewrite !elem_of_cons, elem_of_nil.
    intros [->|[->|[->|[]]]]; by eexists. }
  split; [exact Hall|].
  exact (X12_get_of_present_ids_returns_all ex_store_AB [ex_B; ex_A; ex_B] 0 true Hall).
Defined.

Lemma length_missing_ids objects ids :
  Z.of_nat (length ids)
  = (found_in objects ids + Z.of_nat (length (missing_ids objects ids)))%Z.
Proof.
  unfold missing_ids. induction ids as [|id ids IH]; [done|].
  destruct (objects !! id) as [ptr|] eqn:Hid.
  - rewrite (found_in_cons_Some _ _ _ _ Hid), filter_cons_False by congruence.
    cbn [length]. lia.
  - rewrite (found_in_cons_None _ _ _ Hid), filter_cons_True by done.
    cbn [length]. lia.
Qed.

(** A scan that does not reach [num]: it counts every id that is there and
    collects every id that is missing. *)
Lemma scan_spec_no_stop objects num rm ids :
  ∀ c tr rem,
    (c + found_in objects ids < num)%Z →
    count (scan_spec objects num rm ids c tr rem) = (c + found_in objects ids)%Z ∧
    remaining_ids (scan_spec objects num rm ids c tr rem)
    = list_to_set (missing_ids objects ids) ∪ rem.
Proof.
  unfold missing_ids.
  induction ids as [|id ids IH]; intros c tr rem Hc.
  - simpl. split; [lia|]. by rewrite union_empty_l_L.
  - pose proof (found_in_nonneg objects ids) as Hnn. cbn [scan_spec].
    destruct (objects !! id) as [ptr|] eqn:Hid.
    + rewrite (found_in_cons_Some _ _ _ _ Hid) in Hc |- *.
      rewrite bool_decide_eq_true_2 by lia. cbn [count remaining_ids].
      destruct (IH (c + 1)%Z (if rm then {[id]} ∪ tr else tr) rem) as [-> ->]; [lia|].
      rewrite filter_cons_False by congruence. split; [lia|done].
    + rewrite (found_in_cons_None _ _ _ Hid) in Hc |- *.
      rewrite bool_decide_eq_true_2 by lia. cbn [count remaining_ids].
      destruct (IH c tr ({[id]} ∪ rem)) as [-> ->]; [lia|].
      rewrite filter_cons_True by done. split; [done|].
      cbn [list_to_set]. apply set_eq. intros k. rewrite !elem_of_union. tauto.
Qed.

(** X13.  [Get] on a vector of distinct ids, asked for a number of objects
    between [0] and the length of the vector (within [int]) with a timeout
    that is [-1] or not negative, never aborts.  When at least [num_objects]
    of the ids are in the store it returns OK at once; otherwise it blocks on
    a new request that awaits exactly the missing ids and needs
    [num_objects] less the number found. *)
Theorem X13_get_of_distinct_ids_does_not_abort
    (s : CoreWorkerMemoryStore) (ids : list ObjectID) (num_objects timeout_ms : Z)
    (remove_after_get : bool) :
  NoDup ids →
  (0 ≤ num_objects ≤ Z.of_nat (length ids))%Z →
  (num_objects < 2 ^ 31)%Z →
  (0 ≤ timeout_ms ∨ timeout_ms = -1)%Z →
  if bool_decide (num_objects ≤ found_in (objects_ s) ids)%Z
  then ∃ res s',
         Get_begin ids num_objects timeout_ms remove_after_get s
         = Some (GetReturned OK res, s')
  else ∃ h res s',
         Get_begin ids num_objects timeout_ms remove_after_get s
         = Some (GetBlocked h res, s') ∧
         get_request_heap s' !! h
         = Some (mkGetRequest (list_to_set (missing_ids (objects_ s) ids)) ∅
                   (num_objects - found_in (objects_ s) ids) remove_after_get false).
Proof.
  intros Hnd Hnum Hint Ht. unfold Get_begin. rewrite Get_scan_init.
  pose proof (found_in_nonneg (objects_ s) ids) as Hnn.
  pose proof (length_missing_ids (objects_ s) ids) as Hlen.
  case_bool_decide as Hfound.
  - rewrite scan_spec_count by lia. rewrite Z.add_0_l.
    rewrite Z.min_l by lia. rewrite !bool_decide_eq_true_2 by lia.
    rewrite orb_true_r. eauto.
  - destruct (scan_spec_no_stop (objects_ s) num_objects remove_after_get ids 0 ∅ ∅)
      as [Hcount Hrem]; [lia|].
    rewrite Hcount, Hrem, union_empty_r_L, Z.add_0_l.
    rewrite (bool_decide_eq_true_2 (_ ≤ _)%Z) by lia.
    assert (missing_ids (objects_ s) ids ≠ []) as Hmiss.
    { intros Hnil. rewrite Hnil in Hlen. simpl in Hlen. lia. }
    assert (size (list_to_set (missing_ids (objects_ s) ids) : gset ObjectID)
            = length (missing_ids (objects_ s) ids)) as Hsize.
    { apply size_list_to_set. unfold missing_ids. by apply NoDup_filter. }
    rewrite (bool_decide_eq_false_2 (_ = ∅)).
    2:{ intros Hempty. apply Hmiss.
        destruct (missing_ids (objects_ s) ids) as [|x l]; [done|].
        exfalso. apply (not_elem_of_empty (C:=gset ObjectID) x).
        rewrite <- Hempty. apply elem_of_list_to_set. left. }
    rewrite (bool_decide_eq_false_2 (num_objects ≤ _)%Z) by lia.
    cbn [orb]. rewrite Hsize.
    assert (to_size_t (num_objects
                       - (Z.of_nat (length ids)
                          - Z.of_nat (length (missing_ids (objects_ s) ids))))
            = (num_objects - found_in (objects_ s) ids)%Z) as ->.
    { unfold to_size_t, size_t_modulus. rewrite Hlen.
      replace (num_objects
               - (found_in (objects_ s) ids
                  + Z.of_nat (length (missing_ids (objects_ s) ids))
                  - Z.of_nat (length (missing_ids (objects_ s) ids))))%Z
        with (num_objects - found_in (objects_ s) ids)%Z by lia.
      apply Z.mod_small. lia. }
    unfold GetRequest_new. rewrite Hsize.
    rewrite (bool_decide_eq_true_2 (_ ≤ _)%Z) by lia.
    cbn [mbind option_bind]. rewrite bool_decide_eq_true_2 by done.
    do 3 eexists. split; [reflexivity|]. simpl. apply lookup_insert_eq.
Qed.

Lemma X13_witness :
  NoDup [ex_A; ex_B] ∧ (0 ≤ 2 ≤ Z.of_nat (length [ex_A; ex_B]))%Z ∧ (2 < 2 ^ 31)%Z ∧
  (0 ≤ 50 ∨ 50 = -1)%Z ∧
  ∃ h res s',
    Get_begin [ex_A; ex_B] 2 50 false ex_store_A = Some (GetBlocked h res, s') ∧
    get_request_heap s' !! h
    = Some (mkGetRequest (list_to_set (missing_ids (objects_ ex_store_A) [ex_A; ex_B])) ∅
              (2 - found_in (objects_ ex_store_A) [ex_A; ex_B]) false false).
Proof.
  assert (NoDup [ex_A; ex_B]) as Hnd.
  { apply NoDup_cons. split; [|apply NoDup_singleton].
    intros H%list_elem_of_singleton. discriminate H. }
  assert (0 ≤ 2 ≤ Z.of_nat (length [ex_A; ex_B]))%Z as Hnum by (simpl; lia).
  assert (2 < 2 ^ 31)%Z as Hint by lia.
  assert (0 ≤ 50 ∨ 50 = -1)%Z as Ht by (left; lia).
  split; [exact Hnd|]. split; [exact Hnum|]. split; [exact Hint|]. split; [exact Ht|].
  exact (X13_get_of_distinct_ids_does_not_abort ex_store_A [ex_A; ex_B] 2 50 false
           Hnd Hnum Hint Ht).
Defined.

(* ================================================================== *)
(** * Further properties of the resolver *)

Lemma DoInlineObjectValue_eq obj_id value task :
  DoInlineObjectValue obj_id value task
  = if bool_decide (0 < matching_slots obj_id task)
    then Some (mkTask (TaskId task) (NumReturns task)
                 (map (inline_slot obj_id value) (task_args task)))
    else None.
Proof.
  unfold DoInlineObjectValue, matching_slots. by rewrite inline_loop_spec.
Qed.

Lemma matching_slots_pos obj_id task :
  0 < matching_slots obj_id task ↔
  ∃ arg, arg ∈ task_args task ∧ refers_to obj_id arg = true.
Proof.
  unfold matching_slots. induction (task_args task) as [|a args IH]; simpl.
  - split; [lia|]. intros (arg & Hin & _). by apply elem_of_nil in Hin.
  - destruct (refers_to obj_id a) eqn:Ha; simpl.
    + split; [|lia]. intros _. exists a. split; [left|done].
    + rewrite IH. split.
      * intros (arg & Hin & Hr). exists arg. split; [by right|done].
      * intros (arg & [->|Hin]%elem_of_cons & Hr); [congruence|eauto].
Qed.

Lemma matching_slots_zero obj_id args :
  (∀ arg, arg ∈ args → refers_to obj_id arg = false) →
  length (List.filter (refers_to obj_id) args) = 0.
Proof.
  induction args as [|a args IH]; intros Hall; simpl; [done|].
  rewrite (Hall a) by left. apply IH. intros arg Hin. apply Hall. by right.
Qed.

Lemma refers_to_inline_into_self obj_id value arg :
  IsInPlasmaError value = false ∨ IsDirectCallType obj_id = true →
  refers_to obj_id (inline_into obj_id value arg) = false.
Proof.
  intros Hcond. unfold inline_into, refers_to.
  destruct (IsInPlasmaError value); simpl; [|done].
  destruct Hcond as [?|Hd]; [done|].
  apply bool_decide_eq_false_2. intros Heq.
  unfold IsDirectCallType in Hd. apply bool_decide_eq_true in Hd.
  rewrite <- Heq in Hd. discriminate Hd.
Qed.

Lemma refers_to_inline_into_other a b value arg :
  IsDirectCallType b = true →
  refers_to b (inline_into a value arg) = false.
Proof.
  intros Hd. unfold inline_into, refers_to.
  destruct (IsInPlasmaError value); simpl; [|done].
  apply bool_decide_eq_false_2. intros Heq.
  unfold IsDirectCallType in Hd. apply bool_decide_eq_true in Hd.
  rewrite <- Heq in Hd. discriminate Hd.
Qed.

Lemma refers_to_two a b arg :
  a ≠ b → refers_to a arg = true → refers_to b arg = false.
Proof.
  unfold refers_to. destruct (arg_object_ids arg) as [|id more]; [done|].
  intros Hne Ha%bool_decide_eq_true. subst id. by apply bool_decide_eq_false_2.
Qed.

Lemma refers_to_inline_slot a b value arg :
  a ≠ b → IsDirectCallType b = true →
  refers_to b (inline_slot a value arg) = refers_to b arg.
Proof.
  intros Hne Hd. unfold inline_slot. destruct (refers_to a arg) eqn:Ha; [|done].
  by rewrite refers_to_inline_into_other, (refers_to_two a b arg).
Qed.

Lemma matching_slots_inline_slot a b value task :
  a ≠ b → IsDirectCallType b = true →
  matching_slots b (mkTask (TaskId task) (NumReturns task)
                      (map (inline_slot a value) (task_args task)))
  = matching_slots b task.
Proof.
  intros Hne Hd. unfold matching_slots. simpl.
  induction (task_args task) as [|arg args IH]; simpl; [done|].
  rewrite refers_to_inline_slot by done.
  destruct (refers_to b arg); simpl; by rewrite IH.
Qed.

(** X14.  After [DoInlineObjectValue] has inlined a dependency, no argument
    slot refers to its id any more, so that a second call for the same id
    fails the check; the task id, the number of returns and the number of
    arguments are kept, and a slot that did not refer to the id is left as
    it was.  (For a value that is an in-plasma error the slot keeps an id,
    the raylet-transport one, which differs from a direct-call id.) *)
Theorem X14_inlined_id_is_gone
    (obj_id : ObjectID) (value : RayObject) (task task' : TaskSpecification) :
  IsInPlasmaError value = false ∨ IsDirectCallType obj_id = true →
  DoInlineObjectValue obj_id value task = Some task' →
  matching_slots obj_id task' = 0 ∧
  (∀ value', DoInlineObjectValue obj_id value' task' = None) ∧
  TaskId task' = TaskId task ∧ NumReturns task' = NumReturns task ∧
  length (task_args task') = length (task_args task) ∧
  (∀ i arg, task_args task !! i = Some arg → refers_to obj_id arg = false →
            task_args task' !! i = Some arg).
Proof.
  intros Hcond H. rewrite DoInlineObjectValue_eq in H.
  case_bool_decide as Hpos; [|done]. injection H as <-.
  assert (matching_slots obj_id
            (mkTask (TaskId task) (NumReturns task)
               (map (inline_slot obj_id value) (task_args task))) = 0) as Hzero.
  { apply matching_slots_zero. intros arg (a & -> & Ha)%list_elem_of_fmap.
    unfold inline_slot. destruct (refers_to obj_id a) eqn:Hr; [|done].
    by apply refers_to_inline_into_self. }
  split; [done|]. split.
  { intros value'. rewrite DoInlineObjectValue_eq, Hzero.
    by rewrite bool_decide_eq_false_2 by lia. }
  simpl. repeat split; [by rewrite length_map|].
  intros i arg Hi Hr. rewrite list_lookup_fmap, Hi. simpl.
  unfold inline_slot. by rewrite Hr.
Qed.

Lemma X14_witness :
  (IsInPlasmaError ex_v = false ∨ IsDirectCallType ex_A = true) ∧
  DoInlineObjectValue ex_A ex_v ex_task_AB
  = Some (mkTask 8 1 [mkTaskArg [] [x01; x02]%byte []; ex_arg_B;
                      mkTaskArg [] [x01; x02]%byte []]) ∧
  ∀ value', DoInlineObjectValue ex_A value'
              (mkTask 8 1 [mkTaskArg [] [x01; x02]%byte []; ex_arg_B;
                           mkTaskArg [] [x01; x02]%byte []]) = None.
Proof.
  assert (IsInPlasmaError ex_v = false ∨ IsDirectCallType ex_A = true) as Hc by (by left).
  split; [exact Hc|]. split; [reflexivity|].
  exact (proj1 (proj2 (X14_inlined_id_is_gone ex_A ex_v ex_task_AB
           (mkTask 8 1 [mkTaskArg [] [x01; x02]%byte []; ex_arg_B;
                        mkTaskArg [] [x01; x02]%byte []]) Hc eq_refl))).
Defined.

Lemma inline_slot_true x v arg :
  refers_to x arg = true → inline_slot x v arg = inline_into x v arg.
Proof. intros H. unfold inline_slot. by rewrite H. Qed.

Lemma inline_slot_false x v arg :
  refers_to x arg = false → inline_slot x v arg = arg.
Proof. intros H. unfold inline_slot. by rewrite H. Qed.

Lemma inline_slot_comm a b va vb arg :
  a ≠ b → IsDirectCallType a = true → IsDirectCallType b = true →
  inline_slot b vb (inline_slot a va arg) = inline_slot a va (inline_slot b vb arg).
Proof.
  intros Hne Ha Hb.
  destruct (refers_to a arg) eqn:Hra; destruct (refers_to b arg) eqn:Hrb.
  - by rewrite (refers_to_two a b arg) in Hrb.
  - rewrite (inline_slot_false b vb arg), (inline_slot_true a va arg) by done.
    apply inline_slot_false. by apply refers_to_inline_into_other.
  - rewrite (inline_slot_false a va arg), (inline_slot_true b vb arg) by done.
    symmetry. apply inline_slot_false. by apply refers_to_inline_into_other.
  - by rewrite (inline_slot_false a va arg), (inline_slot_false b vb arg),
      (inline_slot_false a va arg) by done.
Qed.

(** X15.  Inlining commutes: for two distinct direct-call ids, running
    [DoInlineObjectValue] for one and then for the other gives the same task,
    or the same failure of the check, in either order. *)
Theorem X15_inlines_of_distinct_ids_commute
    (a b : ObjectID) (va vb : RayObject) (task : TaskSpecification) :
  a ≠ b →
  IsDirectCallType a = true →
  IsDirectCallType b = true →
  DoInlineObjectValue a va task ≫= DoInlineObjectValue b vb
  = DoInlineObjectValue b vb task ≫= DoInlineObjectValue a va.
Proof.
  intros Hne Ha Hb. rewrite !DoInlineObjectValue_eq.
  destruct (bool_decide (0 < matching_slots a task)) eqn:Hma;
    destruct (bool_decide (0 < matching_slots b task)) eqn:Hmb; simpl;
    rewrite ?DoInlineObjectValue_eq, ?matching_slots_inline_slot, ?Hma, ?Hmb by done;
    try done.
  simpl. do 2 f_equal. rewrite <- !list_fmap_compose. apply list_fmap_ext.
  intros i arg _. simpl. by apply inline_slot_comm.
Qed.

Lemma X15_witness :
  ex_A ≠ ex_B ∧ IsDirectCallType ex_A = true ∧ IsDirectCallType ex_B = true ∧
  DoInlineObjectValue ex_A ex_v ex_task_AB ≫= DoInlineObjectValue ex_B ex_in_plasma
  = DoInlineObjectValue ex_B ex_in_plasma ex_task_AB ≫= DoInlineObjectValue ex_A ex_v.
Proof.
  assert (ex_A ≠ ex_B) as Hne by discriminate.
  split; [exact Hne|]. split; [reflexivity|]. split; [reflexivity|].
  exact (X15_inlines_of_distinct_ids_commute ex_A ex_B ex_v ex_in_plasma ex_task_AB
           Hne eq_refl eq_refl).
Defined.

Lemma collect_dependencies_Some args :
  ∀ acc deps,
    collect_dependencies args acc = Some deps →
    ∀ id, id ∈ deps ↔
          id ∈ acc ∨ (IsDirectCallType id = true
                      ∧ ∃ arg, arg ∈ args ∧ refers_to id arg = true).
Proof.
  induction args as [|a args IH]; intros acc deps H id; simpl in H.
  - injection H as <-. split; [auto|].
    intros [?|(_ & arg & Hin & _)]; [done|]. by apply elem_of_nil in Hin.
  - destruct (arg_object_ids a) as [|x more] eqn:Ha.
    + rewrite (IH _ _ H id). split.
      * intros [?|(Hd & arg & Hin & Hr)]; [auto|].
        right. split; [done|]. exists arg. split; [by right|done].
      * intros [?|(Hd & arg & [->|Hin]%elem_of_cons & Hr)]; [auto| |eauto].
        unfold refers_to in Hr. by rewrite Ha in Hr.
    + case_bool_decide; [|done]. rewrite (IH _ _ H id).
      assert (refers_to id a = true ↔ x = id) as Hrx.
      { unfold refers_to. rewrite Ha. apply bool_decide_eq_true. }
      split.
      * intros [Hacc|(Hd & arg & Hin & Hr)].
        -- destruct (IsDirectCallType x) eqn:Hx; [|auto].
           apply elem_of_union in Hacc as [->%elem_of_singleton|?]; [|auto].
           right. split; [done|]. exists a. split; [left|by apply Hrx].
        -- right. split; [done|]. exists arg. split; [by right|done].
      * intros [?|(Hd & arg & [->|Hin]%elem_of_cons & Hr)].
        -- left. destruct (IsDirectCallType x); [|done]. apply elem_of_union. auto.
        -- left. apply Hrx in Hr as ->. rewrite Hd. apply elem_of_union. left.
           by apply elem_of_singleton.
        -- right. eauto.
Qed.

Lemma collect_dependencies_None args :
  ∀ acc,
    collect_dependencies args acc = None ↔
    ∃ arg, arg ∈ args ∧ 1 < length (arg_object_ids arg).
Proof.
  induction args as [|a args IH]; intros acc; simpl.
  - split; [done|]. intros (arg & Hin & _). by apply elem_of_nil in Hin.
  - destruct (arg_object_ids a) as [|x more] eqn:Ha.
    + rewrite IH. split.
      * intros (arg & Hin & Hlen). exists arg. split; [by right|done].
      * intros (arg & [->|Hin]%elem_of_cons & Hlen); [|eauto].
        rewrite Ha in Hlen. simpl in Hlen. lia.
    + case_bool_decide as Hlen.
      * rewrite IH. split.
        -- intros (arg & Hin & Hl). exists arg. split; [by right|done].
        -- intros (arg & [->|Hin]%elem_of_cons & Hl); [|eauto].
           rewrite Ha in Hl. simpl in *. lia.
      * split; [|done]. intros _. exists a. split; [left|].
        rewrite Ha. simpl in *. lia.
Qed.

(** X16.  The dependencies that [ResolveDependencies] collects: the check
    fails exactly when some argument refers to more than one id; otherwise
    the set holds exactly the direct-call ids that are the first referenced
    id of some argument slot, so that an id of the raylet transport is never
    waited for. *)
Theorem X16_collected_dependencies (task : TaskSpecification) :
  (collect_dependencies (task_args task) ∅ = None ↔
   ∃ arg, arg ∈ task_args task ∧ 1 < length (arg_object_ids arg)) ∧
  (∀ deps, collect_dependencies (task_args task) ∅ = Some deps →
           ∀ id, id ∈ deps ↔ IsDirectCallType id = true ∧ 0 < matching_slots id task).
Proof.
  split; [apply collect_dependencies_None|].
  intros deps H id. rewrite (collect_dependencies_Some _ _ _ H id), matching_slots_pos.
  split; [|auto]. intros [?%elem_of_empty|?]; done.
Qed.

Lemma run_callbacks_spec deliveries :
  ∀ state num_pending completions,
    (∀ id, id ∈ local_dependencies state →
           IsDirectCallType id = true ∧ 0 < matching_slots id (state_task state)) →
    (∀ arg id, arg ∈ task_args (state_task state) → refers_to id arg = true →
               IsDirectCallType id = true → id ∈ local_dependencies state) →
    NoDup deliveries.*1 →
    (∀ id, id ∈ deliveries.*1 ↔ id ∈ local_dependencies state) →
    ∃ state',
      run_callbacks deliveries state num_pending completions
      = Some (state',
              if deliveries is [] then num_pending else (num_pending - 1)%Z,
              if deliveries is [] then completions else S completions) ∧
      local_dependencies state' = ∅ ∧
      TaskId (state_task state') = TaskId (state_task state) ∧
      ∀ arg id, arg ∈ task_args (state_task state') → refers_to id arg = true →
                IsDirectCallType id = false.
Proof.
  induction deliveries as [|[id0 obj] rest IH];
    intros state np c Hpend Hrefs Hnd Hcover.
  - exists state. simpl. split; [done|].
    assert (local_dependencies state = ∅) as Hempty.
    { apply set_eq. intros id. rewrite <- Hcover. simpl.
      split; [by intros ?%elem_of_nil|by intros ?%elem_of_empty]. }
    split; [done|]. split; [done|]. intros arg id Hin Hr.
    destruct (IsDirectCallType id) eqn:Hd; [|done].
    pose proof (Hrefs arg id Hin Hr Hd) as Hid. rewrite Hempty in Hid.
    by apply elem_of_empty in Hid.
  - simpl in Hnd, Hcover. apply NoDup_cons in Hnd as [Hid0 Hnd].
    assert (id0 ∈ local_dependencies state) as Hin0 by (apply Hcover; left).
    destruct (Hpend id0 Hin0) as [Hd0 Hslots0].
    cbn [run_callbacks]. unfold ResolveDependencies_callback.
    rewrite DoInlineObjectValue_eq, (bool_decide_eq_true_2 _ Hslots0).
    cbn [mbind option_bind].
    set (task' := mkTask (TaskId (state_task state)) (NumReturns (state_task state))
                    (map (inline_slot id0 obj) (task_args (state_task state)))).
    set (deps' := local_dependencies state ∖ {[id0]}).
    assert (∀ id, id ∈ rest.*1 ↔ id ∈ deps') as Hcover'.
    { intros id. unfold deps'. rewrite elem_of_difference, elem_of_singleton, <- Hcover.
      rewrite elem_of_cons. split.
      - intros Hin. split; [auto|]. intros ->. done.
      - intros [[->|?] ?]; done. }
    assert (deps' = ∅ ↔ rest = []) as Hlast.
    { split.
      - intros Hempty. destruct rest as [|[id1 o1] rest']; [done|].
        exfalso. apply (not_elem_of_empty (C:=gset ObjectID) id1).
        rewrite <- Hempty. apply Hcover'. left.
      - intros ->. apply set_eq. intros id. rewrite <- Hcover'. simpl.
        split; [by intros ?%elem_of_nil|by intros ?%elem_of_empty]. }
    destruct (IH (mkTaskState task' deps')
                (if bool_decide (deps' = ∅) then (np - 1)%Z else np)
                (if bool_decide (deps' = ∅) then S c else c))
      as (state' & Hrun & Hempty & Hid & Hnone); simpl.
    + intros id [Hin Hne]%elem_of_difference.
      destruct (Hpend id Hin) as [Hd Hslots]. split; [done|].
      unfold task'. rewrite matching_slots_inline_slot; [done| |done].
      intros Heq. apply Hne. by apply elem_of_singleton.
    + intros arg id (a & -> & Ha)%list_elem_of_fmap Hr Hd.
      assert (id0 ≠ id) as Hne.
      { intros <-. unfold inline_slot in Hr.
        destruct (refers_to id0 a) eqn:Hra; [|congruence].
        rewrite refers_to_inline_into_self in Hr by auto. done. }
      rewrite refers_to_inline_slot in Hr by done.
      apply elem_of_difference. split; [by apply (Hrefs a)|].
      intros ?%elem_of_singleton. congruence.
    + done.
    + done.
    + exists state'. split; [|done].
      case_bool_decide as He.
      * cbn [mbind option_bind]. rewrite Hrun.
        apply Hlast in He. by rewrite He.
      * cbn [mbind option_bind]. rewrite Hrun.
        destruct rest; [|done]. destruct He. by apply Hlast.
Qed.

(** X17.  A resolution runs to its end: when [ResolveDependencies] finds
    dependencies, and the store then delivers an object for each of them
    once, in any order, no callback fails a check; [on_complete] is called
    exactly once, by the last callback; [num_pending_] is back at its value
    from before the call; and the task that is left refers to no direct-call
    id in any argument slot. *)
Theorem X17_resolution_completes_once
    (task : TaskSpecification) (num_pending num_pending1 : Z) (state : TaskState)
    (deliveries : list (ObjectID * RayObject)) :
  ResolveDependencies_begin task num_pending = Some (Resolving state num_pending1) →
  NoDup deliveries.*1 →
  (∀ id, id ∈ deliveries.*1 ↔ id ∈ local_dependencies state) →
  ∃ state',
    run_callbacks deliveries state num_pending1 0 = Some (state', num_pending, 1) ∧
    local_dependencies state' = ∅ ∧
    TaskId (state_task state') = TaskId task ∧
    ∀ arg id, arg ∈ task_args (state_task state') → refers_to id arg = true →
              IsDirectCallType id = false.
Proof.
  unfold ResolveDependencies_begin. intros H Hnd Hcover.
  destruct (collect_dependencies (task_args task) ∅) as [deps|] eqn:Hdeps;
    simpl in H; [|done].
  case_bool_decide as Hne; [done|]. injection H as <- <-.
  pose proof (collect_dependencies_Some _ _ _ Hdeps) as Hspec.
  destruct (run_callbacks_spec deliveries (mkTaskState task deps) (num_pending + 1) 0)
    as (state' & Hrun & Hrest); simpl; try done.
  - intros id [?%elem_of_empty|[Hd Hex]]%Hspec; [done|].
    split; [done|]. by apply matching_slots_pos.
  - intros arg id Hin Hr Hd. apply Hspec. right. eauto.
  - exists state'. split; [|done]. rewrite Hrun.
    destruct deliveries as [|d rest].
    + destruct Hne. apply set_eq. intros id. rewrite <- (Hcover id). simpl.
      split; [by intros ?%elem_of_nil|by intros ?%elem_of_empty].
    + do 3 f_equal. lia.
Qed.

Lemma X17_witness :
  ResolveDependencies_begin ex_task_AB 0
  = Some (Resolving (mkTaskState ex_task_AB {[ex_A; ex_B]}) 1) ∧
  NoDup [(ex_B, ex_in_plasma); (ex_A, ex_v)].*1 ∧
  (∀ id, id ∈ [(ex_B, ex_in_plasma); (ex_A, ex_v)].*1 ↔ id ∈ ({[ex_A; ex_B]} : gset ObjectID)) ∧
  ∃ state',
    run_callbacks [(ex_B, ex_in_plasma); (ex_A, ex_v)]
      (mkTaskState ex_task_AB {[ex_A; ex_B]}) 1 0 = Some (state', 0%Z, 1) ∧
    local_dependencies state' = ∅ ∧
    TaskId (state_task state') = 8%N ∧
    ∀ arg id, arg ∈ task_args (state_task state') → refers_to id arg = true →
              IsDirectCallType id = false.
Proof.
  assert (ResolveDependencies_begin ex_task_AB 0
          = Some (Resolving (mkTaskState ex_task_AB {[ex_A; ex_B]}) 1)) as Hbegin
    by reflexivity.
  assert (NoDup [(ex_B, ex_in_plasma); (ex_A, ex_v)].*1) as Hnd.
  { simpl. apply NoDup_cons. split; [|apply NoDup_singleton].
    intros H%list_elem_of_singleton. discriminate H. }
  assert (∀ id, id ∈ [(ex_B, ex_in_plasma); (ex_A, ex_v)].*1
                ↔ id ∈ ({[ex_A; ex_B]} : gset ObjectID)) as Hcover.
  { intros id. simpl. rewrite !elem_of_cons, elem_of_nil, elem_of_union, !elem_of_singleton.
    tauto. }
  split; [exact Hbegin|]. split; [exact Hnd|]. split; [exact Hcover|].
  exact (X17_resolution_completes_once ex_task_AB 0 1
           (mkTaskState ex_task_AB {[ex_A; ex_B]})
           [(ex_B, ex_in_plasma); (ex_A, ex_v)] Hbegin Hnd Hcover).
Defined.

(* ================================================================== *)
(** * Further properties of the submitter *)

Lemma pushed_tasks_app cs1 cs2 : pushed_tasks (cs1 ++ cs2) = pushed_tasks cs1 ++ pushed_tasks cs2.
Proof. induction cs1 as [|[] cs1 IH]; simpl; by rewrite ?IH. Qed.

Lemma pushed_tasks_store_calls cs :
  forallb is_store_call cs = true → pushed_tasks cs = [].
Proof.
  induction cs as [|c cs IH]; simpl; [done|].
  intros [Hc Hcs]%andb_true_iff. destruct c; simpl in *; try done; by apply IH.
Qed.

Lemma factory_calls_app addr cs1 cs2 :
  factory_calls addr (cs1 ++ cs2) = factory_calls addr cs1 + factory_calls addr cs2.
Proof. induction cs1 as [|[] cs1 IH]; simpl; rewrite ?IH; lia. Qed.

Lemma factory_calls_store_calls addr cs :
  forallb is_store_call cs = true → factory_calls addr cs = 0.
Proof.
  induction cs as [|c cs IH]; simpl; [done|].
  intros [Hc Hcs]%andb_true_iff. destruct c; simpl in *; try done; by apply IH.
Qed.

(** The calls that [OnWorkerIdle] adds: a [ReturnWorker] (the queue is then
    kept) or the push of the head of the queue to the stub cached for the
    address (the head is then popped), then calls to the store only, then at
    most one lease request, for the head of the queue that is left. *)
Lemma OnWorkerIdle_shape F addr was_error env w w' :
  OnWorkerIdle F addr was_error env w = Some w' →
  client_cache_ (submitter w') = client_cache_ (submitter w) ∧
  ∃ c cs1 cs2,
    calls w' = calls w ++ c :: cs1 ++ cs2 ∧
    forallb is_store_call cs1 = true ∧
    cs2 = match queued_tasks_ (submitter w') with
          | front :: _ =>
              if worker_request_pending_ (submitter w) then []
              else [RequestWorkerLease front]
          | [] => []
          end ∧
    ((c = ReturnWorker addr.2 ∧ cs1 = [] ∧
      (queued_tasks_ (submitter w) = [] ∨ was_error = true) ∧
      queued_tasks_ (submitter w') = queued_tasks_ (submitter w)) ∨
     (∃ client front,
        c = ClientPushNormalTask client front
              (mkCompletion (TaskId front) (NumReturns front) addr) ∧
        was_error = false ∧
        client_cache_ (submitter w) !! addr = Some client ∧
        queued_tasks_ (submitter w) = front :: queued_tasks_ (submitter w'))).
Proof.
  unfold OnWorkerIdle.
  destruct (bool_decide (queued_tasks_ (submitter w) = []) || was_error) eqn:Hret.
  - assert (queued_tasks_ (submitter w) = [] ∨ was_error = true) as Hwhy.
    { apply orb_true_iff in Hret as [Hq%bool_decide_eq_true|?]; auto. }
    destruct (ok (return_status env)); simpl; [|done].
    destruct (queued_tasks_ (submitter w)) as [|front rest] eqn:Hq.
    + intros [= <-]. simpl. rewrite Hq. split; [done|].
      exists (ReturnWorker addr.2), [], []. repeat split; auto.
    + intros H.
      apply RequestNewWorkerIfNeeded_inv in H as (_ & Hq' & Hcache & _ & Hc & _).
      simpl in *. rewrite Hq in Hq'. rewrite Hq'. split; [done|].
      exists (ReturnWorker addr.2), [],
        (if worker_request_pending_ (submitter w) then []
         else [RequestWorkerLease front]).
      rewrite Hc, <- app_assoc. simpl. repeat split; auto.
  - apply orb_false_iff in Hret as [Hq Herr]. subst was_error.
    destruct (client_cache_ (submitter w) !! addr) as [client|] eqn:Hclient;
      simpl; [|done].
    destruct (queued_tasks_ (submitter w)) as [|front rest] eqn:Hq0; simpl; [done|].
    destruct (PushNormalTask F addr client front env w) as [w1|] eqn:HPush; simpl; [|done].
    apply PushNormalTask_inv in HPush as (Hs & cs & Hc & Hall & _).
    rewrite Hs, Hq0. simpl.
    destruct rest as [|front' rest].
    + intros [= <-]. simpl. rewrite Hs, Hq0. simpl. split; [done|].
      exists (ClientPushNormalTask client front
                (mkCompletion (TaskId front) (NumReturns front) addr)), cs, [].
      rewrite Hc, app_nil_r. repeat split; [done|]. right. eauto 10.
    + intros H.
      apply RequestNewWorkerIfNeeded_inv in H as (_ & Hq' & Hcache & _ & Hc' & _).
      simpl in *. rewrite Hs, Hq0 in Hq'. simpl in Hq'. rewrite Hq', Hcache, Hs.
      split; [done|].
      exists (ClientPushNormalTask client front
                (mkCompletion (TaskId front) (NumReturns front) addr)), cs,
        (if worker_request_pending_ (submitter w) then []
         else [RequestWorkerLease front']).
      rewrite Hc', Hc, Hs, <- app_assoc. simpl. repeat split; [done|].
      right. eauto 10.
Qed.

(** X18.  [OnWorkerIdle] neither loses, nor repeats, nor reorders a task:
    the tasks handed to stubs so far, followed by the queue, are the same
    list before and after the call; it hands over at most one task, the head
    of the queue, and only when it was not called for an error. *)
Theorem X18_on_worker_idle_keeps_fifo_order
    (ForTaskReturn : N → nat → ObjectID) (addr : WorkerAddress) (was_error : bool)
    (env : Env) (w w' : World) :
  OnWorkerIdle ForTaskReturn addr was_error env w = Some w' →
  pushed_tasks (calls w') ++ queued_tasks_ (submitter w')
  = pushed_tasks (calls w) ++ queued_tasks_ (submitter w) ∧
  (was_error = true → pushed_tasks (calls w') = pushed_tasks (calls w)) ∧
  ∃ new, pushed_tasks (calls w') = pushed_tasks (calls w) ++ new ∧
         length new ≤ 1 ∧
         queued_tasks_ (submitter w) = new ++ queued_tasks_ (submitter w').
Proof.
  intros H. apply OnWorkerIdle_shape in H
    as (_ & c & cs1 & cs2 & Hc & Hall & Hcs2 & Hcase).
  assert (pushed_tasks cs2 = []) as Hp2.
  { rewrite Hcs2. destruct (queued_tasks_ (submitter w')); [done|].
    by destruct (worker_request_pending_ (submitter w)). }
  assert (pushed_tasks (calls w') = pushed_tasks (calls w) ++ pushed_tasks [c]) as Hp.
  { rewrite Hc. change (c :: cs1 ++ cs2) with ([c] ++ cs1 ++ cs2).
    rewrite !pushed_tasks_app, (pushed_tasks_store_calls cs1 Hall), Hp2.
    by rewrite !app_nil_r. }
  destruct Hcase as [(-> & _ & _ & Hq)|(client & front & -> & -> & _ & Hq)].
  - simpl in Hp. rewrite app_nil_r in Hp. rewrite Hp, Hq.
    split; [done|]. split; [done|]. exists []. rewrite app_nil_r. simpl. auto with lia.
  - simpl in Hp. rewrite Hp, Hq, <- app_assoc.
    split; [done|]. split; [done|]. exists [front]. simpl. auto with lia.
Qed.

Lemma X18_witness :
  OnWorkerIdle ex_ForTaskReturn ex_addr false ex_env_ok
    (mkWorld (mkSubmitter [ex_task; ex_task2] {[ex_addr := mkClient ex_addr]} false)
       (store_init false) [])
  = Some (mkWorld (mkSubmitter [ex_task2] {[ex_addr := mkClient ex_addr]} true)
            (store_init false)
            [ClientPushNormalTask (mkClient ex_addr) ex_task ex_completion;
             RequestWorkerLease ex_task2]) ∧
  [ex_task] ++ [ex_task2] = [] ++ [ex_task; ex_task2].
Proof.
  split; [reflexivity|].
  exact (proj1 (X18_on_worker_idle_keeps_fifo_order ex_ForTaskReturn ex_addr false
           ex_env_ok
           (mkWorld (mkSubmitter [ex_task; ex_task2] {[ex_addr := mkClient ex_addr]} false)
              (store_init false) [])
           (mkWorld (mkSubmitter [ex_task2] {[ex_addr := mkClient ex_addr]} true)
              (store_init false)
              [ClientPushNormalTask (mkClient ex_addr) ex_task ex_completion;
               RequestWorkerLease ex_task2])
           eq_refl)).
Defined.

(** X19.  Back-pressure on submission: when the callbacks of [SubmitTask]
    run for a list of tasks (the lease client accepting a request), the tasks
    are appended to the queue in that order and at most one lease request is
    made, for the first of them, and only if none was pending; the stub
    cache and the store are left alone. *)
Theorem X19_submissions_queue_in_order_with_one_lease_request
    (tasks : list TaskSpecification) (env : Env) (w : World) :
  ok (lease_status env) = true →
  ∃ w',
    SubmitTask_all tasks env w = Some w' ∧
    queued_tasks_ (submitter w') = queued_tasks_ (submitter w) ++ tasks ∧
    client_cache_ (submitter w') = client_cache_ (submitter w) ∧
    in_memory_store_ w' = in_memory_store_ w ∧
    worker_request_pending_ (submitter w')
    = worker_request_pending_ (submitter w) || bool_decide (tasks ≠ []) ∧
    calls w' = calls w ++ match tasks with
                          | first :: _ =>
                              if worker_request_pending_ (submitter w) then []
                              else [RequestWorkerLease first]
                          | [] => []
                          end.
Proof.
  intros Hlease. revert w. induction tasks as [|t tasks IH]; intros w.
  - exists w. simpl. by rewrite !app_nil_r, orb_false_r.
  - cbn [SubmitTask_all]. unfold SubmitTask_on_complete.
    assert (∃ w1, RequestNewWorkerIfNeeded t env w = Some w1) as [w1 Hw1].
    { unfold RequestNewWorkerIfNeeded. rewrite Hlease.
      destruct (worker_request_pending_ (submitter w)); eauto. }
    rewrite Hw1. cbn [mbind option_bind].
    apply RequestNewWorkerIfNeeded_inv in Hw1 as (Hp & Hq & Hcache & Hstore & Hc & _).
    destruct (IH (set_submitter
                    (mkSubmitter (queued_tasks_ (submitter w1) ++ [t])
                       (client_cache_ (submitter w1))
                       (worker_request_pending_ (submitter w1))) w1))
      as (w' & Hrun & Hq' & Hcache' & Hstore' & Hp' & Hc').
    simpl in *. exists w'. split; [done|].
    rewrite Hq', Hcache', Hstore', Hp', Hc', Hq, Hp, Hc, Hcache, Hstore, <- !app_assoc.
    rewrite orb_true_r. simpl. repeat split; try done.
    destruct tasks; by rewrite app_nil_r.
Qed.

Lemma X19_witness :
  ok (lease_status ex_env_ok) = true ∧
  ∃ w',
    SubmitTask_all [ex_task; ex_task2] ex_env_ok ex_world_init = Some w' ∧
    queued_tasks_ (submitter w') = [] ++ [ex_task; ex_task2] ∧
    client_cache_ (submitter w') = ∅ ∧
    in_memory_store_ w' = store_init false ∧
    worker_request_pending_ (submitter w') = true ∧
    calls w' = [RequestWorkerLease ex_task].
Proof.
  split; [reflexivity|].
  exact (X19_submissions_queue_in_order_with_one_lease_request [ex_task; ex_task2]
           ex_env_ok ex_world_init eq_refl).
Defined.

Lemma DTS_step_factory_inv F σ σ' :
  DTS_step F σ σ' →
  (∀ addr,
     factory_calls addr (calls (world σ))
     = (if client_cache_ (submitter (world σ)) !! addr is Some _ then 1 else 0) ∧
     ∀ client, client_cache_ (submitter (world σ)) !! addr = Some client →
               client = mkClient addr) →
  ∀ addr,
    factory_calls addr (calls (world σ'))
    = (if client_cache_ (submitter (world σ')) !! addr is Some _ then 1 else 0) ∧
    ∀ client, client_cache_ (submitter (world σ')) !! addr = Some client →
              client = mkClient addr.
Proof.
  intros Hstep Hinv a. destruct (Hinv a) as [Hcount Hstub].
  destruct Hstep; simpl.
  - unfold SubmitTask_on_complete in H.
    destruct (RequestNewWorkerIfNeeded task_spec env (world σ)) as [w1|] eqn:Hw1;
      simpl in H; [|done].
    injection H as <-. simpl.
    apply RequestNewWorkerIfNeeded_inv in Hw1 as (_ & _ & -> & _ & -> & _).
    rewrite factory_calls_app.
    assert (factory_calls a (if worker_request_pending_ (submitter (world σ))
                             then [] else [RequestWorkerLease task_spec]) = 0) as ->
      by (by destruct (worker_request_pending_ (submitter (world σ)))).
    rewrite Nat.add_0_r. done.
  - unfold HandleWorkerLeaseGranted_setup.
    destruct (client_cache_ (submitter (world σ)) !! addr) as [client|] eqn:Haddr;
      simpl; [done|].
    rewrite factory_calls_app. simpl. destruct (decide (addr = a)) as [->|Hne].
    + rewrite lookup_insert_eq, bool_decide_eq_true_2 by done.
      rewrite Hcount, Haddr. split; [done|]. by intros client [= <-].
    + rewrite lookup_insert_ne, bool_decide_eq_false_2 by done.
      rewrite Nat.add_0_r. done.
  - apply OnWorkerIdle_shape in H
      as (-> & c & cs1 & cs2 & -> & Hall & Hcs2 & Hcase).
    split; [|done].
    change (c :: cs1 ++ cs2) with ([c] ++ cs1 ++ cs2).
    rewrite !factory_calls_app, (factory_calls_store_calls a cs1 Hall).
    replace (factory_calls a cs2) with 0.
    2:{ rewrite Hcs2. destruct (queued_tasks_ (submitter w')); [done|].
        by destruct (worker_request_pending_ (submitter (world σ))). }
    replace (factory_calls a [c]) with 0; [by rewrite !Nat.add_0_r|].
    by destruct Hcase as [(-> & _)|(? & ? & -> & _)].
  - apply put_each_inv in H as (-> & cs & -> & Hall & _).
    rewrite factory_calls_app, (factory_calls_store_calls a cs Hall), Nat.add_0_r. done.
  - apply put_each_inv in H as (-> & cs & -> & Hall & _).
    rewrite factory_calls_app, (factory_calls_store_calls a cs Hall), Nat.add_0_r. done.
  - done.
Qed.

(** X20.  In every reachable state of the submitter, [client_factory_] has
    been called exactly once for each address that has a stub in the cache,
    and never for another address; the stub cached for an address is the one
    built for that address. *)
Theorem X20_one_stub_per_address
    (ForTaskReturn : N → nat → ObjectID) (σ : DTS) (addr : WorkerAddress) :
  DTS_reachable ForTaskReturn σ →
  factory_calls addr (calls (world σ))
  = (if client_cache_ (submitter (world σ)) !! addr is Some _ then 1 else 0) ∧
  ∀ client, client_cache_ (submitter (world σ)) !! addr = Some client →
            client = mkClient addr.
Proof.
  intros [s Hrtc]. revert addr. revert σ Hrtc.
  apply (rtc_ind_r (λ σ, ∀ addr,
           factory_calls addr (calls (world σ))
           = (if client_cache_ (submitter (world σ)) !! addr is Some _ then 1 else 0) ∧
           ∀ client, client_cache_ (submitter (world σ)) !! addr = Some client →
                     client = mkClient addr)).
  - intros addr. simpl. rewrite lookup_empty. by split.
  - intros σ1 σ2 _ Hstep IH. by eapply DTS_step_factory_inv.
Qed.

Lemma ex_world_granted_reachable :
  DTS_reachable ex_ForTaskReturn (mkDTS ex_world_granted 1).
Proof.
  destruct ex_world_queued_reachable as [s Hrtc]. exists s.
  eapply rtc_r; [exact Hrtc|].
  apply (step_lease_granted ex_ForTaskReturn ex_addr (mkDTS ex_world_queued 0)).
  simpl. unfold lease_requests. simpl. lia.
Qed.

Lemma X20_witness :
  DTS_reachable ex_ForTaskReturn (mkDTS ex_world_granted 1) ∧
  factory_calls ex_addr (calls ex_world_granted) = 1 ∧
  ∀ client, client_cache_ (submitter ex_world_granted) !! ex_addr = Some client →
            client = mkClient ex_addr.
Proof.
  split; [apply ex_world_granted_reachable|].
  exact (X20_one_stub_per_address ex_ForTaskReturn (mkDTS ex_world_granted 1) ex_addr
           ex_world_granted_reachable).
Defined.

(** X21.  A granted lease is used at once and the grant never aborts for a
    missing stub (the collaborators returning OK): [HandleWorkerLeaseGranted]
    builds the stub when the address has none, then either returns the worker
    (empty queue) or pushes the head of the queue through the stub of that
    address and pops it; since the grant has cleared the flag, a new lease
    request is made exactly when tasks are still queued, and the flag ends
    up set exactly in that case. *)
Theorem X21_granted_lease_is_used
    (ForTaskReturn : N → nat → ObjectID) (addr : WorkerAddress) (env : Env) (w : World) :
  ok (return_status env) = true →
  ok (lease_status env) = true →
  ok (push_status env) = true →
  let d := submitter w in
  let client := default (mkClient addr) (client_cache_ d !! addr) in
  let cache := if client_cache_ d !! addr is Some _ then client_cache_ d
               else <[addr := mkClient addr]> (client_cache_ d) in
  let connect := if client_cache_ d !! addr is Some _ then [] else [ClientFactory addr] in
  HandleWorkerLeaseGranted ForTaskReturn addr env w
  = Some match queued_tasks_ d with
         | [] =>
             mkWorld (mkSubmitter [] cache false) (in_memory_store_ w)
               (calls w ++ connect ++ [ReturnWorker addr.2])
         | front :: rest =>
             mkWorld (mkSubmitter rest cache (bool_decide (rest ≠ [])))
               (in_memory_store_ w)
               (calls w ++ connect
                ++ ClientPushNormalTask client front
                     (mkCompletion (TaskId front) (NumReturns front) addr)
                   :: match rest with
                      | next :: _ => [RequestWorkerLease next]
                      | [] => []
                      end)
         end.
Proof.
  intros Hret Hlease Hpush. simpl.
  unfold HandleWorkerLeaseGranted, HandleWorkerLeaseGranted_setup, OnWorkerIdle,
    PushNormalTask, RequestNewWorkerIfNeeded.
  rewrite Hret, Hlease, Hpush.
  destruct w as [[queue cache pending] store cs]. simpl.
  destruct (cache !! addr) as [client|] eqn:Hclient; simpl.
  - destruct queue as [|front [|next rest]]; simpl; rewrite ?Hclient; simpl;
      unfold set_submitter, log, pop_front; simpl; by rewrite <- ?app_assoc.
  - destruct queue as [|front [|next rest]]; simpl; rewrite ?lookup_insert_eq; simpl;
      unfold set_submitter, log, pop_front; simpl; by rewrite <- ?app_assoc.
Qed.

Lemma X21_witness :
  ok (return_status ex_env_ok) = true ∧ ok (lease_status ex_env_ok) = true ∧
  ok (push_status ex_env_ok) = true ∧
  HandleWorkerLeaseGranted ex_ForTaskReturn ex_addr ex_env_ok ex_world_queued2
  = Some (mkWorld (mkSubmitter [ex_task2] {[ex_addr := mkClient ex_addr]} true)
            (store_init false)
            [RequestWorkerLease ex_task; ClientFactory ex_addr;
             ClientPushNormalTask (mkClient ex_addr) ex_task ex_completion;
             RequestWorkerLease ex_task2]).
Proof.
  split; [reflexivity|]. split; [reflexivity|]. split; [reflexivity|].
  exact (X21_granted_lease_is_used ex_ForTaskReturn ex_addr ex_env_ok ex_world_queued2
           eq_refl eq_refl eq_refl).
Defined.

(* ================================================================== *)
(** * A [Put] under a removing request *)

(** X22.  When a request with [remove_after_get] is registered under the id,
    a [Put] that returns OK does not insert the object into [objects_], and
    it leaves every request that was already ready exactly as it was, since
    [Set] returns early on a ready request.  So when the registered requests
    are all ready (their readers have not yet woken up), the object that was
    put is kept nowhere. *)
Theorem X22_put_under_removing_request_stores_nothing
    (s s' : CoreWorkerMemoryStore) (id : ObjectID) (v : RayObject)
    (effs : list Effect) (h : nat) (g : GetRequest) :
  Put id v s = Some (OK, s', effs) →
  h ∈ default [] (object_get_requests_ s !! id) →
  get_request_heap s !! h = Some g →
  remove_after_get_ g = true →
  objects_ s' = objects_ s ∧
  objects_ s' !! id = None ∧
  ∀ h' g', get_request_heap s !! h' = Some g' → is_ready_ g' = true →
           get_request_heap s' !! h' = Some g'.
Proof.
  intros HPut Hin Hg Hrm. apply Put_inv in HPut as [_ HPut].
  destruct (objects_ s !! id) as [o|] eqn:Hobj; [by destruct HPut|].
  lazy beta iota zeta in HPut. destruct HPut as (_ & _ & Hobjs & _ & _ & _ & Hheap & _).
  assert (forallb (λ h0, negb (from_option ShouldRemoveObjects false
                                 (get_request_heap s !! h0)))
            (default [] (object_get_requests_ s !! id)) = false) as Hall.
  { apply not_true_is_false. intros Hall.
    rewrite forallb_forall in Hall. specialize (Hall h).
    rewrite <- list_elem_of_In in Hall. specialize (Hall Hin).
    rewrite Hg in Hall. simpl in Hall. unfold ShouldRemoveObjects in Hall.
    by rewrite Hrm in Hall. }
  rewrite Put_requests_add, Hall in Hobjs. simpl in Hobjs.
  split; [done|]. split; [by rewrite Hobjs|].
  intros h' g' Hg' Hready. rewrite Hheap.
  destruct (Put_requests_heap id v (default [] (object_get_requests_ s !! id))
              (get_request_heap s) true h') as [n ->].
  rewrite Hg'. simpl. by rewrite GetRequest_Set_iter_ready.
Qed.

Lemma ex_store_ready_remover_reachable :
  IMS_reachable (mkIMS ex_store_ready_remover
                   (<[0 := mkReader [ex_A; ex_B] [None; None] (-1)%Z]> ∅)).
Proof.
  exists false.
  eapply rtc_l.
  { apply (step_Get_blocks [ex_A; ex_B] 1 (-1) true (IMS_init false) 0 [None; None]
             (mkStore false ∅ ∅ (<[ex_B := [0]]> {[ex_A := [0]]}) ∅
                {[0 := mkGetRequest {[ex_A; ex_B]} ∅ 1 true false]})).
    reflexivity. }
  eapply rtc_l; [|apply rtc_refl].
  exact (step_Put ex_A ex_v
           (mkIMS (mkStore false ∅ ∅ (<[ex_B := [0]]> {[ex_A := [0]]}) ∅
                     {[0 := mkGetRequest {[ex_A; ex_B]} ∅ 1 true false]})
                  (<[0 := mkReader [ex_A; ex_B] [None; None] (-1)%Z]> ∅))
           OK ex_store_ready_remover [CallSet 0 ex_A ex_v] eq_refl).
Qed.

Lemma X22_witness :
  IMS_reachable (mkIMS ex_store_ready_remover
                   (<[0 := mkReader [ex_A; ex_B] [None; None] (-1)%Z]> ∅)) ∧
  Put ex_B ex_w ex_store_ready_remover
  = Some (OK, ex_store_ready_remover, [CallSet 0 ex_B ex_w]) ∧
  objects_ ex_store_ready_remover !! ex_B = None ∧
  get_request_heap ex_store_ready_remover !! 0
  = Some (mkGetRequest {[ex_A; ex_B]} {[ex_A := ex_v]} 1 true true).
Proof.
  split; [apply ex_store_ready_remover_reachable|]. split; [reflexivity|].
  destruct (X22_put_under_removing_request_stores_nothing ex_store_ready_remover
              ex_store_ready_remover ex_B ex_w [CallSet 0 ex_B ex_w] 0
              (mkGetRequest {[ex_A; ex_B]} {[ex_A := ex_v]} 1 true true)
              eq_refl (list_elem_of_here 0 []) eq_refl eq_refl) as (_ & H1 & H2).
  split; [exact H1|].
  exact (H2 0 (mkGetRequest {[ex_A; ex_B]} {[ex_A := ex_v]} 1 true true) eq_refl eq_refl).
Defined.
